(** * A shallow embedding of the [osmem] allocator

    The allocator keeps one circular doubly-linked list of block
    descriptors ([struct block_meta]) hanging off the global sentinel
    [head].  The list is represented by the sequence of its nodes from
    [head.next] to [head.prev]; a node is identified by its address, so a
    C pointer to a descriptor is the [addr] of a list element, and the
    [prev]/[next] links of a node are its neighbours in the sequence.
    Payload bytes are not represented: [memset] and [memmove] leave the
    modelled state untouched.  Of the accesses to payloads only [memmove]
    is checked, against the sizes of the two blocks ([copy_block]); the
    statements that a call returns from any state of some kind are made
    for sizes whose sums do not wrap around, where every other access
    stays inside the block it is made to.

    [size_t] is the 64-bit unsigned type of the LP64 targets that offer
    [sbrk] and [mmap]; every arithmetic operation of the source is written
    with its wrap-around. *)

From Stdlib Require Import ZArith List Bool Lia.
From ExtLib Require Import Structures.Monad.
Import ListNotations.
Import MonadNotation.
Local Open Scope Z_scope.
Local Open Scope monad_scope.

(** ** Machine arithmetic *)

Definition SIZE_MAX : Z := 2 ^ 64 - 1.

(** Arithmetic on [size_t]. *)
Definition wrap (x : Z) : Z := x mod 2 ^ 64.

(** Conversion of a [size_t] to the signed [intptr_t] / [long]. *)
Definition as_signed (x : Z) : Z := if x <? 2 ^ 63 then x else x - 2 ^ 64.

Definition ALIGNMENT : Z := 8.

(** [#define ALIGN(size) (((size) + (ALIGNMENT - 1)) & ~(ALIGNMENT - 1))] *)
Definition ALIGN (sz : Z) : Z :=
  Z.land (wrap (sz + (ALIGNMENT - 1))) (wrap (Z.lnot (ALIGNMENT - 1))).

Definition HEAP_PREALLOC_SIZE : Z := 128 * 1024.
Definition MMAP_THRESHOLD : Z := 128 * 1024.

(** ** Block descriptors *)

Inductive blk_status : Type := STATUS_FREE | STATUS_ALLOC | STATUS_MAPPED.

Definition status_eqb (a b : blk_status) : bool :=
  match a, b with
  | STATUS_FREE, STATUS_FREE => true
  | STATUS_ALLOC, STATUS_ALLOC => true
  | STATUS_MAPPED, STATUS_MAPPED => true
  | _, _ => false
  end.

Record block_meta : Type := Block {
  addr : Z;          (* where the descriptor lives *)
  size : Z;
  status : blk_status
}.

Definition with_size (v : Z) (b : block_meta) : block_meta :=
  Block (addr b) v (status b).

Definition with_status (st : blk_status) (b : block_meta) : block_meta :=
  Block (addr b) (size b) st.

(** ** The operating system *)

Inductive syscall : Type :=
| Sbrk (increment : Z)
| Mmap (length : Z)
| Munmap (base length : Z).

(** The program break and the system calls issued so far, newest first. *)
Record kernel : Type := Kernel {
  brk : Z;
  calls : list syscall
}.

(** What the sources leave to the build and to the running system:
    [sizeof(struct block_meta)] (the header [block_meta.h] is not part of
    the repository), the page size, the status bits found in memory that
    was never written, and the answers of the kernel, which may depend on
    everything that happened before. *)
Record platform : Type := Platform {
  sizeof_block_meta : Z;
  getpagesize : Z;
  sbrk_refused : kernel -> Z -> bool;
  mmap_answer : kernel -> Z -> option Z;
  munmap_refused : kernel -> Z -> Z -> bool;
  stale_status : blk_status
}.

(** [#define META_BLOCK_SIZE ALIGN(sizeof(struct block_meta))] *)
Definition META_BLOCK_SIZE (P : platform) : Z := ALIGN (sizeof_block_meta P).

(** Global state of the allocator. While [head_init_done] is false the
    links of [head] are still null and [blocks] is meaningless. *)
Record allocator : Type := Allocator {
  head_init_done : bool;
  heap_prealloc_done : bool;
  blocks : list block_meta;
  os : kernel
}.

(** A call either returns, or ends the process through [DIE], or accesses
    memory that is not the allocator's: it walks through a null link, or
    copies past the end of a block. *)
Inductive outcome (A : Type) : Type :=
| Returns (a : A) (s : allocator)
| Dies
| Faults.
Arguments Returns {A} a s.
Arguments Dies {A}.
Arguments Faults {A}.

Definition op (A : Type) : Type := allocator -> outcome A.

Definition op_ret {A : Type} (a : A) : op A := fun s => Returns a s.

Definition op_bind {A B : Type} (m : op A) (k : A -> op B) : op B :=
  fun s =>
    match m s with
    | Returns a s' => k a s'
    | Dies => Dies
    | Faults => Faults
    end.

#[global] Instance Monad_op : Monad op :=
  {| ret := @op_ret; bind := @op_bind |}.

Definition get_blocks : op (list block_meta) := fun s => Returns (blocks s) s.

Definition put_blocks (l : list block_meta) : op unit :=
  fun s => Returns tt (Allocator (head_init_done s) (heap_prealloc_done s) l (os s)).

Definition NULL : Z := 0.

(** ** List primitives *)

Definition lookup (a : Z) (l : list block_meta) : option block_meta :=
  find (fun b => addr b =? a) l.

(** [block->size = v] *)
Definition set_size (a v : Z) (l : list block_meta) : list block_meta :=
  map (fun b => if addr b =? a then with_size v b else b) l.

(** [block->status = st] *)
Definition set_status (a : Z) (st : blk_status) (l : list block_meta) : list block_meta :=
  map (fun b => if addr b =? a then with_status st b else b) l.

Definition list_add_last (block : block_meta) (l : list block_meta) : list block_meta :=
  l ++ [block].

Definition list_remove_block (block : Z) (l : list block_meta) : list block_meta :=
  filter (fun b => negb (addr b =? block)) l.

(** Linking [new_block] between [block] and [block->next]. *)
Fixpoint link_after (block : Z) (new_block : block_meta) (l : list block_meta)
  : list block_meta :=
  match l with
  | [] => []
  | b :: rest =>
      if addr b =? block then b :: new_block :: rest
      else b :: link_after block new_block rest
  end.

(** The nodes reached from [block->next] up to the sentinel. *)
Fixpoint successors (block : Z) (l : list block_meta) : list block_meta :=
  match l with
  | [] => []
  | b :: rest => if addr b =? block then rest else successors block rest
  end.

Section Allocator.

Variable P : platform.
Local Abbreviation META := (META_BLOCK_SIZE P).

Definition head_init : op unit :=
  fun s => Returns tt (Allocator true (heap_prealloc_done s) [] (os s)).

(** ** System calls *)

Definition sbrk (increment : Z) : op (option Z) :=
  fun s =>
    let k := os s in
    if sbrk_refused P k increment then
      Returns None
        (Allocator (head_init_done s) (heap_prealloc_done s) (blocks s)
           (Kernel (brk k) (Sbrk increment :: calls k)))
    else
      Returns (Some (brk k))
        (Allocator (head_init_done s) (heap_prealloc_done s) (blocks s)
           (Kernel (brk k + increment) (Sbrk increment :: calls k))).

Definition mmap (length : Z) : op (option Z) :=
  fun s =>
    let k := os s in
    Returns (mmap_answer P k length)
      (Allocator (head_init_done s) (heap_prealloc_done s) (blocks s)
         (Kernel (brk k) (Mmap length :: calls k))).

(** [munmap] followed by [DIE(munmap_ret_val == -1, ...)]. *)
Definition munmap_or_die (base length : Z) : op unit :=
  fun s =>
    let k := os s in
    if munmap_refused P k base length then Dies
    else
      Returns tt
        (Allocator (head_init_done s) (heap_prealloc_done s) (blocks s)
           (Kernel (brk k) (Munmap base length :: calls k))).

(** ** Helpers of the final version *)

Definition map_block_in_mem (sz : Z) : op (option Z) :=
  let requested_size := wrap (META + sz) in
  r <- mmap requested_size ;;
  match r with
  | None => ret None
  | Some block =>
      l <- get_blocks ;;
      put_blocks (list_add_last (Block block sz STATUS_MAPPED) l) ;;
      ret (Some block)
  end.

Definition set_heap_prealloc_done : op unit :=
  fun s => Returns tt (Allocator (head_init_done s) true (blocks s) (os s)).

Definition prealloc_heap_attempt : op bool :=
  fun s =>
    if heap_prealloc_done s then Returns true s
    else
      (r <- sbrk HEAP_PREALLOC_SIZE ;;
       match r with
       | None => ret false
       | Some request_block =>
           l <- get_blocks ;;
           put_blocks
             (list_add_last
                (Block request_block (wrap (HEAP_PREALLOC_SIZE - META)) STATUS_FREE) l) ;;
           set_heap_prealloc_done ;;
           ret true
       end) s.

(** One turn of the loop of [find_best_block]. *)
Definition best_fit_step (sz : Z) (best_fit : option block_meta) (iterator : block_meta)
  : option block_meta :=
  if status_eqb (status iterator) STATUS_FREE && (ALIGN sz <=? size iterator) then
    match best_fit with
    | None => Some iterator
    | Some bf => if size iterator <? size bf then Some iterator else best_fit
    end
  else best_fit.

Fixpoint find_best_loop (sz : Z) (best_fit : option block_meta) (l : list block_meta)
  : option block_meta :=
  match l with
  | [] => best_fit
  | iterator :: rest => find_best_loop sz (best_fit_step sz best_fit iterator) rest
  end.

Definition find_best_block (sz : Z) (l : list block_meta) : option block_meta :=
  find_best_loop sz None l.

Definition split_block_attempt (block : Z) (sz : Z) (l : list block_meta)
  : list block_meta :=
  match lookup block l with
  | None => l
  | Some b =>
      if size b =? ALIGN sz then l
      else
        let minimum_occupied_size := wrap (wrap (ALIGN sz + META) + 1) in
        if size b <=? minimum_occupied_size then l
        else
          let new_block :=
            Block (addr b + META + ALIGN sz)
                  (wrap (wrap (size b - ALIGN sz) - META))
                  STATUS_FREE in
          link_after block new_block (set_size block (ALIGN sz) l)
  end.

Fixpoint last_on_heap_from (backwards : list block_meta) : option block_meta :=
  match backwards with
  | [] => None
  | iterator :: rest =>
      if status_eqb (status iterator) STATUS_MAPPED then last_on_heap_from rest
      else Some iterator
  end.

Definition get_last_on_heap (l : list block_meta) : option block_meta :=
  last_on_heap_from (rev l).

Definition expand_last_block (sz : Z) : op (option Z) :=
  l <- get_blocks ;;
  match get_last_on_heap l with
  | None => ret None
  | Some last_block =>
      let additional_needed_size := wrap (sz - size last_block) in
      heap_end <- sbrk (as_signed additional_needed_size) ;;
      match heap_end with
      | None => ret None
      | Some _ =>
          l' <- get_blocks ;;
          put_blocks
            (set_size (addr last_block)
               (wrap (size last_block + additional_needed_size)) l') ;;
          ret (Some (addr last_block))
      end
  end.

Definition coalesce_blocks (block1 block2 : Z) (l : list block_meta) : list block_meta :=
  match lookup block1 l, lookup block2 l with
  | Some b1, Some b2 =>
      list_remove_block block2
        (set_size block1 (wrap (size b1 + wrap (META + size b2))) l)
  | _, _ => l
  end.

(** The loop of [coalesce_attempt]: [todo] are the nodes the iterator has
    still to visit, [l] is the list as modified so far. *)
Fixpoint coalesce_walk (todo : list block_meta) (to_coalesce1 : option Z)
  (l : list block_meta) : list block_meta :=
  match todo with
  | [] => l
  | iterator :: rest =>
      match status iterator with
      | STATUS_ALLOC => coalesce_walk rest None l
      | STATUS_MAPPED => coalesce_walk rest to_coalesce1 l
      | STATUS_FREE =>
          match to_coalesce1 with
          | None => coalesce_walk rest (Some (addr iterator)) l
          | Some c1 => coalesce_walk rest to_coalesce1 (coalesce_blocks c1 (addr iterator) l)
          end
      end
  end.

Definition coalesce_attempt (l : list block_meta) : list block_meta :=
  coalesce_walk l None l.

Definition search_in (ptr : Z) (l : list block_meta) : option block_meta :=
  find (fun iterator => addr iterator + META =? ptr) l.

(** The walk starts at [head.next], which is null until [head_init] has
    run.  The loop is then entered with a null iterator: its would-be
    payload address is compared with [ptr] first, and unless they happen
    to be equal the [next] field of the null descriptor is read. *)
Definition search_block_in_list (ptr : Z) : op (option block_meta) :=
  fun s =>
    if head_init_done s then Returns (search_in ptr (blocks s)) s
    else if NULL + META =? ptr then Returns None s
    else Faults.

Definition coalesce_pass : op unit :=
  l <- get_blocks ;;
  put_blocks (coalesce_attempt l).

Definition get_free_heap_block (sz : Z) : op (option Z) :=
  ok <- prealloc_heap_attempt ;;
  if negb ok then ret None
  else
    coalesce_pass ;;
    l <- get_blocks ;;
    match find_best_block (ALIGN sz) l with
    | Some best_block =>
        put_blocks (split_block_attempt (addr best_block) (ALIGN sz) l) ;;
        ret (Some (addr best_block))
    | None =>
        let last_is_free :=
          match get_last_on_heap l with
          | Some last_on_heap => status_eqb (status last_on_heap) STATUS_FREE
          | None => false
          end in
        if last_is_free then expand_last_block (ALIGN sz)
        else
          request_block <- sbrk (as_signed (wrap (META + ALIGN sz))) ;;
          match request_block with
          | None => ret None
          | Some new_block =>
              (* [new_block->status] is not written here *)
              l' <- get_blocks ;;
              put_blocks (list_add_last (Block new_block (ALIGN sz) (stale_status P)) l') ;;
              ret (Some new_block)
          end
    end.

Definition ensure_head : op unit :=
  fun s => if head_init_done s then Returns tt s else head_init s.

(** [block->status = st] on the live list. *)
Definition mark (block : Z) (st : blk_status) : op unit :=
  l <- get_blocks ;;
  put_blocks (set_status block st l).

(** ** The four entry points *)

Definition os_malloc (sz : Z) : op Z :=
  if sz <=? 0 then ret NULL
  else
    ensure_head ;;
    let aligned_size := ALIGN sz in
    if wrap (aligned_size + META) <? MMAP_THRESHOLD then
      heap_block <- get_free_heap_block aligned_size ;;
      match heap_block with
      | None => ret NULL
      | Some hb => mark hb STATUS_ALLOC ;; ret (hb + META)
      end
    else
      block <- map_block_in_mem aligned_size ;;
      match block with
      | None => ret NULL
      | Some b => ret (b + META)
      end.

Definition delete_mapped_block (block : Z) : op unit :=
  l <- get_blocks ;;
  match lookup block l with
  | None => ret tt
  | Some b =>
      if negb (status_eqb (status b) STATUS_MAPPED) then ret tt
      else
        put_blocks (list_remove_block block l) ;;
        munmap_or_die block (wrap (size b + META))
  end.

Definition os_free (ptr : Z) : op unit :=
  if ptr =? NULL then ret tt
  else
    found <- search_block_in_list ptr ;;
    match found with
    | None => ret tt
    | Some block =>
        match status block with
        | STATUS_FREE => ret tt
        | STATUS_MAPPED => delete_mapped_block (addr block)
        | STATUS_ALLOC => mark (addr block) STATUS_FREE
        end
    end.

Definition os_calloc (nmemb sz : Z) : op Z :=
  if (nmemb =? 0) || (sz =? 0) then ret NULL
  else
    ensure_head ;;
    let aligned_size := ALIGN (wrap (sz * nmemb)) in
    if (aligned_size <? sz) || (aligned_size <? nmemb) then ret NULL
    else if as_signed (wrap (aligned_size + META)) <? getpagesize P then
      heap_block <- get_free_heap_block aligned_size ;;
      match heap_block with
      | None => ret NULL
      | Some hb => mark hb STATUS_ALLOC ;; ret (hb + META)
      end
    else
      block <- map_block_in_mem aligned_size ;;
      match block with
      | None => ret NULL
      | Some b => ret (b + META)
      end.

(** [block->size], read from the list. *)
Definition size_at (block : Z) (l : list block_meta) : Z :=
  match lookup block l with
  | Some b => size b
  | None => 0
  end.

(** [memmove] between payloads.  Nothing of the modelled state moves, but
    the [n] bytes have to lie inside both payloads: a copy that runs past
    the end of a block reads or writes memory the block does not own
    (past the end of a mapping, pages that need not be mapped). *)
Definition copy_block (dest src n : Z) : op unit :=
  fun s =>
    if (n <=? size_at dest (blocks s)) && (n <=? size_at src (blocks s))
    then Returns tt s
    else Faults.

Definition shrink_realloc (block : block_meta) (sz : Z) : op Z :=
  if status_eqb (status block) STATUS_MAPPED then
    if MMAP_THRESHOLD <=? sz then
      new_map_block <- map_block_in_mem sz ;;
      match new_map_block with
      | None => ret NULL
      | Some nb =>
          l <- get_blocks ;;
          copy_block nb (addr block) (size_at nb l) ;;
          delete_mapped_block (addr block) ;;
          ret (nb + META)
      end
    else
      heap_block <- get_free_heap_block sz ;;
      match heap_block with
      | None => ret NULL
      | Some hb =>
          mark hb STATUS_ALLOC ;;
          l <- get_blocks ;;
          copy_block hb (addr block) (size_at hb l) ;;
          delete_mapped_block (addr block) ;;
          ret (hb + META)
      end
  else
    l <- get_blocks ;;
    put_blocks (split_block_attempt (addr block) sz l) ;;
    ret (addr block + META).

(** The loop of [block_coalesce_to_size]. *)
Fixpoint coalesce_to_size_walk (todo : list block_meta) (block sz : Z)
  (l : list block_meta) : list block_meta :=
  match todo with
  | [] => l
  | iterator :: rest =>
      match status iterator with
      | STATUS_FREE =>
          let l' := coalesce_blocks block (addr iterator) l in
          match lookup block l' with
          | Some b =>
              if sz <=? size b then l' else coalesce_to_size_walk rest block sz l'
          | None => l'
          end
      | STATUS_MAPPED => coalesce_to_size_walk rest block sz l
      | STATUS_ALLOC => l
      end
  end.

Definition block_coalesce_to_size (block sz : Z) (l : list block_meta)
  : list block_meta :=
  coalesce_to_size_walk (successors block l) block sz l.

Definition is_block (block : Z) (o : option block_meta) : bool :=
  match o with
  | Some b => addr b =? block
  | None => false
  end.

Definition extend_realloc (block : block_meta) (sz : Z) : op Z :=
  if status_eqb (status block) STATUS_MAPPED then
    new_map_block <- map_block_in_mem sz ;;
    match new_map_block with
    | None => ret NULL
    | Some nb =>
        copy_block nb (addr block) (size block) ;;
        delete_mapped_block (addr block) ;;
        ret (nb + META)
    end
  else if MMAP_THRESHOLD <=? sz then
    new_map_block <- map_block_in_mem sz ;;
    match new_map_block with
    | None => ret NULL
    | Some nb =>
        copy_block nb (addr block) (size block) ;;
        mark (addr block) STATUS_FREE ;;
        ret (nb + META)
    end
  else
    l <- get_blocks ;;
    if is_block (addr block) (get_last_on_heap l) then
      expanded <- expand_last_block sz ;;
      match expanded with
      | None => ret NULL
      | Some b => ret (b + META)
      end
    else
      let original_block_size := size block in
      let l1 := block_coalesce_to_size (addr block) sz l in
      put_blocks l1 ;;
      let grown :=
        match lookup (addr block) l1 with
        | Some b => sz <=? size b
        | None => false
        end in
      if grown then
        put_blocks (split_block_attempt (addr block) sz l1) ;;
        ret (addr block + META)
      else
        heap_block <- get_free_heap_block sz ;;
        match heap_block with
        | None => ret NULL
        | Some hb =>
            mark hb STATUS_ALLOC ;;
            copy_block hb (addr block) original_block_size ;;
            mark (addr block) STATUS_FREE ;;
            ret (hb + META)
        end.

Definition os_realloc (ptr sz : Z) : op Z :=
  if ptr =? NULL then os_malloc sz
  else if sz =? 0 then os_free ptr ;; ret NULL
  else
    found <- search_block_in_list ptr ;;
    match found with
    | None => ret NULL
    | Some req_block =>
        if status_eqb (status req_block) STATUS_FREE then ret NULL
        else
          let aligned_size := ALIGN sz in
          if aligned_size =? size req_block then ret (addr req_block + META)
          else if size req_block <? aligned_size then extend_realloc req_block aligned_size
          else if aligned_size <? size req_block then shrink_realloc req_block aligned_size
          else ret NULL
    end.

End Allocator.

(** ** The earlier draft of the best-fit search ([src/osmem.c]) *)

Module Draft.

Fixpoint find_best_loop (sz : Z) (best_fit : option block_meta) (l : list block_meta)
  : option block_meta :=
  match l with
  | [] => best_fit
  | iterator :: rest =>
      if status_eqb (status iterator) STATUS_FREE && (sz <=? size iterator) then
        if size iterator =? sz then Some iterator
        else
          find_best_loop sz
            (match best_fit with
             | None => Some iterator
             | Some bf => if size iterator <? size bf then Some iterator else best_fit
             end) rest
      else find_best_loop sz best_fit rest
  end.

Definition find_best_block (sz : Z) (l : list block_meta) : option block_meta :=
  find_best_loop sz None l.

End Draft.

(** ** A concrete platform for running the model *)

(** An LP64 Linux: [sizeof(struct block_meta)] is 32, pages are 4 KiB, the
    kernel grants every request and places mappings far from the heap. *)
Definition linux64 : platform :=
  {| sizeof_block_meta := 32;
     getpagesize := 4096;
     sbrk_refused := fun _ _ => false;
     mmap_answer := fun k _ => Some (2 ^ 40 + 2 ^ 30 * Z.of_nat (List.length (calls k)));
     munmap_refused := fun _ _ _ => false;
     stale_status := STATUS_FREE |}.

(** The state of a process that has not called the allocator yet. *)
Definition fresh (brk0 : Z) : allocator :=
  Allocator false false [] (Kernel brk0 []).

(** ** The links themselves

    The list primitives above describe the circular list by the sequence
    of its nodes.  Here the [prev]/[next] fields are kept in a memory of
    their own and the pointer assignments of the source are written one
    by one; the lemmas on [Links.ring] show that they perform the
    operations on sequences used above. *)

Module Links.

Record links : Type := Links { prev : Z; next : Z }.

Definition memory : Type := Z -> links.

(** [a->prev = v] and [a->next = v] *)
Definition set_prev (a v : Z) (m : memory) : memory :=
  fun x => if x =? a then Links v (next (m x)) else m x.

Definition set_next (a v : Z) (m : memory) : memory :=
  fun x => if x =? a then Links (prev (m x)) v else m x.

Definition head_init (head : Z) (m : memory) : memory :=
  let m := set_prev head head m in
  set_next head head m.

Definition list_add_last (head block : Z) (m : memory) : memory :=
  let last := prev (m head) in
  let m := set_next last block m in
  let m := set_prev block last m in
  let m := set_next block head m in
  set_prev head block m.

Definition list_remove_block (block : Z) (m : memory) : memory :=
  let m := set_next (prev (m block)) (next (m block)) m in
  set_prev (next (m block)) (prev (m block)) m.

(** The four link assignments that end [split_block_attempt]. *)
Definition link_new_block (block new_block : Z) (m : memory) : memory :=
  let m := set_next new_block (next (m block)) m in
  let m := set_prev new_block block m in
  let m := set_prev (next (m block)) new_block m in
  set_next block new_block m.

(** Following [next] from [from] visits exactly [l] and then reaches [to],
    and [prev] leads back. *)
Fixpoint linked (m : memory) (from : Z) (l : list Z) (to : Z) : Prop :=
  match l with
  | [] => next (m from) = to /\ prev (m to) = from
  | a :: rest => next (m from) = a /\ prev (m a) = from /\ linked m a rest to
  end.

(** The circular list headed by the sentinel at [head] holds the nodes [l]. *)
Definition ring (m : memory) (head : Z) (l : list Z) : Prop :=
  NoDup (head :: l) /\ linked m head l head.

End Links.

(** ** Vocabulary of the statements *)

(** A candidate of the best-fit search for [a] bytes. *)
Definition fits (a : Z) (b : block_meta) : Prop :=
  status b = STATUS_FREE /\ a <= size b.

(** [best] is the earliest smallest candidate of [l], if there is one. *)
Definition best_of (a : Z) (l : list block_meta) (best : option block_meta) : Prop :=
  match best with
  | Some b =>
      exists i, nth_error l i = Some b /\ fits a b /\
        forall j c, nth_error l j = Some c -> fits a c ->
          size b <= size c /\ ((j < i)%nat -> size b < size c)
  | None => forall c, In c l -> ~ fits a c
  end.

(** No node of [l] lives at address [x]. *)
Definition away (x : Z) (l : list block_meta) : Prop :=
  Forall (fun c => addr c <> x) l.

(** What [head_init] leaves behind. *)
Definition after_head_init (s : allocator) : allocator :=
  Allocator true (heap_prealloc_done s) [] (os s).

(** The state once the sentinel is known to be initialised. *)
Definition with_head (s : allocator) : allocator :=
  if head_init_done s then s else after_head_init s.

(** Walking the heap-regime blocks in list order (mapped blocks are not on
    the heap and are stepped over), no free block follows a free block.
    [prev_free] tells whether the last heap block seen was free. *)
Fixpoint naf_from (prev_free : bool) (l : list block_meta) : bool :=
  match l with
  | [] => true
  | b :: rest =>
      match status b with
      | STATUS_MAPPED => naf_from prev_free rest
      | STATUS_ALLOC => naf_from false rest
      | STATUS_FREE => negb prev_free && naf_from true rest
      end
  end.

Definition no_adjacent_free (l : list block_meta) : bool := naf_from false l.

(** Whether the last heap block of [l] is free ([prev_free] if there is none). *)
Fixpoint ends_free (prev_free : bool) (l : list block_meta) : bool :=
  match l with
  | [] => prev_free
  | b :: rest =>
      match status b with
      | STATUS_MAPPED => ends_free prev_free rest
      | STATUS_ALLOC => ends_free false rest
      | STATUS_FREE => ends_free true rest
      end
  end.

(** States in which the heap-regime blocks can only have been made by this
    allocator: descriptors live at distinct addresses and, as long as the
    heap has not been pre-allocated, every block is a mapping and none
    sits at the program break. *)
Definition settled (s : allocator) : Prop :=
  NoDup (map addr (blocks s)) /\
  (heap_prealloc_done s = false ->
     Forall (fun b => status b = STATUS_MAPPED) (blocks s) /\
     away (brk (os s)) (blocks s)).

(** What the pass knows about the nodes it has left behind. *)
Definition anchored (pre : list block_meta) (to_coalesce1 : option Z) : Prop :=
  match to_coalesce1 with
  | None => naf_from false pre = true /\ ends_free false pre = false
  | Some c1 =>
      exists before anchor skipped,
        pre = before ++ anchor :: skipped
        /\ addr anchor = c1 /\ status anchor = STATUS_FREE
        /\ Forall (fun m => status m = STATUS_MAPPED) skipped
        /\ naf_from false before = true /\ ends_free false before = false
  end.


(** The part of [get_free_heap_block] that follows the pre-allocation. *)
Definition placement (P : platform) (sz : Z) : op (option Z) :=
  coalesce_pass P ;;
  l <- get_blocks ;;
  match find_best_block (ALIGN sz) l with
  | Some best_block =>
      put_blocks (split_block_attempt P (addr best_block) (ALIGN sz) l) ;;
      ret (Some (addr best_block))
  | None =>
      let last_is_free :=
        match get_last_on_heap l with
        | Some last_on_heap => status_eqb (status last_on_heap) STATUS_FREE
        | None => false
        end in
      if last_is_free then expand_last_block P (ALIGN sz)
      else
        request_block <- sbrk P (as_signed (wrap (META_BLOCK_SIZE P + ALIGN sz))) ;;
        match request_block with
        | None => ret None
        | Some new_block =>
            l' <- get_blocks ;;
            put_blocks (list_add_last (Block new_block (ALIGN sz) (stale_status P)) l') ;;
            ret (Some new_block)
        end
  end.

(** The list once the block handed out by the placement is marked. *)
Definition claimed (r : option Z) (l : list block_meta) : list block_meta :=
  match r with
  | Some hb => set_status hb STATUS_ALLOC l
  | None => l
  end.

(** A small list to run the statements on. *)
Definition sample_list : list block_meta :=
  [ Block 4096 64 STATUS_FREE; Block 4192 32 STATUS_ALLOC;
    Block 4256 16 STATUS_FREE; Block 4304 16 STATUS_FREE;
    Block 4352 8 STATUS_FREE ].

(** Descriptors of a literal list live at distinct addresses. *)
Ltac distinct_addresses :=
  repeat (constructor; [simpl; intuition discriminate |]); constructor.

(** The list primitives are reasoned about through their lemmas. *)
Arguments lookup : simpl never.
Arguments set_size : simpl never.
Arguments set_status : simpl never.
Arguments list_add_last : simpl never.
Arguments list_remove_block : simpl never.
Arguments search_in : simpl never.
Arguments find_best_block : simpl never.
Arguments split_block_attempt : simpl never.
Arguments get_last_on_heap : simpl never.
Arguments coalesce_attempt : simpl never.
Arguments placement : simpl never.
Arguments get_free_heap_block : simpl never.
Arguments expand_last_block : simpl never.
Arguments block_coalesce_to_size : simpl never.
Arguments ALIGN : simpl never.
Arguments wrap : simpl never.
Arguments as_signed : simpl never.

(** ** Vocabulary of the further statements *)

(** The bytes a list of blocks stands for: a descriptor and a payload each. *)
Fixpoint footprint (P : platform) (l : list block_meta) : Z :=
  match l with
  | [] => 0
  | b :: rest => META_BLOCK_SIZE P + size b + footprint P rest
  end.

(** The heap-regime blocks of a list, in list order. *)
Definition heap_blocks (l : list block_meta) : list block_meta :=
  filter (fun b => negb (status_eqb (status b) STATUS_MAPPED)) l.

(** The blocks that are in use, in list order. *)
Definition live_blocks (l : list block_meta) : list block_meta :=
  filter (fun b => negb (status_eqb (status b) STATUS_FREE)) l.

(** The blocks lie one after the other in memory, the first at [start]. *)
Fixpoint laid_out (P : platform) (start : Z) (l : list block_meta) : Prop :=
  match l with
  | [] => True
  | b :: rest => addr b = start /\ laid_out P (addr b + META_BLOCK_SIZE P + size b) rest
  end.

(** Where such a run of blocks ends. *)
Fixpoint end_of (P : platform) (start : Z) (l : list block_meta) : Z :=
  match l with
  | [] => start
  | b :: rest => end_of P (addr b + META_BLOCK_SIZE P + size b) rest
  end.

Definition sizes_nonneg (l : list block_meta) : Prop :=
  Forall (fun b => 0 <= size b) l.

(** ** The first-fit search of the first draft ([src/osmem.c]) *)

Module FirstDraft.

Fixpoint find_free_block (sz : Z) (l : list block_meta) : option block_meta :=
  match l with
  | [] => None
  | iterator :: rest =>
      if status_eqb (status iterator) STATUS_FREE && (sz <=? size iterator)
      then Some iterator
      else find_free_block sz rest
  end.

End FirstDraft.

(** The descriptor at [hb], once marked allocated, is the one found for
    the payload pointer [hb + META], and holds at least [a] bytes. *)
Definition owned (P : platform) (a hb : Z) (l : list block_meta) : Prop :=
  exists b,
    search_in P (hb + META_BLOCK_SIZE P) (set_status hb STATUS_ALLOC l) = Some b
    /\ addr b = hb /\ status b = STATUS_ALLOC /\ a <= size b.

(** A system call that does not ask for a lower program break. *)
Definition sbrk_upward (c : syscall) : Prop :=
  match c with
  | Sbrk increment => 0 <= increment
  | _ => True
  end.

(** From [s] to [s'] the program break has not come down, and the system
    calls made in between never asked for it. *)
Definition break_kept (s s' : allocator) : Prop :=
  brk (os s) <= brk (os s')
  /\ exists new, calls (os s') = new ++ calls (os s) /\ Forall sbrk_upward new.

(** The blocks of the list tile the break area: descriptors live at
    distinct addresses, the heap blocks lie one after the other from
    [start] up to [top], and every mapping lies above [limit]. *)
Definition tiles (P : platform) (start limit top : Z) (l : list block_meta) : Prop :=
  NoDup (map addr l)
  /\ sizes_nonneg l
  /\ laid_out P start (heap_blocks l)
  /\ end_of P start (heap_blocks l) = top
  /\ Forall (fun b => status b = STATUS_MAPPED -> limit < addr b) l.

(** The state of an allocator that owns the break area from [start] on:
    its heap blocks tile it up to the program break, which has not passed
    [limit], and the list is empty as long as the sentinel is not
    initialised. *)
Definition tiled (P : platform) (start limit : Z) (s : allocator) : Prop :=
  0 < start
  /\ brk (os s) <= limit < 2 ^ 63
  /\ (head_init_done s = false -> blocks s = [])
  /\ tiles P start limit (brk (os s)) (blocks s).

(** What a caller of [os_realloc] can find in the list afterwards.  The
    pointer [r] is the payload of a block in use that holds [a] bytes. *)
Definition in_use_at (P : platform) (a r : Z) (l : list block_meta) : Prop :=
  exists b, search_in P r l = Some b
    /\ r = addr b + META_BLOCK_SIZE P /\ status b <> STATUS_FREE /\ a <= size b.

(** The pointer [p] designates no block any more, or a free one. *)
Definition released (P : platform) (p : Z) (l : list block_meta) : Prop :=
  search_in P p l = None
  \/ exists b, search_in P p l = Some b /\ status b = STATUS_FREE.

(** The block [req] is still in use where it was, and has not shrunk. *)
Definition held (P : platform) (req : block_meta) (l : list block_meta) : Prop :=
  exists b, search_in P (addr req + META_BLOCK_SIZE P) l = Some b
    /\ addr b = addr req /\ status b = status req /\ size req <= size b.

(** The two ways [os_realloc] of the block [req] to [a] bytes can end:
    with null and the block kept, or with a block in use of [a] bytes
    that is [req]'s own or replaces it. *)
Definition realloc_outcome (P : platform) (req : block_meta) (a r : Z)
  (l : list block_meta) : Prop :=
  (r = NULL /\ held P req l)
  \/ (in_use_at P a r l
      /\ (r = addr req + META_BLOCK_SIZE P \/ released P (addr req + META_BLOCK_SIZE P) l)).

(** A heap of two blocks and one mapping, and a ring of three nodes, to
    run the statements on. *)
Definition sample_state : allocator :=
  Allocator true true
    [ Block 4096 64 STATUS_ALLOC; Block 1099511627776 200000 STATUS_MAPPED;
      Block 4192 130944 STATUS_FREE ]
    (Kernel 135168 [Mmap 200032; Sbrk 131072]).

Definition sample_ring : Links.memory :=
  fold_left (fun m b => Links.list_add_last 1000 b m) [4096; 4192; 4256]
    (Links.head_init 1000 (fun _ => Links.Links 0 0)).

(** The kernel of [linux64] places a new mapping above the limit, away
    from the descriptors of a literal list. *)
Ltac kernel_places_above :=
  let x := fresh "x" in
  let Hx := fresh "Hx" in
  intros x Hx; vm_compute in Hx; inversion Hx; subst x;
  split; [reflexivity | repeat (constructor; [simpl; discriminate |]); constructor].

(** [tiled] on a literal state. *)
Ltac literal_tiled :=
  unfold tiled, tiles, sizes_nonneg; cbn;
  repeat split; try lia; try discriminate; try reflexivity;
  try distinct_addresses;
  repeat (constructor; [cbn; first [lia | discriminate | intros; lia] |]);
  try constructor.
(** * Arithmetic *)

Lemma wrap_range x : 0 <= wrap x < 2 ^ 64.
Proof. unfold wrap. apply Z.mod_pos_bound. lia. Qed.

Lemma wrap_small x : 0 <= x < 2 ^ 64 -> wrap x = x.
Proof. intros H. unfold wrap. apply Z.mod_small. exact H. Qed.

Lemma land_mask8 y : 0 <= y < 2 ^ 64 -> Z.land y (wrap (Z.lnot 7)) = 8 * (y / 8).
Proof.
  intros Hy.
  replace (wrap (Z.lnot 7)) with (Z.land (Z.lnot 7) (Z.ones 64))
    by (rewrite Z.land_ones by lia; reflexivity).
  rewrite Z.land_assoc, (Z.land_comm y), <- Z.land_assoc.
  rewrite (Z.land_ones y 64) by lia.
  rewrite (Z.mod_small y) by exact Hy.
  rewrite Z.land_comm, <- Z.ldiff_land.
  change 7 with (Z.ones 3).
  rewrite Z.ldiff_ones_r by lia.
  rewrite Z.shiftl_mul_pow2, Z.shiftr_div_pow2 by lia.
  change (2 ^ 3) with 8. lia.
Qed.

Lemma ALIGN_eq x : ALIGN x = 8 * (wrap (x + 7) / 8).
Proof.
  unfold ALIGN, ALIGNMENT. change (8 - 1) with 7.
  apply land_mask8, wrap_range.
Qed.

Lemma ALIGN_range x : 0 <= ALIGN x < 2 ^ 64.
Proof.
  rewrite ALIGN_eq. pose proof (wrap_range (x + 7)) as H.
  pose proof (Z.mul_div_le (wrap (x + 7)) 8 ltac:(lia)).
  pose proof (Z.div_pos (wrap (x + 7)) 8 ltac:(lia) ltac:(lia)). lia.
Qed.

Lemma ALIGN_mod8 x : ALIGN x mod 8 = 0.
Proof.
  rewrite ALIGN_eq, Z.mul_comm. apply Z.mod_mul. lia.
Qed.

Lemma ALIGN_aligned a : 0 <= a < 2 ^ 64 -> a mod 8 = 0 -> ALIGN a = a.
Proof.
  intros Ha Hm. rewrite ALIGN_eq.
  pose proof (Z.div_mod a 8 ltac:(lia)) as Hd. rewrite Hm in Hd.
  assert (Hq : 0 <= a / 8) by (apply Z.div_pos; lia).
  assert (Hlt : a + 7 < 2 ^ 64).
  { assert (a / 8 < 2 ^ 61) by (apply Z.div_lt_upper_bound; lia).
    change (2 ^ 64) with (8 * 2 ^ 61). lia. }
  rewrite wrap_small by lia.
  replace (a + 7) with (a / 8 * 8 + 7) by lia.
  rewrite Z.div_add_l by lia. change (7 / 8) with 0. lia.
Qed.

Lemma ALIGN_idem x : ALIGN (ALIGN x) = ALIGN x.
Proof. apply ALIGN_aligned; [apply ALIGN_range | apply ALIGN_mod8]. Qed.

Lemma status_eqb_eq a b : status_eqb a b = true <-> a = b.
Proof. destruct a, b; simpl; split; congruence. Qed.

(** * Best fit *)

Section BestFit.

Variable a : Z.
Hypothesis a_range : 0 <= a < 2 ^ 64.
Hypothesis a_aligned : a mod 8 = 0.

Lemma best_fit_step_fits best it :
  best_fit_step a best it =
    if status_eqb (status it) STATUS_FREE && (a <=? size it) then
      match best with
      | None => Some it
      | Some bf => if size it <? size bf then Some it else best
      end
    else best.
Proof. unfold best_fit_step. rewrite ALIGN_aligned by assumption. reflexivity. Qed.

Lemma fits_test it :
  status_eqb (status it) STATUS_FREE && (a <=? size it) = true <-> fits a it.
Proof.
  unfold fits. rewrite andb_true_iff, status_eqb_eq, Z.leb_le. tauto.
Qed.

Lemma best_of_snoc pre best it :
  best_of a pre best -> best_of a (pre ++ [it]) (best_fit_step a best it).
Proof.
  intros Hb. rewrite best_fit_step_fits.
  destruct (status_eqb (status it) STATUS_FREE && (a <=? size it)) eqn:Et.
  - apply fits_test in Et.
    assert (Hlast : nth_error (pre ++ [it]) (length pre) = Some it).
    { rewrite nth_error_app2 by lia. rewrite Nat.sub_diag. reflexivity. }
    assert (Hidx : forall j c, nth_error (pre ++ [it]) j = Some c ->
               (j < length pre)%nat /\ nth_error pre j = Some c
               \/ j = length pre /\ c = it).
    { intros j c Hj. destruct (Nat.lt_ge_cases j (length pre)) as [Hlt | Hge].
      - left. rewrite nth_error_app1 in Hj by exact Hlt. auto.
      - right. rewrite nth_error_app2 in Hj by exact Hge.
        destruct (j - length pre)%nat eqn:Ed; simpl in Hj.
        + split; [lia | congruence].
        + destruct n; discriminate. }
    destruct best as [bf |]; simpl in Hb.
    + destruct Hb as (i & Hi & Hf & Hmin).
      assert (Hilt : (i < length pre)%nat)
        by (apply nth_error_Some; congruence).
      destruct (size it <? size bf) eqn:El.
      * apply Z.ltb_lt in El. exists (length pre). split; [exact Hlast |].
        split; [exact Et |]. intros j c Hj Hc.
        destruct (Hidx j c Hj) as [[Hlt Hp] | [-> ->]].
        -- destruct (Hmin j c Hp Hc) as [Hle _]. lia.
        -- lia.
      * apply Z.ltb_ge in El. exists i. split.
        { rewrite nth_error_app1 by exact Hilt. exact Hi. }
        split; [exact Hf |]. intros j c Hj Hc.
        destruct (Hidx j c Hj) as [[Hlt Hp] | [-> ->]].
        -- apply (Hmin j c Hp Hc).
        -- lia.
    + exists (length pre). split; [exact Hlast |]. split; [exact Et |].
      intros j c Hj Hc.
      destruct (Hidx j c Hj) as [[Hlt Hp] | [-> ->]].
      * exfalso. apply (Hb c); [eapply nth_error_In; eassumption | exact Hc].
      * lia.
  - assert (Hn : ~ fits a it) by (rewrite <- fits_test; congruence).
    destruct best as [bf |]; simpl in *.
    + destruct Hb as (i & Hi & Hf & Hmin).
      assert (Hilt : (i < length pre)%nat)
        by (apply nth_error_Some; congruence).
      exists i. split.
      { rewrite nth_error_app1 by exact Hilt. exact Hi. }
      split; [exact Hf |]. intros j c Hj Hc.
      destruct (Nat.lt_ge_cases j (length pre)) as [Hlt | Hge].
      * rewrite nth_error_app1 in Hj by exact Hlt. apply (Hmin j c Hj Hc).
      * rewrite nth_error_app2 in Hj by exact Hge.
        destruct (j - length pre)%nat as [| n]; simpl in Hj.
        -- exfalso. apply Hn. congruence.
        -- destruct n; discriminate.
    + intros c Hin. apply in_app_or in Hin. destruct Hin as [Hin | [<- | []]].
      * apply Hb, Hin.
      * exact Hn.
Qed.

Lemma find_best_loop_best_of rest : forall pre best,
  best_of a pre best -> best_of a (pre ++ rest) (find_best_loop a best rest).
Proof.
  induction rest as [| it rest IH]; intros pre best Hb; simpl.
  - rewrite app_nil_r. exact Hb.
  - replace (pre ++ it :: rest) with ((pre ++ [it]) ++ rest)
      by (rewrite <- app_assoc; reflexivity).
    apply IH, best_of_snoc, Hb.
Qed.

End BestFit.

Lemma find_best_block_best_of (a : Z) (l : list block_meta) :
  0 <= a < 2 ^ 64 -> a mod 8 = 0 -> best_of a l (find_best_block a l).
Proof.
  intros Hr Ha.
  apply (find_best_loop_best_of a Hr Ha l [] None).
  simpl. intros c [].
Qed.

(** C2. For every list and every aligned request size [a], the best-fit
    search returns, among the free blocks of size at least [a], the one
    of smallest size, the earliest of them in list order when several
    have that size; it returns none exactly when no free block is large
    enough. *)
Theorem find_best_block_is_best_fit (a : Z) (l : list block_meta) :
  0 <= a < 2 ^ 64 -> a mod 8 = 0 ->
  match find_best_block a l with
  | Some b =>
      exists i, nth_error l i = Some b /\ status b = STATUS_FREE /\ a <= size b /\
        forall j c, nth_error l j = Some c -> status c = STATUS_FREE -> a <= size c ->
          size b <= size c /\ ((j < i)%nat -> size b < size c)
  | None => forall c, In c l -> status c = STATUS_FREE -> size c < a
  end.
Proof.
  intros Hr Ha. pose proof (find_best_block_best_of a l Hr Ha) as H.
  destruct (find_best_block a l) as [b |]; simpl in H.
  - destruct H as (i & Hi & [Hs Hle] & Hmin).
    exists i. repeat split; try assumption.
    + apply (Hmin j c); [assumption | split; assumption].
    + apply (Hmin j c); [assumption | split; assumption].
  - intros c Hin Hs. destruct (Z.lt_ge_cases (size c) a) as [Hlt | Hge]; [exact Hlt |].
    exfalso. apply (H c Hin). split; assumption.
Qed.
Section DraftVersusFinal.

Variable a : Z.
Hypothesis a_range : 0 <= a < 2 ^ 64.
Hypothesis a_aligned : a mod 8 = 0.

Lemma exact_fit_is_kept rest : forall it,
  size it = a -> find_best_loop a (Some it) rest = Some it.
Proof.
  induction rest as [| c rest IH]; intros it Hit; simpl; [reflexivity |].
  rewrite best_fit_step_fits by assumption.
  destruct (status_eqb (status c) STATUS_FREE && (a <=? size c)) eqn:Et.
  - apply andb_true_iff in Et. destruct Et as [_ Hle]. apply Z.leb_le in Hle.
    destruct (size c <? size it) eqn:El; [apply Z.ltb_lt in El; lia |].
    apply IH, Hit.
  - apply IH, Hit.
Qed.

Lemma draft_loop_agrees l : forall best,
  (forall bf, best = Some bf -> a < size bf) ->
  Draft.find_best_loop a best l = find_best_loop a best l.
Proof.
  induction l as [| it rest IH]; intros best Hbest; simpl; [reflexivity |].
  rewrite best_fit_step_fits by assumption.
  destruct (status_eqb (status it) STATUS_FREE && (a <=? size it)) eqn:Et.
  - apply andb_true_iff in Et. destruct Et as [_ Hle]. apply Z.leb_le in Hle.
    destruct (size it =? a) eqn:Ee.
    + apply Z.eqb_eq in Ee. symmetry.
      destruct best as [bf |].
      * specialize (Hbest bf eq_refl).
        destruct (size it <? size bf) eqn:El; [| apply Z.ltb_ge in El; lia].
        apply exact_fit_is_kept, Ee.
      * apply exact_fit_is_kept, Ee.
    + apply Z.eqb_neq in Ee. apply IH. intros bf Hbf.
      destruct best as [bf0 |].
      * destruct (size it <? size bf0); inversion Hbf; subst.
        -- lia.
        -- apply Hbest. reflexivity.
      * inversion Hbf; subst. lia.
  - apply IH, Hbest.
Qed.

End DraftVersusFinal.

(** C9. For every list and every request size that is a multiple of 8,
    the draft search, which returns at once on a block of exactly the
    requested size, and the final search, which scans the whole list and
    keeps the first strictly smallest free candidate, return the same
    block, or both none. *)
Theorem draft_find_best_block_agrees (a : Z) (l : list block_meta) :
  0 <= a < 2 ^ 64 -> a mod 8 = 0 ->
  Draft.find_best_block a l = find_best_block a l.
Proof.
  intros Hr Ha. unfold Draft.find_best_block, find_best_block.
  apply draft_loop_agrees; try assumption. intros bf Hbf. discriminate.
Qed.
(** * Nodes addressed inside a list *)

Lemma META_range P : 0 <= META_BLOCK_SIZE P < 2 ^ 64.
Proof. apply ALIGN_range. Qed.

Lemma META_mod8 P : META_BLOCK_SIZE P mod 8 = 0.
Proof. apply ALIGN_mod8. Qed.

Lemma away_app x l1 l2 : away x (l1 ++ l2) <-> away x l1 /\ away x l2.
Proof. apply Forall_app. Qed.

Lemma away_not_in x l : away x l <-> ~ In x (map addr l).
Proof.
  unfold away. rewrite Forall_forall, in_map_iff. split.
  - intros H (c & Hc & Hin). apply (H c Hin Hc).
  - intros H c Hin Hc. apply H. exists c. auto.
Qed.

Lemma NoDup_mid l1 b l2 :
  NoDup (map addr (l1 ++ b :: l2)) ->
  away (addr b) l1 /\ away (addr b) l2 /\ NoDup (map addr (l1 ++ l2)).
Proof.
  rewrite !map_app. simpl. intros H.
  pose proof (NoDup_remove_1 _ _ _ H) as H1.
  pose proof (NoDup_remove_2 _ _ _ H) as H2.
  rewrite <- map_app in H2. apply away_not_in in H2. apply away_app in H2.
  tauto.
Qed.

Lemma lookup_mid x l1 b l2 :
  away x l1 -> addr b = x -> lookup x (l1 ++ b :: l2) = Some b.
Proof.
  unfold lookup. intros Ha Hb. induction Ha as [| c l1 Hc _ IH]; simpl.
  - apply Z.eqb_eq in Hb. rewrite Hb. reflexivity.
  - apply Z.eqb_neq in Hc. rewrite Hc. exact IH.
Qed.

Lemma lookup_away x l : away x l -> lookup x l = None.
Proof.
  unfold lookup. intros Ha. induction Ha as [| c l Hc _ IH]; simpl; [reflexivity |].
  apply Z.eqb_neq in Hc. rewrite Hc. exact IH.
Qed.

Lemma set_size_away x v l : away x l -> set_size x v l = l.
Proof.
  unfold set_size. intros Ha. induction Ha as [| c l Hc _ IH]; simpl; [reflexivity |].
  apply Z.eqb_neq in Hc. rewrite Hc, IH. reflexivity.
Qed.

Lemma set_size_mid x v l1 b l2 :
  away x l1 -> away x l2 -> addr b = x ->
  set_size x v (l1 ++ b :: l2) = l1 ++ with_size v b :: l2.
Proof.
  intros H1 H2 Hb. unfold set_size. rewrite map_app. simpl.
  fold (set_size x v l1). fold (set_size x v l2).
  rewrite !set_size_away by assumption.
  apply Z.eqb_eq in Hb. rewrite Hb. reflexivity.
Qed.

Lemma set_status_away x st l : away x l -> set_status x st l = l.
Proof.
  unfold set_status. intros Ha. induction Ha as [| c l Hc _ IH]; simpl; [reflexivity |].
  apply Z.eqb_neq in Hc. rewrite Hc, IH. reflexivity.
Qed.

Lemma set_status_mid x st l1 b l2 :
  away x l1 -> away x l2 -> addr b = x ->
  set_status x st (l1 ++ b :: l2) = l1 ++ with_status st b :: l2.
Proof.
  intros H1 H2 Hb. unfold set_status. rewrite map_app. simpl.
  fold (set_status x st l1). fold (set_status x st l2).
  rewrite !set_status_away by assumption.
  apply Z.eqb_eq in Hb. rewrite Hb. reflexivity.
Qed.

Lemma link_after_mid x nb l1 b l2 :
  away x l1 -> addr b = x ->
  link_after x nb (l1 ++ b :: l2) = l1 ++ b :: nb :: l2.
Proof.
  intros Ha Hb. induction Ha as [| c l1 Hc _ IH]; simpl.
  - apply Z.eqb_eq in Hb. rewrite Hb. reflexivity.
  - apply Z.eqb_neq in Hc. rewrite Hc, IH. reflexivity.
Qed.

Lemma remove_away x l : away x l -> list_remove_block x l = l.
Proof.
  unfold list_remove_block. intros Ha.
  induction Ha as [| c l Hc _ IH]; simpl; [reflexivity |].
  apply Z.eqb_neq in Hc. rewrite Hc. simpl. rewrite IH. reflexivity.
Qed.

Lemma remove_mid x l1 b l2 :
  away x l1 -> away x l2 -> addr b = x ->
  list_remove_block x (l1 ++ b :: l2) = l1 ++ l2.
Proof.
  intros H1 H2 Hb. unfold list_remove_block. rewrite filter_app. simpl.
  fold (list_remove_block x l1). fold (list_remove_block x l2).
  rewrite !remove_away by assumption.
  apply Z.eqb_eq in Hb. rewrite Hb. reflexivity.
Qed.

Lemma successors_mid x l1 b l2 :
  away x l1 -> addr b = x -> successors x (l1 ++ b :: l2) = l2.
Proof.
  intros Ha Hb. induction Ha as [| c l1 Hc _ IH]; simpl.
  - apply Z.eqb_eq in Hb. rewrite Hb. reflexivity.
  - apply Z.eqb_neq in Hc. rewrite Hc. exact IH.
Qed.

(** * Splitting *)

Section Split.

Variable P : platform.
Local Abbreviation META := (META_BLOCK_SIZE P).

Variables (l1 l2 : list block_meta) (b : block_meta) (a : Z).

Hypothesis distinct : NoDup (map addr (l1 ++ b :: l2)).
Hypothesis a_range : 0 <= a < 2 ^ 64.
Hypothesis a_aligned : a mod 8 = 0.
Hypothesis size_range : 0 <= size b < 2 ^ 64.

Lemma split_performed :
  a + META + 1 < size b ->
  split_block_attempt P (addr b) a (l1 ++ b :: l2) =
    l1 ++ Block (addr b) a (status b)
       :: Block (addr b + META + a) (size b - a - META) STATUS_FREE :: l2.
Proof.
  intros Hbig. pose proof (META_range P) as HM.
  destruct (NoDup_mid _ _ _ distinct) as (H1 & H2 & _).
  unfold split_block_attempt.
  rewrite lookup_mid by auto. rewrite ALIGN_aligned by assumption.
  replace (size b =? a) with false by (symmetry; apply Z.eqb_neq; lia).
  rewrite (wrap_small (a + META)) by lia.
  rewrite (wrap_small (a + META + 1)) by lia.
  replace (size b <=? a + META + 1) with false by (symmetry; apply Z.leb_gt; lia).
  rewrite (wrap_small (size b - a)) by lia.
  rewrite (wrap_small (size b - a - META)) by lia.
  rewrite set_size_mid by auto.
  rewrite link_after_mid by auto. reflexivity.
Qed.

Lemma split_declined :
  a <= size b -> size b + META < 2 ^ 64 -> size b <= a + META + 1 ->
  split_block_attempt P (addr b) a (l1 ++ b :: l2) = l1 ++ b :: l2.
Proof.
  intros Hsel extent Hsmall. pose proof (META_range P) as HM.
  pose proof (META_mod8 P) as HM8.
  destruct (NoDup_mid _ _ _ distinct) as (H1 & H2 & _).
  unfold split_block_attempt.
  rewrite lookup_mid by auto. rewrite ALIGN_aligned by assumption.
  destruct (size b =? a); [reflexivity |].
  assert (Hroom : a + META + 1 < 2 ^ 64).
  { pose proof (Z.div_mod a 8 ltac:(lia)) as Ha8.
    pose proof (Z.div_mod META 8 ltac:(lia)) as Hm8.
    rewrite a_aligned in Ha8. rewrite HM8 in Hm8.
    change (2 ^ 64) with (8 * 2 ^ 61) in *. lia. }
  rewrite (wrap_small (a + META)) by lia.
  rewrite (wrap_small (a + META + 1)) by lia.
  replace (size b <=? a + META + 1) with true by (symmetry; apply Z.leb_le; lia).
  reflexivity.
Qed.

End Split.

(** * Coalescing *)

Lemma coalesce_blocks_mid P l1 b1 mid b2 l2 :
  NoDup (map addr (l1 ++ b1 :: mid ++ b2 :: l2)) ->
  coalesce_blocks P (addr b1) (addr b2) (l1 ++ b1 :: mid ++ b2 :: l2) =
    l1 ++ with_size (wrap (size b1 + wrap (META_BLOCK_SIZE P + size b2))) b1 :: mid ++ l2.
Proof.
  intros Hnd.
  destruct (NoDup_mid _ _ _ Hnd) as (A1 & A1' & _).
  pose proof Hnd as Hnd2.
  replace (l1 ++ b1 :: mid ++ b2 :: l2) with ((l1 ++ b1 :: mid) ++ b2 :: l2) in Hnd2
    by (rewrite <- app_assoc; reflexivity).
  destruct (NoDup_mid _ _ _ Hnd2) as (A2 & A2' & _).
  pose proof A2 as A2w. apply away_app in A2. destruct A2 as [A2l A2r].
  unfold coalesce_blocks.
  rewrite lookup_mid by auto.
  replace (l1 ++ b1 :: mid ++ b2 :: l2) with ((l1 ++ b1 :: mid) ++ b2 :: l2)
    by (rewrite <- app_assoc; reflexivity).
  rewrite (lookup_mid (addr b2)) by auto.
  rewrite <- app_assoc. simpl.
  rewrite set_size_mid by auto.
  replace (l1 ++ with_size (wrap (size b1 + wrap (META_BLOCK_SIZE P + size b2))) b1
              :: mid ++ b2 :: l2)
    with ((l1 ++ with_size (wrap (size b1 + wrap (META_BLOCK_SIZE P + size b2))) b1 :: mid)
            ++ b2 :: l2)
    by (rewrite <- app_assoc; reflexivity).
  rewrite remove_mid; auto.
  - rewrite <- app_assoc. reflexivity.
  - apply away_app. split; [exact A2l |].
    inversion A2r; subst. constructor; auto.
Qed.

Lemma NoDup_link l1 b b' nb l2 :
  NoDup (map addr (l1 ++ b :: l2)) ->
  away (addr nb) (l1 ++ b :: l2) ->
  addr b' = addr b ->
  NoDup (map addr (l1 ++ b' :: nb :: l2)).
Proof.
  intros Hnd Hfresh Hb.
  replace (l1 ++ b' :: nb :: l2) with ((l1 ++ [b']) ++ nb :: l2)
    by (rewrite <- app_assoc; reflexivity).
  rewrite map_app. simpl.
  apply (proj2 (NoDup_Add (Add_app (addr nb) (map addr (l1 ++ [b'])) (map addr l2)))).
  rewrite map_app, <- app_assoc. simpl. rewrite Hb.
    rewrite map_app in Hnd. simpl in Hnd. split; [exact Hnd |].
    apply away_not_in in Hfresh. rewrite map_app in Hfresh. simpl in Hfresh. exact Hfresh.
Qed.

(** * The pointer assignments implement the operations on sequences *)

Section LinkLemmas.

Import Links.

Lemma next_set_next a v m x :
  next (set_next a v m x) = if x =? a then v else next (m x).
Proof. unfold set_next. destruct (x =? a); reflexivity. Qed.

Lemma prev_set_next a v m x : prev (set_next a v m x) = prev (m x).
Proof. unfold set_next. destruct (x =? a); reflexivity. Qed.

Lemma prev_set_prev a v m x :
  prev (set_prev a v m x) = if x =? a then v else prev (m x).
Proof. unfold set_prev. destruct (x =? a); reflexivity. Qed.

Lemma next_set_prev a v m x : next (set_prev a v m x) = next (m x).
Proof. unfold set_prev. destruct (x =? a); reflexivity. Qed.

Create Rewrite HintDb links.
#[local] Hint Rewrite next_set_next prev_set_next prev_set_prev next_set_prev Z.eqb_refl
  : links.

(** Two memories that agree on the links read by [linked]. *)
Lemma linked_agree m m' l : forall from to,
  (forall x, In x (from :: l) -> next (m' x) = next (m x)) ->
  (forall x, In x (l ++ [to]) -> prev (m' x) = prev (m x)) ->
  linked m from l to -> linked m' from l to.
Proof.
  induction l as [| a rest IH]; intros from to Hn Hp; simpl.
  - intros [H1 H2]. rewrite Hn, Hp by (simpl; auto). auto.
  - intros (H1 & H2 & H3). rewrite Hn, Hp by (simpl; auto).
    repeat split; auto. apply IH; auto.
    + intros x Hx. apply Hn. simpl in *. tauto.
    + intros x Hx. apply Hp. simpl. auto.
Qed.

Lemma last_cons (a : Z) rest : forall d, last (a :: rest) d = last rest a.
Proof.
  revert a. induction rest as [| c r IH]; intros a d; [reflexivity |].
  change (last (a :: c :: r) d) with (last (c :: r) d).
  rewrite (IH c d), (IH c a). reflexivity.
Qed.

Lemma linked_start m from l to :
  linked m from l to ->
  next (m from) = hd to l /\ prev (m (hd to l)) = from.
Proof. destruct l; simpl; tauto. Qed.

Lemma linked_end m l : forall from to,
  linked m from l to ->
  next (m (last l from)) = to /\ prev (m to) = last l from.
Proof.
  induction l as [| a rest IH]; intros from to; simpl; [tauto |].
  intros (_ & _ & H). destruct (IH a to H) as [E1 E2].
  change (match rest with [] => a | _ :: _ => last rest from end)
    with (last (a :: rest) from).
  rewrite last_cons. auto.
Qed.

Lemma last_in (l : list Z) : forall d, In (last l d) (d :: l).
Proof.
  induction l as [| a rest IH]; intros d; [simpl; auto |].
  rewrite last_cons. right. apply IH.
Qed.

Lemma hd_in (l : list Z) d : In (hd d l) (l ++ [d]).
Proof. destruct l; simpl; auto. Qed.

Lemma eqb_other x a : x <> a -> (x =? a) = false.
Proof. apply Z.eqb_neq. Qed.

Lemma ring_head_init head m : ring (head_init head m) head [].
Proof.
  split; [repeat constructor; simpl; tauto |].
  unfold head_init. simpl.
  autorewrite with links. auto.
Qed.

(** [list_add_last] *)
Lemma linked_add_last m block to l : forall from,
  NoDup (from :: l) -> ~ In to l -> ~ In block (from :: l) -> block <> to ->
  linked m from l to ->
  linked (set_prev to block
            (set_next block to
               (set_prev block (last l from) (set_next (last l from) block m))))
    from (l ++ [block]) to.
Proof.
  induction l as [| a rest IH]; intros from Hnd Hto Hb Hbt Hl.
  - simpl in *.
    autorewrite with links.
    replace (from =? block) with false by (symmetry; apply eqb_other; tauto).
    replace (block =? to) with false by (symmetry; apply eqb_other; tauto).
    autorewrite with links. auto.
  - destruct Hl as (H1 & H2 & H3).
    assert (Hlast : last (a :: rest) from = last rest a) by apply last_cons.
    rewrite Hlast.
    assert (Hin : In (last rest a) (a :: rest)) by apply last_in.
    apply NoDup_cons_iff in Hnd; destruct Hnd as [Hfrom Hnd'].
    change ((a :: rest) ++ [block]) with (a :: rest ++ [block]).
    cbn [linked].
    autorewrite with links.
    replace (from =? block) with false
      by (symmetry; apply eqb_other; simpl in Hb; tauto).
    replace (from =? last rest a) with false
      by (symmetry; apply eqb_other; intros E; apply Hfrom; rewrite E; exact Hin).
    replace (a =? to) with false
      by (symmetry; apply eqb_other; simpl in Hto; tauto).
    replace (a =? block) with false
      by (symmetry; apply eqb_other; simpl in Hb; tauto).
    repeat split; auto.
    apply IH; auto; simpl in *; tauto.
Qed.

Lemma ring_add_last m head block l :
  ring m head l -> ~ In block (head :: l) ->
  ring (list_add_last head block m) head (l ++ [block]).
Proof.
  intros [Hnd Hl] Hb. split.
  - change (head :: l ++ [block]) with ((head :: l) ++ [block]).
    apply (proj2 (NoDup_Add (Add_app block (head :: l) []))).
    rewrite app_nil_r. auto.
  - unfold list_add_last. cbv zeta.
    destruct (linked_end _ _ _ _ Hl) as [_ ->].
    pose proof Hnd as Hnd0. apply NoDup_cons_iff in Hnd0. destruct Hnd0 as [Hh _].
    apply linked_add_last; auto. intros E. apply Hb. left. auto.
Qed.

Lemma linked_app m block to l2 l1 : forall from,
  linked m from (l1 ++ block :: l2) to <->
  linked m from l1 block /\ linked m block l2 to.
Proof.
  induction l1 as [| a rest IH]; intros from; simpl; [tauto |].
  rewrite IH. tauto.
Qed.

(** [list_remove_block] *)
Lemma linked_remove m block to l2 l1 : forall from,
  NoDup (from :: l1 ++ block :: l2) -> ~ In to (l1 ++ block :: l2) ->
  linked m from l1 block -> linked m block l2 to ->
  linked (set_prev (hd to l2) (last l1 from) (set_next (last l1 from) (hd to l2) m))
    from (l1 ++ l2) to.
Proof.
  induction l1 as [| a rest IH]; intros from Hnd Hto H1 H2.
  - simpl in *. destruct H1 as [E1 E2].
    apply NoDup_cons_iff in Hnd; destruct Hnd as [Hfrom Hnd'].
    destruct l2 as [| c r]; simpl in *.
    + autorewrite with links. auto.
    + destruct H2 as (E3 & E4 & H5).
      autorewrite with links.
      repeat split; auto.
      apply NoDup_cons_iff in Hnd'; destruct Hnd' as [Hb Hnd''].
      apply NoDup_cons_iff in Hnd''; destruct Hnd'' as [Hc Hnd3].
      apply (linked_agree m); [| | exact H5].
      * intros x Hx. rewrite next_set_prev, next_set_next.
        replace (x =? from) with false; [reflexivity |].
        symmetry. apply eqb_other. intros ->. apply Hfrom. simpl in *. tauto.
      * intros x Hx. rewrite prev_set_prev, prev_set_next.
        replace (x =? c) with false; [reflexivity |].
        symmetry. apply eqb_other. intros ->.
        apply in_app_or in Hx. simpl in Hx. destruct Hx as [Hx | [Hx | []]]; [tauto |].
        apply Hto. subst. auto.
  - destruct H1 as (E1 & E2 & H3).
    assert (Hlast : last (a :: rest) from = last rest a) by apply last_cons.
    rewrite Hlast.
    apply NoDup_cons_iff in Hnd; destruct Hnd as [Hfrom Hnd'].
    change ((a :: rest) ++ l2) with (a :: rest ++ l2). cbn [linked].
    autorewrite with links.
    assert (Hin : In (last rest a) (a :: rest)) by apply last_in.
    replace (from =? last rest a) with false
      by (symmetry; apply eqb_other; intros E; apply Hfrom; rewrite E;
          change ((a :: rest) ++ block :: l2) with ((a :: rest) ++ block :: l2);
          apply in_or_app; left; exact Hin).
    assert (Hhd : In (hd to l2) (l2 ++ [to])) by apply hd_in.
    replace (a =? hd to l2) with false.
    2:{ symmetry. apply eqb_other. intros E. rewrite <- E in Hhd.
        apply in_app_or in Hhd. simpl in Hhd.
        change ((a :: rest) ++ block :: l2) with (a :: rest ++ block :: l2) in *.
        apply NoDup_cons_iff in Hnd'; destruct Hnd' as [Ha _].
        destruct Hhd as [Hhd | [Hhd | []]].
        - apply Ha. apply in_or_app. right. simpl. auto.
        - apply Hto. subst. simpl. auto. }
    repeat split; auto.
    apply IH; auto. intros Hx. apply Hto. simpl. auto.
Qed.

Lemma ring_remove m head block l1 l2 :
  ring m head (l1 ++ block :: l2) ->
  ring (list_remove_block block m) head (l1 ++ l2).
Proof.
  intros [Hnd Hl].
  apply linked_app in Hl. destruct Hl as [H1 H2].
  split.
  - change (head :: l1 ++ block :: l2) with ((head :: l1) ++ block :: l2) in Hnd.
    apply NoDup_remove_1 in Hnd. exact Hnd.
  - unfold list_remove_block. cbv zeta.
    rewrite next_set_next, prev_set_next.
    destruct (linked_end _ _ _ _ H1) as [_ Ep].
    destruct (linked_start _ _ _ _ H2) as [En _].
    assert (Hn : (if block =? prev (m block) then next (m block) else next (m block))
                 = next (m block)) by (destruct (block =? prev (m block)); reflexivity).
    rewrite Hn, Ep, En.
    apply (linked_remove m block head l2 l1 head); auto.
    apply NoDup_cons_iff in Hnd. tauto.
Qed.

(** The link assignments of [split_block_attempt] *)
Lemma next_after_link block new_block m :
  next (set_prev new_block block (set_next new_block (next (m block)) m) block)
  = next (m block).
Proof.
  autorewrite with links. destruct (block =? new_block); reflexivity.
Qed.

Lemma ring_link_new_block m head block new_block l1 l2 :
  ring m head (l1 ++ block :: l2) ->
  ~ In new_block (head :: l1 ++ block :: l2) ->
  ring (link_new_block block new_block m) head (l1 ++ block :: new_block :: l2).
Proof.
  intros [Hnd Hl] Hnew. split.
  - assert (E1 : head :: l1 ++ block :: new_block :: l2
                 = (head :: l1 ++ [block]) ++ new_block :: l2)
      by (simpl; rewrite <- app_assoc; reflexivity).
    assert (E2 : head :: l1 ++ block :: l2 = (head :: l1 ++ [block]) ++ l2)
      by (simpl; rewrite <- app_assoc; reflexivity).
    rewrite E1.
    apply (proj2 (NoDup_Add (Add_app new_block (head :: l1 ++ [block]) l2))).
    rewrite <- E2. auto.
  - apply linked_app in Hl. destruct Hl as [H1 H2].
    destruct (linked_start _ _ _ _ H2) as [En Ep].
    unfold link_new_block. cbv zeta. rewrite next_after_link, En.
    set (n := hd head l2) in *.
    assert (Hn : In n (l2 ++ [head])) by apply hd_in.
    pose proof Hnd as Hnd0.
    apply NoDup_cons_iff in Hnd0. destruct Hnd0 as [Hh Hnd1].
    pose proof (NoDup_remove_2 _ _ _ Hnd1) as Hb.
    pose proof (NoDup_remove_1 _ _ _ Hnd1) as Hnd2.
    assert (Hl2 : forall x, In x l2 -> ~ In x (head :: l1 ++ [block])).
    { intros x Hx [<- | Hin].
      - apply Hh. apply in_or_app. right. right. exact Hx.
      - apply in_app_or in Hin. destruct Hin as [Hin | [<- | []]].
        + clear - Hnd1 Hx Hin. induction l1 as [| a r IH]; [destruct Hin |].
          simpl in Hnd1. apply NoDup_cons_iff in Hnd1. destruct Hnd1 as [Ha Hr].
          destruct Hin as [<- | Hin]; [| auto].
          apply Ha. apply in_or_app. right. right. exact Hx.
        + apply Hb. apply in_or_app. right. exact Hx. }
    assert (Hn_out : ~ In n (l1 ++ [block])).
    { intros Hin. apply in_app_or in Hn. destruct Hn as [Hn | [Hn | []]].
      - apply (Hl2 n Hn). right. exact Hin.
      - apply Hh. rewrite Hn. apply in_app_or in Hin.
        apply in_or_app. destruct Hin as [Hin | [<- | []]]; [left | right; left]; auto. }
    assert (Hnew_n : n <> new_block).
    { intros E. apply Hnew. rewrite <- E.
      apply in_app_or in Hn. destruct Hn as [Hn | [Hn | []]].
      - right. apply in_or_app. right. right. exact Hn.
      - left. exact Hn. }
    assert (Hnew_b : block <> new_block).
    { intros E. apply Hnew. rewrite <- E. right. apply in_or_app. right. left. auto. }
    apply linked_app. split.
    + apply (linked_agree m); [| | exact H1].
      * intros x Hx. autorewrite with links.
        replace (x =? block) with false.
        2:{ symmetry. apply eqb_other. intros ->. destruct Hx as [Hx | Hx].
            - apply Hh. rewrite Hx. apply in_or_app. right. left. auto.
            - apply Hb. apply in_or_app. left. exact Hx. }
        replace (x =? new_block) with false; [reflexivity |].
        symmetry. apply eqb_other. intros ->. apply Hnew.
        destruct Hx as [Hx | Hx]; [left; auto | right; apply in_or_app; left; auto].
      * intros x Hx. autorewrite with links.
        replace (x =? n) with false
          by (symmetry; apply eqb_other; intros ->; apply Hn_out; exact Hx).
        replace (x =? new_block) with false; [reflexivity |].
        symmetry. apply eqb_other. intros ->. apply Hnew. right.
        apply in_app_or in Hx. apply in_or_app.
        destruct Hx as [Hx | [<- | []]]; [left | right; left]; auto.
    + cbn [linked]. autorewrite with links.
      replace (new_block =? n) with false
        by (symmetry; apply eqb_other; auto).
      replace (new_block =? block) with false
        by (symmetry; apply eqb_other; auto).
      repeat split; auto.
      destruct l2 as [| c r]; simpl in *.
      * subst n. autorewrite with links.
        replace (new_block =? block) with false
          by (symmetry; apply eqb_other; auto).
        autorewrite with links.
        replace (head =? block) with false; [auto |].
        symmetry. apply eqb_other. intros E. apply Hh. rewrite E.
        apply in_or_app. right. left. auto.
      * subst n. destruct H2 as (E1 & E2 & H3). autorewrite with links.
        replace (new_block =? block) with false
          by (symmetry; apply eqb_other; auto).
        autorewrite with links.
        replace (c =? block) with false.
        2:{ symmetry. apply eqb_other. intros E. apply (Hl2 c); [left; auto |].
            right. apply in_or_app. right. left. auto. }
        repeat split; auto.
        apply (linked_agree m); [| | exact H3].
        -- intros x Hx. autorewrite with links.
           replace (x =? block) with false.
           2:{ symmetry. apply eqb_other. intros ->. apply (Hl2 block); [exact Hx |].
               right. apply in_or_app. right. left. auto. }
           replace (x =? new_block) with false; [reflexivity |].
           symmetry. apply eqb_other. intros ->. apply Hnew. right.
           apply in_or_app. right. right. exact Hx.
        -- intros x Hx. autorewrite with links.
           apply NoDup_app_remove_l in Hnd2.
           apply NoDup_cons_iff in Hnd2. destruct Hnd2 as [Hc _].
           replace (x =? c) with false.
           2:{ symmetry. apply eqb_other. intros ->.
               apply in_app_or in Hx. destruct Hx as [Hx | [Hx | []]]; [auto |].
               apply Hh. rewrite Hx. apply in_or_app. right. right. left. auto. }
           replace (x =? new_block) with false; [reflexivity |].
           symmetry. apply eqb_other. intros ->. apply Hnew.
           apply in_app_or in Hx. destruct Hx as [Hx | [Hx | []]].
           ++ right. apply in_or_app. right. right. right. exact Hx.
           ++ left. auto.
Qed.

(** Unlinking the block that was just linked puts every link back. *)
Lemma unlink_after_link m head block new_block l1 l2 :
  ring m head (l1 ++ block :: l2) ->
  ~ In new_block (head :: l1 ++ block :: l2) ->
  forall x, x <> new_block ->
    prev (list_remove_block new_block (link_new_block block new_block m) x) = prev (m x)
    /\ next (list_remove_block new_block (link_new_block block new_block m) x)
       = next (m x).
Proof.
  intros [Hnd Hl] Hnew x Hx.
  apply linked_app in Hl. destruct Hl as [H1 H2].
  destruct (linked_start _ _ _ _ H2) as [En Ep].
  assert (Hn : In (hd head l2) (l2 ++ [head])) by apply hd_in.
  rewrite <- En in Hn, Ep.
  assert (Hnew_b : block <> new_block).
  { intros E. apply Hnew. rewrite <- E. right. apply in_or_app. right. left. auto. }
  assert (Hnew_n : next (m block) <> new_block).
  { intros E. apply Hnew. rewrite <- E.
    apply in_app_or in Hn. destruct Hn as [Hn | [Hn | []]].
    - right. apply in_or_app. right. right. exact Hn.
    - left. exact Hn. }
  assert (Hn_b : next (m block) <> block).
  { intros E. rewrite E in Hn.
    apply NoDup_cons_iff in Hnd. destruct Hnd as [Hh Hnd].
    apply in_app_or in Hn. destruct Hn as [Hn | [Hn | []]].
    - apply NoDup_remove_2 in Hnd. apply Hnd. apply in_or_app. right. exact Hn.
    - apply Hh. rewrite Hn. apply in_or_app. right. left. auto. }
  remember (next (m block)) as n eqn:Hdef.
  assert (Hx' : new_block <> x) by auto.
  assert (Hnew_b' : new_block <> block) by auto.
  assert (Hnew_n' : new_block <> n) by auto.
  unfold list_remove_block, link_new_block. cbv zeta.
  rewrite next_after_link, <- Hdef.
  autorewrite with links.
  repeat match goal with
         | H : ?u <> ?v |- context [?u =? ?v] =>
             rewrite (proj2 (Z.eqb_neq u v) H); autorewrite with links
         end.
  destruct (Z.eqb_spec x n) as [Exn | Hxn];
    destruct (Z.eqb_spec x block) as [Exb | Hxb];
    repeat match goal with
           | H : ?u <> ?v |- context [?u =? ?v] =>
               rewrite (proj2 (Z.eqb_neq u v) H); autorewrite with links
           end;
    try (subst x); try (rewrite <- Hdef); auto; try congruence.
Qed.

End LinkLemmas.

(** The sequence operations of the model are what the assignments do. *)

Lemma ring_nodup m head (l : list block_meta) :
  Links.ring m head (map addr l) -> NoDup (map addr l).
Proof. intros [Hnd _]. apply NoDup_cons_iff in Hnd. tauto. Qed.

Lemma list_add_last_links m head (block : block_meta) (l : list block_meta) :
  Links.ring m head (map addr l) -> ~ In (addr block) (head :: map addr l) ->
  Links.ring (Links.list_add_last head (addr block) m) head
    (map addr (list_add_last block l)).
Proof.
  intros Hr Hb. unfold list_add_last. rewrite map_app.
  apply ring_add_last; assumption.
Qed.

Lemma list_remove_block_links m head (l1 l2 : list block_meta) (b : block_meta) :
  Links.ring m head (map addr (l1 ++ b :: l2)) ->
  Links.ring (Links.list_remove_block (addr b) m) head
    (map addr (list_remove_block (addr b) (l1 ++ b :: l2))).
Proof.
  intros Hr. pose proof (ring_nodup _ _ _ Hr) as Hnd.
  destruct (NoDup_mid _ _ _ Hnd) as (A1 & A2 & _).
  rewrite remove_mid by auto.
  rewrite map_app in *. apply ring_remove in Hr. exact Hr.
Qed.

Lemma link_after_links m head (l1 l2 : list block_meta) (b nb : block_meta) :
  Links.ring m head (map addr (l1 ++ b :: l2)) ->
  ~ In (addr nb) (head :: map addr (l1 ++ b :: l2)) ->
  Links.ring (Links.link_new_block (addr b) (addr nb) m) head
    (map addr (link_after (addr b) nb (l1 ++ b :: l2))).
Proof.
  intros Hr Hnew. pose proof (ring_nodup _ _ _ Hr) as Hnd.
  destruct (NoDup_mid _ _ _ Hnd) as (A1 & A2 & _).
  rewrite link_after_mid by auto.
  rewrite map_app in *. apply (ring_link_new_block m head (addr b) (addr nb)); assumption.
Qed.

(** C3. For a selected block [b] (at least [a] bytes, sizes multiples of
    8, the block lying inside the address space) a split occurs exactly
    when [size b >= a + META + 8]: then [b] keeps its place with size [a]
    and a free block of size [size b - a - META] is linked right after
    it; below the threshold the list is left as it was. *)
Theorem split_block_attempt_threshold (P : platform) (l1 l2 : list block_meta)
  (b : block_meta) (a : Z) :
  NoDup (map addr (l1 ++ b :: l2)) ->
  0 <= a < 2 ^ 64 -> a mod 8 = 0 ->
  size b mod 8 = 0 -> a <= size b -> size b + META_BLOCK_SIZE P < 2 ^ 64 ->
  (a + META_BLOCK_SIZE P + 8 <= size b ->
     split_block_attempt P (addr b) a (l1 ++ b :: l2) =
       l1 ++ Block (addr b) a (status b)
          :: Block (addr b + META_BLOCK_SIZE P + a)
               (size b - a - META_BLOCK_SIZE P) STATUS_FREE :: l2)
  /\ (size b < a + META_BLOCK_SIZE P + 8 ->
        split_block_attempt P (addr b) a (l1 ++ b :: l2) = l1 ++ b :: l2).
Proof.
  intros Hnd Ha Ha8 Hb8 Hsel Hext.
  pose proof (META_range P) as HM. pose proof (META_mod8 P) as HM8.
  pose proof (Z.div_mod a 8 ltac:(lia)) as Da. rewrite Ha8 in Da.
  pose proof (Z.div_mod (size b) 8 ltac:(lia)) as Db. rewrite Hb8 in Db.
  pose proof (Z.div_mod (META_BLOCK_SIZE P) 8 ltac:(lia)) as Dm. rewrite HM8 in Dm.
  split; intros Hcmp.
  - apply split_performed; try assumption; lia.
  - apply split_declined; try assumption; lia.
Qed.

(** C10. Coalescing undoes splitting: when [size b > a + META + 1], so
    that splitting [b] at the aligned size [a] does split, coalescing [b]
    with the trailing block made by the split gives back the list as it
    was, with [b] at its original size between its original neighbours;
    and in any memory holding that circular list, the link assignments
    of the split followed by those of the removal leave the [prev] and
    [next] fields of every descriptor, sentinel included, as they were.
    The status of [b] plays no part. *)
Theorem coalesce_undoes_split (P : platform) (l1 l2 : list block_meta)
  (b : block_meta) (a : Z) :
  NoDup (map addr (l1 ++ b :: l2)) ->
  away (addr b + META_BLOCK_SIZE P + a) (l1 ++ b :: l2) ->
  0 <= a < 2 ^ 64 -> a mod 8 = 0 -> size b < 2 ^ 64 ->
  a + META_BLOCK_SIZE P + 1 < size b ->
  split_block_attempt P (addr b) a (l1 ++ b :: l2) <> l1 ++ b :: l2
  /\ coalesce_blocks P (addr b) (addr b + META_BLOCK_SIZE P + a)
       (split_block_attempt P (addr b) a (l1 ++ b :: l2)) = l1 ++ b :: l2
  /\ forall (m : Links.memory) (head : Z),
       Links.ring m head (map addr (l1 ++ b :: l2)) ->
       head <> addr b + META_BLOCK_SIZE P + a ->
       forall x, x <> addr b + META_BLOCK_SIZE P + a ->
         Links.list_remove_block (addr b + META_BLOCK_SIZE P + a)
           (Links.link_new_block (addr b) (addr b + META_BLOCK_SIZE P + a) m) x
         = m x.
Proof.
  intros Hnd Hfresh Ha Ha8 Hsz Hbig.
  pose proof (META_range P) as HM.
  rewrite split_performed by (try assumption; lia).
  split; [| split].
  - intros Heq. apply app_inv_head in Heq.
    apply (f_equal (@List.length block_meta)) in Heq. simpl in Heq. lia.
  - pose proof (coalesce_blocks_mid P l1 (Block (addr b) a (status b)) []
                  (Block (addr b + META_BLOCK_SIZE P + a)
                     (size b - a - META_BLOCK_SIZE P) STATUS_FREE) l2) as Hc.
    simpl in Hc. rewrite Hc.
    + unfold with_size. simpl.
      rewrite (wrap_small (META_BLOCK_SIZE P + (size b - a - META_BLOCK_SIZE P))) by lia.
      replace (a + (META_BLOCK_SIZE P + (size b - a - META_BLOCK_SIZE P)))
        with (size b) by lia.
      rewrite wrap_small by lia. destruct b; reflexivity.
    + apply NoDup_link with (b := b); auto.
  - intros m head Hring Hhead x Hx.
    rewrite map_app in Hring. simpl in Hring.
    destruct (unlink_after_link m head (addr b) (addr b + META_BLOCK_SIZE P + a)
                (map addr l1) (map addr l2) Hring) with (x := x) as [Ep En].
    + intros [E | Hin]; [auto |].
      apply away_not_in in Hfresh. apply Hfresh. rewrite map_app. exact Hin.
    + exact Hx.
    + destruct (Links.list_remove_block _ _ x), (m x). simpl in *. congruence.
Qed.

(** * The entry points on their early exits *)

Lemma ensure_head_run s : ensure_head s = Returns tt (with_head s).
Proof. unfold ensure_head, with_head, head_init, after_head_init. destruct (head_init_done s); reflexivity. Qed.

Lemma with_head_init s : head_init_done (with_head s) = true.
Proof. unfold with_head. destruct (head_init_done s) eqn:E; [exact E | reflexivity]. Qed.

Lemma with_head_id s : head_init_done s = true -> with_head s = s.
Proof. unfold with_head. intros ->. reflexivity. Qed.

Lemma search_in_payload P p l b : search_in P p l = Some b -> addr b + META_BLOCK_SIZE P = p.
Proof.
  unfold search_in. intros H. apply find_some in H. destruct H as [_ H].
  apply Z.eqb_eq in H. exact H.
Qed.

Lemma os_calloc_zero_operand P n sz s :
  n = 0 \/ sz = 0 -> os_calloc P n sz s = Returns NULL s.
Proof.
  intros H. unfold os_calloc.
  replace ((n =? 0) || (sz =? 0)) with true; [reflexivity |].
  symmetry. apply orb_true_iff. destruct H as [-> | ->]; auto.
Qed.

Lemma os_calloc_overflow P n sz s :
  n <> 0 -> sz <> 0 ->
  ALIGN (wrap (sz * n)) < sz \/ ALIGN (wrap (sz * n)) < n ->
  os_calloc P n sz s = Returns NULL (with_head s).
Proof.
  intros Hn Hs Hov. unfold os_calloc.
  replace ((n =? 0) || (sz =? 0)) with false
    by (symmetry; apply orb_false_iff; split; apply Z.eqb_neq; assumption).
  cbn. unfold op_bind. rewrite ensure_head_run.
  replace ((ALIGN (wrap (sz * n)) <? sz) || (ALIGN (wrap (sz * n)) <? n)) with true;
    [reflexivity |].
  symmetry. apply orb_true_iff. destruct Hov as [H | H]; [left | right]; apply Z.ltb_lt, H.
Qed.

(** C7, amended. [os_calloc] returns null and leaves the state untouched
    when an operand is zero.  When the product, taken modulo [2^64] and
    rounded up by [ALIGN], is smaller than an operand, it returns null;
    the block list, the kernel state and the pre-allocation flag are as
    before, but the sentinel has been initialised if it was not, since
    [head_init] runs before the overflow check.  The state is unchanged
    when the sentinel was already initialised.  [os_calloc(SIZE_MAX/2, 4)]
    is such a call. *)
Theorem os_calloc_rejects (P : platform) (n sz : Z) (s : allocator) :
  (n = 0 \/ sz = 0 -> os_calloc P n sz s = Returns NULL s)
  /\ (n <> 0 -> sz <> 0 ->
      ALIGN (wrap (sz * n)) < sz \/ ALIGN (wrap (sz * n)) < n ->
      os_calloc P n sz s = Returns NULL (with_head s)
      /\ blocks (with_head s) = (if head_init_done s then blocks s else [])
      /\ os (with_head s) = os s
      /\ heap_prealloc_done (with_head s) = heap_prealloc_done s
      /\ (head_init_done s = true -> with_head s = s))
  /\ os_calloc P (SIZE_MAX / 2) 4 s = Returns NULL (with_head s).
Proof.
  split; [apply os_calloc_zero_operand |]. split.
  - intros Hn Hs Hov. split; [apply os_calloc_overflow; assumption |].
    unfold with_head, after_head_init.
    destruct (head_init_done s); simpl; repeat split; auto; discriminate.
  - apply os_calloc_overflow; [discriminate | discriminate |].
    left. vm_compute. reflexivity.
Qed.

(** C7 as stated fails in a process that has not allocated yet:
    [os_calloc(SIZE_MAX/2, 4)] returns null but sets [head_init_done]. *)
Lemma os_calloc_overflow_initialises_head :
  os_calloc linux64 (SIZE_MAX / 2) 4 (fresh 4096)
    = Returns NULL (Allocator true false [] (Kernel 4096 []))
  /\ os_calloc linux64 (SIZE_MAX / 2) 4 (fresh 4096) <> Returns NULL (fresh 4096).
Proof.
  split; [vm_compute; reflexivity |]. vm_compute. intros H. discriminate H.
Qed.

(** The walk of [os_free] and [os_realloc] before any allocation. *)
Lemma os_realloc_on_null_head P p sz s :
  head_init_done s = false -> p <> NULL -> p <> NULL + META_BLOCK_SIZE P -> sz <> 0 ->
  os_realloc P p sz s = Faults.
Proof.
  intros Hh Hp Hm Hs. unfold os_realloc.
  apply Z.eqb_neq in Hp. rewrite Hp. apply Z.eqb_neq in Hs. rewrite Hs.
  cbn. unfold op_bind, search_block_in_list. rewrite Hh.
  replace (NULL + META_BLOCK_SIZE P =? p) with false
    by (symmetry; apply Z.eqb_neq; auto).
  reflexivity.
Qed.

(** C4 at the failing input. In a process that has not allocated yet,
    [os_realloc] with a non-null pointer and a non-zero size does not
    return null: [head_init] has never run (only [os_malloc] and
    [os_calloc] call it), so the search starts from the null [head.next]
    and reads through it. *)
Theorem os_realloc_before_first_allocation (brk0 : Z) :
  os_realloc linux64 4096 16 (fresh brk0) = Faults.
Proof.
  apply os_realloc_on_null_head; [reflexivity | discriminate | | discriminate].
  vm_compute. discriminate.
Qed.

(** Once the sentinel is initialised the preamble of [os_realloc] is as
    described: a null pointer delegates to [os_malloc], a zero size to
    [os_free] and yields null, an unknown or free block yields null and
    an equal aligned size yields the same pointer, the last two without
    any change of state. *)
Lemma os_realloc_preamble (P : platform) (p sz : Z) (s : allocator) :
  os_realloc P NULL sz s = os_malloc P sz s
  /\ (p <> NULL ->
      os_realloc P p 0 s =
        match os_free P p s with
        | Returns _ s' => Returns NULL s'
        | Dies => Dies
        | Faults => Faults
        end)
  /\ (head_init_done s = true -> p <> NULL -> sz <> 0 ->
      (search_in P p (blocks s) = None
       \/ exists b, search_in P p (blocks s) = Some b /\ status b = STATUS_FREE) ->
      os_realloc P p sz s = Returns NULL s)
  /\ (head_init_done s = true -> p <> NULL -> sz <> 0 ->
      forall b, search_in P p (blocks s) = Some b -> status b <> STATUS_FREE ->
        ALIGN sz = size b ->
        os_realloc P p sz s = Returns p s).
Proof.
  split; [reflexivity |]. split; [| split].
  - intros Hp. unfold os_realloc. apply Z.eqb_neq in Hp. rewrite Hp. cbn.
    unfold op_bind. destruct (os_free P p s); reflexivity.
  - intros Hh Hp Hs Hnf. unfold os_realloc.
    apply Z.eqb_neq in Hp. rewrite Hp. apply Z.eqb_neq in Hs. rewrite Hs.
    cbn. unfold op_bind, search_block_in_list. rewrite Hh.
    destruct Hnf as [-> | (b & -> & Hb)]; [reflexivity |].
    rewrite Hb. reflexivity.
  - intros Hh Hp Hs b Hb Hst Hsz. unfold os_realloc.
    apply Z.eqb_neq in Hp. rewrite Hp. apply Z.eqb_neq in Hs. rewrite Hs.
    cbn. unfold op_bind, search_block_in_list. rewrite Hh, Hb.
    replace (status_eqb (status b) STATUS_FREE) with false
      by (destruct (status b); simpl; congruence).
    rewrite Hsz, Z.eqb_refl. cbn. unfold op_ret.
    rewrite (search_in_payload P p _ b Hb). reflexivity.
Qed.

(** * [os_free] *)

Lemma search_lookup P p l b : search_in P p l = Some b -> lookup (addr b) l = Some b.
Proof.
  unfold search_in, lookup. induction l as [| c l IH]; simpl; [discriminate |].
  destruct (addr c + META_BLOCK_SIZE P =? p) eqn:E.
  - intros H. inversion H; subst. rewrite Z.eqb_refl. reflexivity.
  - intros H. pose proof (find_some _ _ H) as [_ Hb]. apply Z.eqb_eq in Hb.
    apply Z.eqb_neq in E.
    replace (addr c =? addr b) with false by (symmetry; apply Z.eqb_neq; lia).
    apply IH, H.
Qed.

Lemma search_removed P p l x :
  x + META_BLOCK_SIZE P = p -> search_in P p (list_remove_block x l) = None.
Proof.
  intros Hx. unfold search_in, list_remove_block.
  induction l as [| c l IH]; simpl; [reflexivity |].
  destruct (addr c =? x) eqn:E; simpl; [exact IH |].
  apply Z.eqb_neq in E.
  replace (addr c + META_BLOCK_SIZE P =? p) with false
    by (symmetry; apply Z.eqb_neq; lia).
  exact IH.
Qed.

Lemma search_marked P p l b st :
  search_in P p l = Some b ->
  search_in P p (set_status (addr b) st l) = Some (with_status st b).
Proof.
  unfold search_in, set_status. induction l as [| c l IH]; simpl; [discriminate |].
  destruct (addr c + META_BLOCK_SIZE P =? p) eqn:E.
  - intros H. inversion H; subst. rewrite Z.eqb_refl. simpl. rewrite E. reflexivity.
  - intros H. pose proof (find_some _ _ H) as [_ Hb]. apply Z.eqb_eq in Hb.
    apply Z.eqb_neq in E.
    replace (addr c =? addr b) with false by (symmetry; apply Z.eqb_neq; lia).
    apply Z.eqb_neq in E. rewrite E. apply IH, H.
Qed.

Lemma set_status_sizes x st l :
  map size (set_status x st l) = map size l /\ map addr (set_status x st l) = map addr l.
Proof.
  unfold set_status. rewrite !map_map. split; apply map_ext; intros c;
    destruct (addr c =? x); reflexivity.
Qed.

Section Free.

Variable P : platform.
Local Abbreviation META := (META_BLOCK_SIZE P).

Variables (s : allocator) (p : Z) (b : block_meta).
Hypothesis head_ready : head_init_done s = true.
Hypothesis p_given : p <> NULL.
Hypothesis owner : search_in P p (blocks s) = Some b.

Lemma os_free_found :
  os_free P p s =
    match status b with
    | STATUS_FREE => Returns tt s
    | STATUS_MAPPED => delete_mapped_block P (addr b) s
    | STATUS_ALLOC => mark (addr b) STATUS_FREE s
    end.
Proof.
  unfold os_free. apply Z.eqb_neq in p_given. rewrite p_given.
  cbn. unfold op_bind, search_block_in_list. rewrite head_ready, owner.
  destruct (status b); reflexivity.
Qed.

Lemma os_free_of_free : status b = STATUS_FREE -> os_free P p s = Returns tt s.
Proof. intros H. rewrite os_free_found, H. reflexivity. Qed.

Lemma os_free_of_mapped :
  status b = STATUS_MAPPED ->
  munmap_refused P (os s) (addr b) (wrap (size b + META)) = false ->
  os_free P p s =
    Returns tt
      (Allocator true (heap_prealloc_done s) (list_remove_block (addr b) (blocks s))
         (Kernel (brk (os s)) (Munmap (addr b) (wrap (size b + META)) :: calls (os s)))).
Proof.
  intros Hst Hok. rewrite os_free_found, Hst.
  unfold delete_mapped_block. cbn. unfold op_bind, get_blocks.
  rewrite (search_lookup _ _ _ _ owner), Hst. cbn.
  unfold op_bind, put_blocks, munmap_or_die. cbn. rewrite Hok, head_ready. reflexivity.
Qed.

Lemma os_free_of_allocated :
  status b = STATUS_ALLOC ->
  os_free P p s =
    Returns tt
      (Allocator true (heap_prealloc_done s)
         (set_status (addr b) STATUS_FREE (blocks s)) (os s)).
Proof.
  intros Hst. rewrite os_free_found, Hst.
  unfold mark. cbn. unfold op_bind, get_blocks, put_blocks. rewrite head_ready.
  reflexivity.
Qed.

End Free.

Lemma os_free_not_found P p s :
  head_init_done s = true -> search_in P p (blocks s) = None ->
  os_free P p s = Returns tt s.
Proof.
  intros Hh Hb. unfold os_free. destruct (p =? NULL); [reflexivity |].
  cbn. unfold op_bind, search_block_in_list. rewrite Hh, Hb. reflexivity.
Qed.

Lemma os_free_twice P p s s1 :
  os_free P p s = Returns tt s1 -> os_free P p s1 = Returns tt s1.
Proof.
  intros H1.
  destruct (Z.eq_dec p NULL) as [-> | Hp].
  { unfold os_free in *. simpl in *. cbn in *. unfold op_ret in *. congruence. }
  destruct (head_init_done s) eqn:Hh.
  2:{ assert (s1 = s).
      { unfold os_free in H1. apply Z.eqb_neq in Hp. rewrite Hp in H1.
        cbn in H1. unfold op_bind, search_block_in_list in H1. rewrite Hh in H1.
        destruct (NULL + META_BLOCK_SIZE P =? p); [| discriminate].
        cbn in H1. unfold op_ret in H1. congruence. }
      subst. exact H1. }
  destruct (search_in P p (blocks s)) as [b |] eqn:Hb.
  2:{ assert (s1 = s).
      { unfold os_free in H1. pose proof Hp as Hp'. apply Z.eqb_neq in Hp'.
        rewrite Hp' in H1. cbn in H1. unfold op_bind, search_block_in_list in H1.
        rewrite Hh, Hb in H1. cbn in H1. unfold op_ret in H1. congruence. }
      subst. exact H1. }
  destruct (status b) eqn:Hst.
  - rewrite (os_free_of_free P s p b Hh Hp Hb Hst) in H1.
    inversion H1; subst. apply (os_free_of_free P s1 p b Hh Hp Hb Hst).
  - rewrite (os_free_of_allocated P s p b Hh Hp Hb Hst) in H1.
    inversion H1; subst. clear H1.
    apply (os_free_of_free P _ p (with_status STATUS_FREE b)); auto.
    simpl. apply search_marked, Hb.
  - rewrite (os_free_found P s p b Hh Hp Hb), Hst in H1.
    unfold delete_mapped_block in H1. cbn in H1. unfold op_bind, get_blocks in H1.
    rewrite (search_lookup _ _ _ _ Hb), Hst in H1. cbn in H1.
    unfold op_bind, put_blocks, munmap_or_die in H1. cbn in H1.
    destruct (munmap_refused P (os s) (addr b) (wrap (size b + META_BLOCK_SIZE P)));
      [discriminate |].
    inversion H1; subst. clear H1.
    apply os_free_not_found; [exact Hh |]. simpl.
    apply search_removed, (search_in_payload P p _ b Hb).
Qed.


(** * The last block of the heap *)

Lemma last_on_heap_from_app ms rest :
  Forall (fun m => status m = STATUS_MAPPED) ms ->
  last_on_heap_from (ms ++ rest) = last_on_heap_from rest.
Proof.
  intros H. induction H as [| m ms Hm _ IH]; simpl; [reflexivity |].
  rewrite Hm. simpl. exact IH.
Qed.

Lemma get_last_on_heap_tail pre b trailing :
  Forall (fun m => status m = STATUS_MAPPED) trailing ->
  status b <> STATUS_MAPPED ->
  get_last_on_heap (pre ++ b :: trailing) = Some b.
Proof.
  intros Hm Hb. unfold get_last_on_heap.
  rewrite rev_app_distr. simpl. rewrite <- app_assoc.
  rewrite last_on_heap_from_app by (apply Forall_rev, Hm).
  simpl. destruct (status b); simpl; congruence.
Qed.

Lemma get_last_on_heap_all_mapped l :
  Forall (fun m => status m = STATUS_MAPPED) l -> get_last_on_heap l = None.
Proof.
  intros Hm. unfold get_last_on_heap.
  rewrite <- (app_nil_r (rev l)).
  rewrite last_on_heap_from_app by (apply Forall_rev, Hm). reflexivity.
Qed.

Lemma last_on_heap_from_spec l b :
  last_on_heap_from l = Some b ->
  exists ms rest, l = ms ++ b :: rest
    /\ Forall (fun m => status m = STATUS_MAPPED) ms /\ status b <> STATUS_MAPPED.
Proof.
  induction l as [| c l IH]; simpl; [discriminate |].
  destruct (status_eqb (status c) STATUS_MAPPED) eqn:E.
  - apply status_eqb_eq in E. intros H. destruct (IH H) as (ms & rest & -> & Hms & Hb).
    exists (c :: ms), rest. repeat split; auto.
  - intros H. inversion H; subst. exists [], l. repeat split; auto.
    intros Hb. rewrite Hb in E. discriminate.
Qed.

Lemma get_last_on_heap_spec l b :
  get_last_on_heap l = Some b <->
  exists pre trailing, l = pre ++ b :: trailing
    /\ Forall (fun m => status m = STATUS_MAPPED) trailing /\ status b <> STATUS_MAPPED.
Proof.
  split.
  - unfold get_last_on_heap. intros H.
    destruct (last_on_heap_from_spec _ _ H) as (ms & rest & Hl & Hms & Hb).
    exists (rev rest), (rev ms). repeat split; auto.
    + rewrite <- (rev_involutive l), Hl, rev_app_distr. simpl.
      rewrite <- app_assoc. reflexivity.
    + apply Forall_rev, Hms.
  - intros (pre & trailing & -> & Hm & Hb). apply get_last_on_heap_tail; assumption.
Qed.

Lemma as_signed_small x : 0 <= x < 2 ^ 63 -> as_signed x = x.
Proof.
  intros H. unfold as_signed.
  replace (x <? 2 ^ 63) with true by (symmetry; apply Z.ltb_lt; lia). reflexivity.
Qed.

(** C6. The grow-in-place case of [extend_realloc], reached for an
    allocated block when the new size is below [MMAP_THRESHOLD]: if the
    block is the last block of the heap, that is, only mapped blocks
    follow it in the list, and the kernel grants the request, the
    program break moves up by exactly [a - size b], the block stays where
    it is with size [a = ALIGN sz], and the pointer passed in is
    returned. *)
Theorem extend_realloc_grows_last_heap_block (P : platform) (s : allocator)
  (p sz : Z) (pre trailing : list block_meta) (b : block_meta) :
  head_init_done s = true ->
  NoDup (map addr (blocks s)) ->
  blocks s = pre ++ b :: trailing ->
  Forall (fun m => status m = STATUS_MAPPED) trailing ->
  status b = STATUS_ALLOC ->
  p <> NULL -> p = addr b + META_BLOCK_SIZE P ->
  0 <= size b < ALIGN sz -> ALIGN sz < MMAP_THRESHOLD ->
  sbrk_refused P (os s) (ALIGN sz - size b) = false ->
  os_realloc P p sz s =
    Returns p
      (Allocator true (heap_prealloc_done s)
         (pre ++ Block (addr b) (ALIGN sz) STATUS_ALLOC :: trailing)
         (Kernel (brk (os s) + (ALIGN sz - size b))
            (Sbrk (ALIGN sz - size b) :: calls (os s)))).
Proof.
  intros Hh Hnd Hl Hm Hst Hp Hpay Hsz Hth Hok.
  rewrite Hl in Hnd. destruct (NoDup_mid _ _ _ Hnd) as (A1 & A2 & _).
  assert (Hfound : search_in P p (blocks s) = Some b).
  { rewrite Hl. unfold search_in. clear - A1 Hpay.
    induction A1 as [| c l1 Hc _ IH]; simpl.
    - replace (addr b + META_BLOCK_SIZE P =? p) with true
        by (symmetry; apply Z.eqb_eq; lia). reflexivity.
    - replace (addr c + META_BLOCK_SIZE P =? p) with false
        by (symmetry; apply Z.eqb_neq; lia). exact IH. }
  assert (Hlast : get_last_on_heap (blocks s) = Some b).
  { rewrite Hl. apply get_last_on_heap_tail; [exact Hm | congruence]. }
  assert (Hsz0 : sz <> 0).
  { intros ->. change (ALIGN 0) with 0 in Hsz. lia. }
  unfold MMAP_THRESHOLD in Hth.
  unfold os_realloc.
  apply Z.eqb_neq in Hp. rewrite Hp. apply Z.eqb_neq in Hsz0. rewrite Hsz0.
  cbn. unfold op_bind, search_block_in_list. rewrite Hh, Hfound, Hst. simpl.
  replace (ALIGN sz =? size b) with false by (symmetry; apply Z.eqb_neq; lia).
  replace (size b <? ALIGN sz) with true by (symmetry; apply Z.ltb_lt; lia).
  unfold extend_realloc. rewrite Hst. simpl.
  replace (MMAP_THRESHOLD <=? ALIGN sz) with false
    by (symmetry; apply Z.leb_gt; unfold MMAP_THRESHOLD; lia).
  cbn. unfold op_bind, get_blocks. rewrite Hlast. simpl. rewrite Z.eqb_refl.
  unfold expand_last_block. cbn. unfold op_bind, get_blocks. rewrite Hlast.
  rewrite (wrap_small (ALIGN sz - size b)) by lia.
  rewrite as_signed_small by lia.
  unfold sbrk. rewrite Hok. cbn. unfold op_bind, put_blocks. cbn.
  replace (size b + (ALIGN sz - size b)) with (ALIGN sz) by lia.
  rewrite (wrap_small (ALIGN sz)) by lia.
  rewrite Hl, set_size_mid by auto. rewrite Hh.
  unfold with_size. rewrite Hst, <- Hpay. reflexivity.
Qed.

(** * Adjacent free blocks *)

Lemma naf_from_app pf l1 l2 :
  naf_from pf (l1 ++ l2) = naf_from pf l1 && naf_from (ends_free pf l1) l2.
Proof.
  revert pf. induction l1 as [| c l1 IH]; intros pf; simpl; [reflexivity |].
  destruct (status c); rewrite ?IH, ?andb_assoc; reflexivity.
Qed.

Lemma ends_free_app pf l1 l2 :
  ends_free pf (l1 ++ l2) = ends_free (ends_free pf l1) l2.
Proof.
  revert pf. induction l1 as [| c l1 IH]; intros pf; simpl; [reflexivity |].
  destruct (status c); apply IH.
Qed.

Lemma naf_from_mapped pf ms :
  Forall (fun m => status m = STATUS_MAPPED) ms ->
  naf_from pf ms = true /\ ends_free pf ms = pf.
Proof.
  intros H. induction H as [| m ms Hm _ IH]; simpl; [auto |].
  rewrite Hm. exact IH.
Qed.

Lemma naf_from_statuses l l' :
  map status l = map status l' -> forall pf, naf_from pf l = naf_from pf l'.
Proof.
  revert l'. induction l as [| c l IH]; intros [| c' l'] H pf; try discriminate;
    [reflexivity |].
  simpl in H. inversion H as [[Hc Hl]]. simpl. rewrite Hc.
  destruct (status c'); rewrite (IH l' Hl); reflexivity.
Qed.

Lemma set_size_statuses x v l : map status (set_size x v l) = map status l.
Proof.
  unfold set_size. rewrite map_map. apply map_ext. intros c.
  destruct (addr c =? x); reflexivity.
Qed.

Lemma naf_from_marked_alloc x l : forall pf pf',
  (pf' = true -> pf = true) ->
  naf_from pf l = true -> naf_from pf' (set_status x STATUS_ALLOC l) = true.
Proof.
  unfold set_status.
  induction l as [| c l IH]; intros pf pf' Hle H; simpl in *; [reflexivity |].
  destruct (addr c =? x); simpl.
  - destruct (status c).
    + apply andb_true_iff in H. destruct H as [_ H]. apply (IH true); auto.
    + apply (IH false); auto.
    + apply (IH pf); auto. discriminate.
  - destruct (status c).
    + apply andb_true_iff in H. destruct H as [Hpf H].
      apply andb_true_iff. split.
      * destruct pf'; [rewrite Hle in Hpf by reflexivity; discriminate | reflexivity].
      * apply (IH true); auto.
    + apply (IH false); auto.
    + apply (IH pf); auto.
Qed.

Lemma set_status_app x st l1 l2 :
  set_status x st (l1 ++ l2) = set_status x st l1 ++ set_status x st l2.
Proof. unfold set_status. apply map_app. Qed.

Lemma set_status_twice x st l :
  set_status x st (set_status x st l) = set_status x st l.
Proof.
  unfold set_status. rewrite map_map. apply map_ext. intros c.
  destruct (addr c =? x) eqn:E; simpl; rewrite E; reflexivity.
Qed.

(** Claiming a free block, with or without a tail split off it. *)
Lemma naf_claimed l1 b l2 :
  naf_from false (l1 ++ b :: l2) = true ->
  naf_from false (set_status (addr b) STATUS_ALLOC (l1 ++ b :: l2)) = true.
Proof. intros H. apply (naf_from_marked_alloc _ _ false); auto. Qed.

Lemma naf_claimed_split l1 b b' nb l2 :
  naf_from false (l1 ++ b :: l2) = true ->
  status b = STATUS_FREE -> status nb = STATUS_FREE -> addr b' = addr b ->
  naf_from false (set_status (addr b) STATUS_ALLOC (l1 ++ b' :: nb :: l2)) = true.
Proof.
  intros H Hb Hnb Hb'.
  assert (Hsame : set_status (addr b) STATUS_ALLOC (l1 ++ b' :: nb :: l2)
          = set_status (addr b) STATUS_ALLOC
              (l1 ++ with_status STATUS_ALLOC b' :: nb :: l2)).
  { rewrite !set_status_app. f_equal. unfold set_status. simpl.
    apply Z.eqb_eq in Hb'. rewrite Hb'. reflexivity. }
  rewrite Hsame. apply (naf_from_marked_alloc _ _ false); [auto |].
  rewrite naf_from_app in *. simpl in *. rewrite Hb in H. rewrite Hnb.
  apply andb_true_iff in H. destruct H as [H1 H2].
  apply andb_true_iff in H2. destruct H2 as [_ H2].
  rewrite H1, H2. reflexivity.
Qed.

Lemma naf_appended_alloc x sz st l :
  naf_from false l = true ->
  naf_from false
    (set_status x STATUS_ALLOC (list_add_last (Block x sz st) l)) = true.
Proof.
  intros H. unfold list_add_last. rewrite set_status_app, naf_from_app.
  rewrite (naf_from_marked_alloc x l false false) by auto.
  unfold set_status. simpl. rewrite Z.eqb_refl. reflexivity.
Qed.

(** * The coalesce pass *)

Lemma anchored_naf pre c1 : anchored pre c1 -> naf_from false pre = true.
Proof.
  destruct c1 as [c1 |]; simpl; [| tauto].
  intros (before & anchor & skipped & -> & _ & Hst & Hm & Hn & He).
  rewrite naf_from_app, Hn, He. simpl. rewrite Hst. simpl.
  apply naf_from_mapped, Hm.
Qed.

Lemma anchored_ends pre c1 :
  anchored pre c1 -> ends_free false pre = match c1 with Some _ => true | None => false end.
Proof.
  destruct c1 as [c1 |]; simpl; [| tauto].
  intros (before & anchor & skipped & -> & _ & Hst & Hm & Hn & He).
  rewrite ends_free_app. simpl. rewrite Hst. apply naf_from_mapped, Hm.
Qed.

Section CoalescePass.

Variable P : platform.

Lemma coalesce_walk_sound todo : forall pre c1,
  NoDup (map addr (pre ++ todo)) ->
  anchored pre c1 ->
  naf_from false (coalesce_walk P todo c1 (pre ++ todo)) = true
  /\ NoDup (map addr (coalesce_walk P todo c1 (pre ++ todo))).
Proof.
  induction todo as [| it rest IH]; intros pre c1 Hnd Hanc; simpl.
  - rewrite app_nil_r in *. split; [eapply anchored_naf; eassumption | exact Hnd].
  - assert (Hshift : pre ++ it :: rest = (pre ++ [it]) ++ rest)
      by (rewrite <- app_assoc; reflexivity).
    destruct (status it) eqn:Hst.
    + (* free *)
      destruct c1 as [c1 |].
      * destruct Hanc as (before & anchor & skipped & -> & Ha & Hfree & Hm & Hn & He).
        rewrite <- Ha.
        rewrite <- app_assoc. simpl.
        rewrite <- app_assoc in Hnd. simpl in Hnd.
        rewrite (coalesce_blocks_mid P before anchor skipped it rest Hnd).
        set (grown := with_size
               (wrap (size anchor + wrap (META_BLOCK_SIZE P + size it))) anchor).
        replace (before ++ grown :: skipped ++ rest)
          with ((before ++ grown :: skipped) ++ rest)
          by (rewrite <- app_assoc; reflexivity).
        change (addr anchor) with (addr grown).
        apply IH.
        -- rewrite <- app_assoc. simpl.
           replace (before ++ anchor :: skipped ++ it :: rest)
             with ((before ++ anchor :: skipped) ++ it :: rest) in Hnd
             by (rewrite <- app_assoc; reflexivity).
           destruct (NoDup_mid _ _ _ Hnd) as (_ & _ & Hnd').
           rewrite <- app_assoc in Hnd'. simpl in Hnd'.
           rewrite map_app in *. simpl in *. exact Hnd'.
        -- exists before, grown, skipped. repeat split; auto.
      * rewrite Hshift. apply IH; [rewrite <- Hshift; exact Hnd |].
        destruct Hanc as [Hn He].
        exists pre, it, []. repeat split; auto.
    + (* allocated *)
      rewrite Hshift. apply IH; [rewrite <- Hshift; exact Hnd |].
      simpl. rewrite naf_from_app, ends_free_app. simpl. rewrite Hst.
      rewrite (anchored_naf _ _ Hanc). auto.
    + (* mapped *)
      rewrite Hshift. apply IH; [rewrite <- Hshift; exact Hnd |].
      destruct c1 as [c1 |]; simpl.
      * destruct Hanc as (before & anchor & skipped & -> & Ha & Hfree & Hm & Hn & He).
        exists before, anchor, (skipped ++ [it]). repeat split; auto.
        -- rewrite <- app_assoc. reflexivity.
        -- apply Forall_app. split; [exact Hm | constructor; auto].
      * destruct Hanc as [Hn He].
        rewrite naf_from_app, ends_free_app. simpl. rewrite Hst, Hn, He. auto.
Qed.

Lemma coalesce_attempt_sound l :
  NoDup (map addr l) ->
  no_adjacent_free (coalesce_attempt P l) = true
  /\ NoDup (map addr (coalesce_attempt P l)).
Proof.
  intros Hnd. unfold no_adjacent_free, coalesce_attempt.
  apply (coalesce_walk_sound l [] None); simpl; auto.
Qed.

End CoalescePass.

(** * Placement on the heap *)

Lemma split_shape P l1 b l2 a :
  NoDup (map addr (l1 ++ b :: l2)) ->
  split_block_attempt P (addr b) a (l1 ++ b :: l2) = l1 ++ b :: l2
  \/ exists b' nb,
       split_block_attempt P (addr b) a (l1 ++ b :: l2) = l1 ++ b' :: nb :: l2
       /\ addr b' = addr b /\ status b' = status b /\ status nb = STATUS_FREE.
Proof.
  intros Hnd. destruct (NoDup_mid _ _ _ Hnd) as (H1 & H2 & _).
  unfold split_block_attempt. rewrite lookup_mid by auto.
  destruct (size b =? ALIGN a); [left; reflexivity |].
  destruct (size b <=? wrap (wrap (ALIGN a + META_BLOCK_SIZE P) + 1));
    [left; reflexivity |].
  right. rewrite set_size_mid by auto. rewrite link_after_mid by auto.
  eexists _, _. split; [reflexivity |]. auto.
Qed.

Lemma find_best_block_member a l b :
  find_best_block (ALIGN a) l = Some b -> In b l /\ status b = STATUS_FREE.
Proof.
  intros H.
  pose proof (find_best_block_best_of (ALIGN a) l (ALIGN_range a) (ALIGN_mod8 a)) as Hs.
  rewrite H in Hs. destruct Hs as (i & Hi & [Hst _] & _).
  split; [eapply nth_error_In; eassumption | exact Hst].
Qed.

Lemma get_free_heap_block_unfold P sz s :
  get_free_heap_block P sz s =
    match prealloc_heap_attempt P s with
    | Returns true t => placement P sz t
    | Returns false t => Returns None t
    | Dies => Dies
    | Faults => Faults
    end.
Proof.
  unfold get_free_heap_block. cbn. unfold op_bind.
  destruct (prealloc_heap_attempt P s) as [[|] t | |]; reflexivity.
Qed.

Section Placement.

Variable P : platform.

Lemma expand_last_block_claimed a t :
  no_adjacent_free (blocks t) = true ->
  exists r t', expand_last_block P a t = Returns r t'
    /\ no_adjacent_free (claimed r (blocks t')) = true.
Proof.
  intros Hn. unfold expand_last_block. cbn. unfold op_bind, get_blocks.
  destruct (get_last_on_heap (blocks t)) as [last |].
  - unfold sbrk.
    destruct (sbrk_refused P (os t) (as_signed (wrap (a - size last)))).
    + cbn. eexists _, _. split; [reflexivity |]. exact Hn.
    + cbn. eexists _, _. split; [reflexivity |]. simpl.
      apply (naf_from_marked_alloc _ _ false); [auto |].
      unfold no_adjacent_free in Hn.
      rewrite (naf_from_statuses _ (blocks t)); [exact Hn | apply set_size_statuses].
  - cbn. eexists _, _. split; [reflexivity |]. exact Hn.
Qed.

Lemma placement_claimed sz t :
  NoDup (map addr (blocks t)) ->
  exists r t', placement P sz t = Returns r t'
    /\ no_adjacent_free (claimed r (blocks t')) = true.
Proof.
  intros Hnd.
  destruct (coalesce_attempt_sound P _ Hnd) as [Hn Hnd'].
  unfold placement, coalesce_pass. cbn. unfold op_bind, get_blocks, put_blocks. cbn.
  set (l := coalesce_attempt P (blocks t)) in *.
  destruct (find_best_block (ALIGN sz) l) as [best |] eqn:Hbest.
  - cbn. eexists _, _. split; [reflexivity |]. simpl.
    destruct (find_best_block_member _ _ _ Hbest) as [Hin Hfree].
    apply in_split in Hin. destruct Hin as (l1 & l2 & Hl).
    rewrite Hl in *.
    destruct (split_shape P l1 best l2 (ALIGN sz) Hnd')
      as [-> | (b' & nb & -> & Hb' & _ & Hnb)].
    + apply naf_claimed, Hn.
    + apply naf_claimed_split; assumption.
  - destruct (match get_last_on_heap l with
              | Some last_on_heap => status_eqb (status last_on_heap) STATUS_FREE
              | None => false
              end).
    + apply (expand_last_block_claimed (ALIGN sz)
               (Allocator (head_init_done t) (heap_prealloc_done t) l (os t))).
      exact Hn.
    + unfold sbrk. cbn.
      destruct (sbrk_refused P (os t)
                  (as_signed (wrap (META_BLOCK_SIZE P + ALIGN sz)))).
      * cbn. eexists _, _. split; [reflexivity |]. exact Hn.
      * cbn. eexists _, _. split; [reflexivity |]. simpl.
        apply naf_appended_alloc, Hn.
Qed.

Lemma naf_all_mapped l :
  Forall (fun m => status m = STATUS_MAPPED) l -> no_adjacent_free l = true.
Proof. intros H. apply naf_from_mapped, H. Qed.

Lemma prealloc_heap_attempt_cases s :
  prealloc_heap_attempt P s =
    if heap_prealloc_done s then Returns true s
    else if sbrk_refused P (os s) HEAP_PREALLOC_SIZE then
      Returns false
        (Allocator (head_init_done s) (heap_prealloc_done s) (blocks s)
           (Kernel (brk (os s)) (Sbrk HEAP_PREALLOC_SIZE :: calls (os s))))
    else
      Returns true
        (Allocator (head_init_done s) true
           (list_add_last
              (Block (brk (os s)) (wrap (HEAP_PREALLOC_SIZE - META_BLOCK_SIZE P))
                 STATUS_FREE) (blocks s))
           (Kernel (brk (os s) + HEAP_PREALLOC_SIZE)
              (Sbrk HEAP_PREALLOC_SIZE :: calls (os s)))).
Proof.
  unfold prealloc_heap_attempt, bind, ret, Monad_op, op_bind, sbrk.
  destruct (heap_prealloc_done s); [reflexivity |].
  destruct (sbrk_refused P (os s) HEAP_PREALLOC_SIZE); reflexivity.
Qed.

Lemma get_free_heap_block_claimed sz s :
  settled s ->
  exists r s', get_free_heap_block P sz s = Returns r s'
    /\ no_adjacent_free (claimed r (blocks s')) = true.
Proof.
  intros [Hnd Hpre]. rewrite get_free_heap_block_unfold, prealloc_heap_attempt_cases.
  destruct (heap_prealloc_done s) eqn:Hdone.
  - apply placement_claimed, Hnd.
  - destruct (Hpre eq_refl) as [Hm Hbrk].
    destruct (sbrk_refused P (os s) HEAP_PREALLOC_SIZE).
    + eexists _, _. split; [reflexivity |]. apply naf_all_mapped, Hm.
    + apply placement_claimed. unfold blocks at 1, list_add_last.
      rewrite map_app.
      apply (proj2 (NoDup_Add (Add_app (brk (os s)) (map addr (blocks s)) []))).
      rewrite app_nil_r. split; [exact Hnd |]. apply away_not_in, Hbrk.
Qed.

Lemma settled_with_head s : settled s -> settled (with_head s).
Proof.
  intros Hs. unfold with_head. destruct (head_init_done s); [exact Hs |].
  split; simpl; [constructor |]. intros _. split; constructor.
Qed.

Lemma claim_heap_block (sz : Z) (s : allocator) :
  settled s ->
  exists p s',
    (heap_block <- get_free_heap_block P sz ;;
     match heap_block with
     | None => ret NULL
     | Some hb => mark hb STATUS_ALLOC ;; ret (hb + META_BLOCK_SIZE P)
     end) s = Returns p s'
    /\ no_adjacent_free (blocks s') = true.
Proof.
  intros Hs. destruct (get_free_heap_block_claimed sz s Hs) as (r & s' & Hrun & Hn).
  unfold bind at 1. unfold Monad_op, op_bind. rewrite Hrun.
  destruct r as [hb |]; eexists _, _; (split; [reflexivity |]); exact Hn.
Qed.

End Placement.



(** C8 at the failing input. [os_malloc(SIZE_MAX - 15)] as first call:
    [aligned_size + META_BLOCK_SIZE] wraps around to 16, the request is
    served from the heap, and [expand_last_block] hands the wrapped
    difference to [sbrk], whose argument is signed: the break is moved
    down by 131056 bytes. *)
Theorem os_malloc_near_SIZE_MAX_shrinks_break :
  os_malloc linux64 (SIZE_MAX - 15) (fresh 4096) =
    Returns (4096 + 32)
      (Allocator true true [Block 4096 (SIZE_MAX - 15) STATUS_ALLOC]
         (Kernel (4096 + 131072 - 131056) [Sbrk (-131056); Sbrk 131072])).
Proof. vm_compute. reflexivity. Qed.

(** [os_calloc] reaches the same path through the signed comparison of
    its threshold test: [(long)(aligned_size + META_BLOCK_SIZE)] is
    negative for sizes of [2^63] bytes and more, so the request goes to
    [get_free_heap_block], which lowers the break.  (The call then goes
    on to [memset] the payload.) *)
Lemma os_calloc_signed_threshold_shrinks_break :
  (as_signed (wrap (ALIGN (wrap ((SIZE_MAX - 63) * 1)) + META_BLOCK_SIZE linux64))
     <? getpagesize linux64) = true
  /\ get_free_heap_block linux64 (ALIGN (wrap ((SIZE_MAX - 63) * 1)))
       (with_head (fresh 4096)) =
     Returns (Some 4096)
       (Allocator true true [Block 4096 (SIZE_MAX - 63) STATUS_FREE]
          (Kernel (4096 + 131072 - 131104) [Sbrk (-131104); Sbrk 131072])).
Proof. split; vm_compute; reflexivity. Qed.

(** [os_realloc], too, can leave two free neighbours: shrinking the first
    block splits a free tail off it, right before the free remainder. *)
Lemma os_realloc_leaves_adjacent_free :
  exists p s1 q s2,
    os_malloc linux64 64 (fresh 4096) = Returns p s1
    /\ no_adjacent_free (blocks s1) = true
    /\ os_realloc linux64 p 8 s1 = Returns q s2
    /\ no_adjacent_free (blocks s2) = false.
Proof.
  eexists _, _, _, _. split; [vm_compute; reflexivity |].
  split; [reflexivity |]. split; [vm_compute; reflexivity |]. reflexivity.
Qed.

(** * The statements at work on concrete inputs *)

Lemma find_best_block_is_best_fit_witness :
  (0 <= 16 < 2 ^ 64 /\ 16 mod 8 = 0)
  /\ match find_best_block 16 sample_list with
     | Some b =>
         exists i, nth_error sample_list i = Some b
           /\ status b = STATUS_FREE /\ 16 <= size b
           /\ forall j c, nth_error sample_list j = Some c ->
                status c = STATUS_FREE -> 16 <= size c ->
                size b <= size c /\ ((j < i)%nat -> size b < size c)
     | None => forall c, In c sample_list -> status c = STATUS_FREE -> size c < 16
     end.
Proof.
  split; [split; [lia | reflexivity] |].
  apply (find_best_block_is_best_fit 16 sample_list); [lia | reflexivity].
Defined.

Lemma draft_find_best_block_agrees_witness :
  (0 <= 16 < 2 ^ 64 /\ 16 mod 8 = 0)
  /\ Draft.find_best_block 16 sample_list = find_best_block 16 sample_list.
Proof.
  split; [split; [lia | reflexivity] |].
  apply (draft_find_best_block_agrees 16 sample_list); [lia | reflexivity].
Defined.

Lemma split_block_attempt_threshold_witness :
  (64 + META_BLOCK_SIZE linux64 + 8 <= 131040)
  /\ split_block_attempt linux64 4096 64 [Block 4096 131040 STATUS_FREE] =
       [Block 4096 64 STATUS_FREE; Block 4192 130944 STATUS_FREE].
Proof.
  split; [vm_compute; discriminate |].
  apply (proj1 (split_block_attempt_threshold linux64 [] []
                  (Block 4096 131040 STATUS_FREE) 64
                  ltac:(distinct_addresses) ltac:(lia) eq_refl eq_refl
                  ltac:(simpl; lia) eq_refl)).
  vm_compute; discriminate.
Defined.

Lemma coalesce_undoes_split_witness :
  (64 + META_BLOCK_SIZE linux64 + 1 < 131040)
  /\ coalesce_blocks linux64 4096 (4096 + META_BLOCK_SIZE linux64 + 64)
       (split_block_attempt linux64 4096 64
          [Block 4096 131040 STATUS_FREE; Block 200000 8 STATUS_MAPPED])
     = [Block 4096 131040 STATUS_FREE; Block 200000 8 STATUS_MAPPED].
Proof.
  split; [reflexivity |].
  apply (proj1 (proj2 (coalesce_undoes_split linux64 []
                  [Block 200000 8 STATUS_MAPPED] (Block 4096 131040 STATUS_FREE) 64
                  ltac:(distinct_addresses)
                  ltac:(repeat constructor; simpl; vm_compute; discriminate)
                  ltac:(lia) eq_refl eq_refl eq_refl))).
Defined.


Lemma extend_realloc_grows_last_heap_block_witness :
  os_realloc linux64 4128 100
    (Allocator true true
       [Block 4096 64 STATUS_ALLOC; Block 1099511627776 200000 STATUS_MAPPED]
       (Kernel 4192 []))
  = Returns 4128
      (Allocator true true
         [Block 4096 104 STATUS_ALLOC; Block 1099511627776 200000 STATUS_MAPPED]
         (Kernel (4192 + 40) [Sbrk 40])).
Proof.
  apply (extend_realloc_grows_last_heap_block linux64
           (Allocator true true
              [Block 4096 64 STATUS_ALLOC; Block 1099511627776 200000 STATUS_MAPPED]
              (Kernel 4192 []))
           4128 100 [] [Block 1099511627776 200000 STATUS_MAPPED]
           (Block 4096 64 STATUS_ALLOC)
           eq_refl ltac:(distinct_addresses) eq_refl
           ltac:(repeat constructor) eq_refl ltac:(discriminate) eq_refl
           ltac:(split; [discriminate | reflexivity]) eq_refl eq_refl).
Defined.

Lemma os_calloc_rejects_witness :
  (SIZE_MAX / 2 <> 0 /\ 4 <> 0 /\ ALIGN (wrap (4 * (SIZE_MAX / 2))) < 4)
  /\ os_calloc linux64 (SIZE_MAX / 2) 4
       (Allocator true true [Block 4096 131040 STATUS_FREE]
          (Kernel 135168 [Sbrk 131072]))
     = Returns NULL
         (Allocator true true [Block 4096 131040 STATUS_FREE]
            (Kernel 135168 [Sbrk 131072])).
Proof.
  split; [repeat split; discriminate |].
  apply (proj1 (proj1 (proj2 (os_calloc_rejects linux64 (SIZE_MAX / 2) 4
           (Allocator true true [Block 4096 131040 STATUS_FREE]
              (Kernel 135168 [Sbrk 131072]))))
         ltac:(discriminate) ltac:(discriminate) (or_introl eq_refl))).
Defined.


(** * More on the coalesce pass *)

Section CoalesceMore.

Variable P : platform.

(** A property kept by every single merge is kept by the whole pass. *)
Lemma coalesce_walk_merges (Q : list block_meta -> Prop) :
  (forall before anchor skipped it rest,
      NoDup (map addr (before ++ anchor :: skipped ++ it :: rest)) ->
      status anchor = STATUS_FREE ->
      Forall (fun m => status m = STATUS_MAPPED) skipped ->
      status it = STATUS_FREE ->
      Q (before ++ anchor :: skipped ++ it :: rest) ->
      Q (before
           ++ with_size (wrap (size anchor + wrap (META_BLOCK_SIZE P + size it))) anchor
           :: skipped ++ rest)) ->
  forall todo pre c1,
    NoDup (map addr (pre ++ todo)) ->
    anchored pre c1 ->
    Q (pre ++ todo) ->
    Q (coalesce_walk P todo c1 (pre ++ todo)).
Proof.
  intros Hstep. induction todo as [| it rest IH]; intros pre c1 Hnd Hanc HQ; simpl.
  - exact HQ.
  - assert (Hshift : pre ++ it :: rest = (pre ++ [it]) ++ rest)
      by (rewrite <- app_assoc; reflexivity).
    destruct (status it) eqn:Hst.
    + destruct c1 as [c1 |].
      * destruct Hanc as (before & anchor & skipped & -> & Ha & Hfree & Hm & Hn & He).
        rewrite <- Ha. rewrite <- app_assoc in *. simpl in *.
        rewrite (coalesce_blocks_mid P before anchor skipped it rest Hnd).
        set (grown := with_size
               (wrap (size anchor + wrap (META_BLOCK_SIZE P + size it))) anchor).
        assert (Hnd' : NoDup (map addr (before ++ grown :: skipped ++ rest))).
        { replace (before ++ anchor :: skipped ++ it :: rest)
            with ((before ++ anchor :: skipped) ++ it :: rest) in Hnd
            by (rewrite <- app_assoc; reflexivity).
          destruct (NoDup_mid _ _ _ Hnd) as (_ & _ & Hnd').
          rewrite <- app_assoc in Hnd'. simpl in Hnd'.
          rewrite map_app in *. simpl in *. exact Hnd'. }
        pose proof (Hstep before anchor skipped it rest Hnd Hfree Hm Hst HQ) as HQ'.
        fold grown in HQ'.
        replace (before ++ grown :: skipped ++ rest)
          with ((before ++ grown :: skipped) ++ rest) in *
          by (rewrite <- app_assoc; reflexivity).
        change (addr anchor) with (addr grown).
        apply IH; auto.
        exists before, grown, skipped. repeat split; auto.
      * rewrite Hshift in *. apply IH; auto.
        destruct Hanc as [Hn He]. exists pre, it, []. repeat split; auto.
    + rewrite Hshift in *. apply IH; auto.
      simpl. rewrite naf_from_app, ends_free_app. simpl. rewrite Hst.
      rewrite (anchored_naf _ _ Hanc). auto.
    + rewrite Hshift in *. apply IH; auto.
      destruct c1 as [c1 |]; simpl.
      * destruct Hanc as (before & anchor & skipped & -> & Ha & Hfree & Hm & Hn & He).
        exists before, anchor, (skipped ++ [it]). repeat split; auto.
        -- rewrite <- app_assoc. reflexivity.
        -- apply Forall_app. split; [exact Hm | constructor; auto].
      * destruct Hanc as [Hn He].
        rewrite naf_from_app, ends_free_app. simpl. rewrite Hst, Hn, He. auto.
Qed.

Lemma coalesce_attempt_merges (Q : list block_meta -> Prop) l :
  (forall before anchor skipped it rest,
      NoDup (map addr (before ++ anchor :: skipped ++ it :: rest)) ->
      status anchor = STATUS_FREE ->
      Forall (fun m => status m = STATUS_MAPPED) skipped ->
      status it = STATUS_FREE ->
      Q (before ++ anchor :: skipped ++ it :: rest) ->
      Q (before
           ++ with_size (wrap (size anchor + wrap (META_BLOCK_SIZE P + size it))) anchor
           :: skipped ++ rest)) ->
  NoDup (map addr l) -> Q l -> Q (coalesce_attempt P l).
Proof.
  intros Hstep Hnd HQ. unfold coalesce_attempt.
  apply (coalesce_walk_merges Q Hstep l [] None); simpl; auto.
Qed.

(** Nothing to merge: the pass leaves the list alone. *)
Lemma coalesce_walk_idle todo : forall c1 l,
  naf_from (match c1 with Some _ => true | None => false end) todo = true ->
  coalesce_walk P todo c1 l = l.
Proof.
  induction todo as [| it rest IH]; intros c1 l H; simpl in *; [reflexivity |].
  destruct (status it).
  - destruct c1; simpl in H; [discriminate |]. apply (IH (Some (addr it))), H.
  - apply (IH None), H.
  - apply IH, H.
Qed.

End CoalesceMore.

(** X1. The coalesce pass on the list it is given: afterwards no two heap
    blocks that follow each other in the list (mapped blocks stepped
    over) are both free, and the descriptors still have distinct
    addresses. *)
Theorem coalesce_attempt_no_adjacent_free (P : platform) (l : list block_meta) :
  NoDup (map addr l) ->
  no_adjacent_free (coalesce_attempt P l) = true
  /\ NoDup (map addr (coalesce_attempt P l)).
Proof. apply coalesce_attempt_sound. Qed.

(** X2. The coalesce pass changes a list exactly when two free heap blocks
    follow each other in it; so running it twice is running it once. *)
Theorem coalesce_attempt_fixed_point (P : platform) (l : list block_meta) :
  NoDup (map addr l) ->
  (coalesce_attempt P l = l <-> no_adjacent_free l = true)
  /\ coalesce_attempt P (coalesce_attempt P l) = coalesce_attempt P l.
Proof.
  intros Hnd.
  assert (Hidle : forall l', no_adjacent_free l' = true -> coalesce_attempt P l' = l').
  { intros l' H. unfold coalesce_attempt. apply (coalesce_walk_idle P l' None), H. }
  split.
  - split; [| apply Hidle].
    intros E. rewrite <- E. apply coalesce_attempt_sound, Hnd.
  - apply Hidle, coalesce_attempt_sound, Hnd.
Qed.

Lemma footprint_app P l1 l2 : footprint P (l1 ++ l2) = footprint P l1 + footprint P l2.
Proof. induction l1 as [| b l1 IH]; simpl; [reflexivity | rewrite IH; lia]. Qed.

Lemma footprint_nonneg P l : sizes_nonneg l -> 0 <= footprint P l.
Proof.
  intros H. pose proof (META_range P). induction H as [| b l Hb _ IH]; simpl; lia.
Qed.

Lemma live_blocks_app l1 l2 : live_blocks (l1 ++ l2) = live_blocks l1 ++ live_blocks l2.
Proof. apply filter_app. Qed.

(** X3. The coalesce pass neither loses nor invents memory, and it leaves
    the blocks in use alone: the allocated and mapped blocks are the same
    descriptors in the same order, and the descriptors and payloads of
    the list add up to the same number of bytes. *)
Theorem coalesce_attempt_conserves (P : platform) (l : list block_meta) :
  NoDup (map addr l) -> sizes_nonneg l -> footprint P l < 2 ^ 64 ->
  live_blocks (coalesce_attempt P l) = live_blocks l
  /\ footprint P (coalesce_attempt P l) = footprint P l
  /\ sizes_nonneg (coalesce_attempt P l).
Proof.
  intros Hnd Hs Hf.
  apply (coalesce_attempt_merges P
           (fun l' => live_blocks l' = live_blocks l
                      /\ footprint P l' = footprint P l /\ sizes_nonneg l'));
    [| exact Hnd | auto].
  intros before anchor skipped it rest _ Ha _ Hit (Hl & Hfp & Hsz).
  pose proof (META_range P) as HM.
  unfold sizes_nonneg in *.
  apply Forall_app in Hsz. destruct Hsz as [Hsb Hsz].
  apply Forall_cons_iff in Hsz. destruct Hsz as [Hsa Hsz].
  apply Forall_app in Hsz. destruct Hsz as [Hss Hsz].
  apply Forall_cons_iff in Hsz. destruct Hsz as [Hsi Hsr].
  rewrite footprint_app in Hfp. simpl in Hfp. rewrite footprint_app in Hfp. simpl in Hfp.
  pose proof (footprint_nonneg P before Hsb).
  pose proof (footprint_nonneg P skipped Hss).
  pose proof (footprint_nonneg P rest Hsr).
  assert (Hw : wrap (size anchor + wrap (META_BLOCK_SIZE P + size it))
               = size anchor + META_BLOCK_SIZE P + size it).
  { rewrite (wrap_small (META_BLOCK_SIZE P + size it)) by lia.
    rewrite wrap_small by lia. lia. }
  rewrite Hw. split; [| split].
  - rewrite <- Hl. rewrite !live_blocks_app. simpl. rewrite !live_blocks_app. simpl.
    rewrite Ha, Hit. reflexivity.
  - rewrite footprint_app. simpl. rewrite footprint_app. lia.
  - apply Forall_app. split; [exact Hsb |]. constructor; [simpl; lia |].
    apply Forall_app. split; assumption.
Qed.

(** * The layout of the heap *)

Lemma heap_blocks_app l1 l2 : heap_blocks (l1 ++ l2) = heap_blocks l1 ++ heap_blocks l2.
Proof. apply filter_app. Qed.

Lemma heap_blocks_mapped ms :
  Forall (fun m => status m = STATUS_MAPPED) ms -> heap_blocks ms = [].
Proof.
  intros H. induction H as [| m ms Hm _ IH]; [reflexivity |].
  unfold heap_blocks in *. simpl. rewrite Hm. simpl. exact IH.
Qed.

Lemma heap_blocks_sizes l : sizes_nonneg l -> sizes_nonneg (heap_blocks l).
Proof.
  unfold sizes_nonneg, heap_blocks. rewrite !Forall_forall.
  intros H b Hb. apply filter_In in Hb. apply H, Hb.
Qed.

Lemma laid_out_app P l1 : forall start l2,
  laid_out P start (l1 ++ l2) <->
  laid_out P start l1 /\ laid_out P (end_of P start l1) l2.
Proof.
  induction l1 as [| b l1 IH]; intros start l2; simpl; [tauto |].
  rewrite IH. tauto.
Qed.

Lemma end_of_app P l1 : forall start l2,
  end_of P start (l1 ++ l2) = end_of P (end_of P start l1) l2.
Proof. induction l1 as [| b l1 IH]; intros start l2; simpl; [reflexivity | apply IH]. Qed.

Lemma end_of_grows P l : forall start,
  sizes_nonneg l -> laid_out P start l -> start <= end_of P start l.
Proof.
  pose proof (META_range P) as HM.
  induction l as [| b l IH]; intros start Hs Hl; simpl; [lia |].
  apply Forall_cons_iff in Hs. destruct Hs as [Hb Hs]. destruct Hl as [Ha Hl].
  specialize (IH _ Hs Hl). lia.
Qed.

Lemma coalesce_attempt_layout (P : platform) (start : Z)
  (l : list block_meta) :
  NoDup (map addr l) -> sizes_nonneg l -> 0 < start ->
  laid_out P start (heap_blocks l) ->
  end_of P start (heap_blocks l) <= 2 ^ 64 ->
  laid_out P start (heap_blocks (coalesce_attempt P l))
  /\ end_of P start (heap_blocks (coalesce_attempt P l)) = end_of P start (heap_blocks l)
  /\ sizes_nonneg (coalesce_attempt P l).
Proof.
  intros Hnd Hs Hstart Hl Hend.
  apply (coalesce_attempt_merges P
           (fun l' => laid_out P start (heap_blocks l')
                      /\ end_of P start (heap_blocks l') = end_of P start (heap_blocks l)
                      /\ sizes_nonneg l'));
    [| exact Hnd | auto].
  intros before anchor skipped it rest _ Ha Hm Hit (Hlay & He & Hsz).
  pose proof (META_range P) as HM.
  assert (Hhb : forall x y,
             heap_blocks (before ++ x :: skipped ++ y) =
             heap_blocks before ++ heap_blocks [x] ++ heap_blocks y).
  { intros x y. rewrite heap_blocks_app.
    change (x :: skipped ++ y) with ([x] ++ skipped ++ y).
    rewrite !heap_blocks_app, (heap_blocks_mapped skipped Hm). reflexivity. }
  assert (Hfree : forall c, status c = STATUS_FREE -> heap_blocks [c] = [c]).
  { intros c Hc. unfold heap_blocks. simpl. rewrite Hc. reflexivity. }
  rewrite Hhb in Hlay, He. change (it :: rest) with ([it] ++ rest) in Hlay, He.
  rewrite heap_blocks_app, !Hfree in Hlay, He by assumption.
  rewrite Hhb, Hfree by (simpl; assumption).
  unfold sizes_nonneg in *.
  pose proof Hsz as Hsz0.
  apply Forall_app in Hsz. destruct Hsz as [Hsb Hsz].
  apply Forall_cons_iff in Hsz. destruct Hsz as [Hsa Hsz].
  apply Forall_app in Hsz. destruct Hsz as [Hss Hsz].
  apply Forall_cons_iff in Hsz. destruct Hsz as [Hsi Hsr].
  apply laid_out_app in Hlay. destruct Hlay as [Hlb Hlay].
  simpl in Hlay. destruct Hlay as (Eanchor & Eit & Hlr).
  rewrite end_of_app in He. simpl in He.
  pose proof (end_of_grows P (heap_blocks before) start
                (heap_blocks_sizes _ Hsb) Hlb) as Hge.
  pose proof (end_of_grows P (heap_blocks rest) _ (heap_blocks_sizes _ Hsr) Hlr) as Hge2.
  rewrite He in Hge2.
  assert (Hw : wrap (size anchor + wrap (META_BLOCK_SIZE P + size it))
               = size anchor + META_BLOCK_SIZE P + size it).
  { rewrite (wrap_small (META_BLOCK_SIZE P + size it)) by lia.
    rewrite wrap_small by lia. lia. }
  rewrite Hw. simpl. split; [| split].
  - apply laid_out_app. split; [exact Hlb |]. simpl. split; [exact Eanchor |].
    replace (addr anchor + META_BLOCK_SIZE P
             + (size anchor + META_BLOCK_SIZE P + size it))
      with (addr it + META_BLOCK_SIZE P + size it) by lia.
    exact Hlr.
  - rewrite end_of_app. simpl.
    replace (addr anchor + META_BLOCK_SIZE P
             + (size anchor + META_BLOCK_SIZE P + size it))
      with (addr it + META_BLOCK_SIZE P + size it) by lia.
    exact He.
  - apply Forall_app. split; [exact Hsb |]. constructor; [simpl; lia |].
    apply Forall_app. split; assumption.
Qed.

(** X4. The coalesce pass merges only blocks that touch in memory.  If the
    heap blocks of the list lie one after the other from [start] to an
    end inside the address space, they still do after the pass, from the
    same start to the same end: a merged block covers exactly the bytes
    of the blocks it absorbed, also when mapped blocks sat between them
    in the list. *)
Theorem coalesce_attempt_keeps_layout (P : platform) (start : Z)
  (l : list block_meta) :
  NoDup (map addr l) -> sizes_nonneg l -> 0 < start ->
  laid_out P start (heap_blocks l) ->
  end_of P start (heap_blocks l) <= 2 ^ 64 ->
  laid_out P start (heap_blocks (coalesce_attempt P l))
  /\ end_of P start (heap_blocks (coalesce_attempt P l)) = end_of P start (heap_blocks l)
  /\ sizes_nonneg (coalesce_attempt P l).
Proof. apply coalesce_attempt_layout. Qed.

(** * More on the links *)

Lemma ring_built head : forall l pre m,
  Links.ring m head pre -> NoDup (head :: pre ++ l) ->
  Links.ring (fold_left (fun m' b => Links.list_add_last head b m') l m) head (pre ++ l).
Proof.
  induction l as [| b l IH]; intros pre m Hr Hnd; simpl.
  - rewrite app_nil_r. exact Hr.
  - replace (pre ++ b :: l) with ((pre ++ [b]) ++ l) in *
      by (rewrite <- app_assoc; reflexivity).
    apply IH; [| exact Hnd].
    apply ring_add_last; [exact Hr |].
    change (head :: (pre ++ [b]) ++ l) with ((head :: pre ++ [b]) ++ l) in Hnd.
    apply NoDup_app_remove_r in Hnd.
    change (head :: pre ++ [b]) with ((head :: pre) ++ [b]) in Hnd.
    apply NoDup_remove_2 in Hnd. rewrite app_nil_r in Hnd. exact Hnd.
Qed.

(** X5. [head_init] followed by any number of [list_add_last], on
    descriptors at distinct addresses other than the sentinel's, builds a
    well-formed circular doubly-linked list: following [next] from the
    sentinel visits the blocks in the order they were added and comes
    back to the sentinel, and [prev] undoes every [next]. *)
Theorem list_add_last_builds_ring (head : Z) (m0 : Links.memory) (l : list Z) :
  NoDup (head :: l) ->
  Links.ring
    (fold_left (fun m b => Links.list_add_last head b m) l (Links.head_init head m0))
    head l.
Proof.
  intros Hnd. apply (ring_built head l [] (Links.head_init head m0)).
  - apply ring_head_init.
  - exact Hnd.
Qed.

(** X6. [list_remove_block] takes the block out of the circular list and
    leaves the rest well linked in the same order; the [prev] and [next]
    fields of the removed descriptor itself are not written, so a loop
    that removes the block under its iterator can still step to
    [iterator->next] afterwards, as [block_coalesce_to_size] does. *)
Theorem list_remove_block_unlinks (m : Links.memory) (head block : Z)
  (l1 l2 : list Z) :
  Links.ring m head (l1 ++ block :: l2) ->
  Links.ring (Links.list_remove_block block m) head (l1 ++ l2)
  /\ Links.list_remove_block block m block = m block
  /\ Links.next (m block) = hd head l2
  /\ Links.prev (m block) = last l1 head.
Proof.
  intros Hr. split; [apply ring_remove, Hr |].
  destruct Hr as [Hnd Hl]. apply linked_app in Hl. destruct Hl as [H1 H2].
  destruct (linked_start _ _ _ _ H2) as [En _].
  destruct (linked_end _ _ _ _ H1) as [_ Ep].
  split; [| split; assumption].
  assert (Hp : block <> last l1 head).
  { intros E. pose proof (last_in l1 head) as Hin. rewrite <- E in Hin.
    change (head :: l1 ++ block :: l2) with ((head :: l1) ++ block :: l2) in Hnd.
    apply NoDup_remove_2 in Hnd. apply Hnd. apply in_or_app. left. exact Hin. }
  assert (Hn : block <> hd head l2).
  { intros E. pose proof (hd_in l2 head) as Hin. rewrite <- E in Hin.
    apply NoDup_cons_iff in Hnd. destruct Hnd as [Hh Hnd].
    apply in_app_or in Hin. destruct Hin as [Hin | [Hin | []]].
    - apply NoDup_remove_2 in Hnd. apply Hnd. apply in_or_app. right. exact Hin.
    - apply Hh. rewrite Hin. apply in_or_app. right. left. reflexivity. }
  unfold Links.list_remove_block. cbv zeta.
  unfold Links.set_prev at 1.
  rewrite next_set_next, prev_set_next, Ep, En.
  replace (block =? last l1 head) with false by (symmetry; apply Z.eqb_neq; exact Hp).
  replace (block =? hd head l2) with false by (symmetry; apply Z.eqb_neq; exact Hn).
  unfold Links.set_next.
  replace (block =? last l1 head) with false by (symmetry; apply Z.eqb_neq; exact Hp).
  reflexivity.
Qed.

(** X7. Appending a block and removing it again puts every link of every
    other descriptor, the sentinel included, back as it was. *)
Theorem list_remove_block_undoes_add_last (m : Links.memory) (head block : Z)
  (l : list Z) :
  Links.ring m head l -> ~ In block (head :: l) ->
  forall x, x <> block ->
    Links.list_remove_block block (Links.list_add_last head block m) x = m x.
Proof.
  intros [Hnd Hl] Hb x Hx.
  destruct (linked_end _ _ _ _ Hl) as [Hnext Hprev].
  assert (Hlast : In (last l head) (head :: l)) by apply last_in.
  assert (Hbl : block <> last l head) by (intros E; apply Hb; rewrite E; exact Hlast).
  assert (Hbh : block <> head) by (intros E; apply Hb; left; auto).
  set (lst := last l head) in *.
  assert (Hrec : forall r r' : Links.links,
             Links.prev r = Links.prev r' -> Links.next r = Links.next r' -> r = r')
    by (intros [] [] ; simpl; congruence).
  unfold Links.list_remove_block, Links.list_add_last. cbv zeta.
  rewrite Hprev.
  repeat rewrite ?prev_set_prev, ?prev_set_next, ?next_set_prev, ?next_set_next,
    ?Z.eqb_refl.
  replace (block =? head) with false by (symmetry; apply Z.eqb_neq; exact Hbh).
  replace (if block =? lst then head else head) with head
    by (destruct (block =? lst); reflexivity).
  apply Hrec;
    repeat rewrite ?prev_set_prev, ?prev_set_next, ?next_set_prev, ?next_set_next,
      ?Z.eqb_refl;
    replace (x =? block) with false by (symmetry; apply Z.eqb_neq; exact Hx).
  - destruct (Z.eqb_spec x head) as [-> | Nh]; [symmetry; exact Hprev | reflexivity].
  - destruct (Z.eqb_spec x lst) as [-> | Nl]; [symmetry; exact Hnext | reflexivity].
Qed.

(** * The last block of the heap, again *)

Lemma last_on_heap_from_none l :
  last_on_heap_from l = None -> Forall (fun m => status m = STATUS_MAPPED) l.
Proof.
  induction l as [| c l IH]; simpl; [constructor |].
  destruct (status_eqb (status c) STATUS_MAPPED) eqn:E; [| discriminate].
  apply status_eqb_eq in E. intros H. constructor; auto.
Qed.

(** X8. [get_last_on_heap] returns the last block of the list that is
    not mapped, whatever number of mapped blocks follow it, and returns
    null exactly when every block of the list is mapped (in particular
    on the empty list). *)
Theorem get_last_on_heap_is_last_heap_block (l : list block_meta) :
  (forall b,
     get_last_on_heap l = Some b <->
     exists pre trailing, l = pre ++ b :: trailing
       /\ Forall (fun m => status m = STATUS_MAPPED) trailing
       /\ status b <> STATUS_MAPPED)
  /\ (get_last_on_heap l = None <-> Forall (fun m => status m = STATUS_MAPPED) l).
Proof.
  split; [intros b; apply get_last_on_heap_spec |].
  split.
  - unfold get_last_on_heap. intros H. apply last_on_heap_from_none in H.
    apply Forall_rev in H. rewrite rev_involutive in H. exact H.
  - apply get_last_on_heap_all_mapped.
Qed.

(** * First fit and best fit *)

Lemma first_fit_spec a l :
  match FirstDraft.find_free_block a l with
  | Some b =>
      exists i, nth_error l i = Some b /\ fits a b
        /\ forall j c, (j < i)%nat -> nth_error l j = Some c -> ~ fits a c
  | None => forall c, In c l -> ~ fits a c
  end.
Proof.
  induction l as [| it rest IH]; simpl.
  - intros c [].
  - destruct (status_eqb (status it) STATUS_FREE && (a <=? size it)) eqn:E.
    + exists 0%nat. split; [reflexivity |]. split.
      * apply andb_true_iff in E. destruct E as [E1 E2].
        split; [apply status_eqb_eq, E1 | apply Z.leb_le, E2].
      * intros j c Hj. inversion Hj.
    + assert (Hn : ~ fits a it).
      { intros [H1 H2]. apply status_eqb_eq in H1. apply Z.leb_le in H2.
        rewrite H1, H2 in E. discriminate. }
      destruct (FirstDraft.find_free_block a rest) as [b |].
      * destruct IH as (i & Hi & Hf & Hbefore). exists (S i).
        split; [exact Hi |]. split; [exact Hf |].
        intros [| j] c Hj Hc; simpl in Hc.
        -- inversion Hc; subst. exact Hn.
        -- apply (Hbefore j c); [lia | exact Hc].
      * intros c [<- | Hin]; [exact Hn | apply IH, Hin].
Qed.

(** X9. The first-fit search of the first draft returns the earliest free
    block of at least the requested size, and none when there is none.
    For an aligned request it succeeds on exactly the lists on which the
    final best-fit search succeeds; the block chosen by best fit is never
    larger and never earlier in the list than the one chosen by first
    fit. *)
Theorem first_fit_versus_best_fit (a : Z) (l : list block_meta) :
  0 <= a < 2 ^ 64 -> a mod 8 = 0 ->
  match FirstDraft.find_free_block a l, find_best_block a l with
  | Some f, Some b =>
      exists i j, nth_error l i = Some f /\ nth_error l j = Some b
        /\ (i <= j)%nat /\ size b <= size f
        /\ status f = STATUS_FREE /\ a <= size f
        /\ (forall k c, (k < i)%nat -> nth_error l k = Some c ->
              status c = STATUS_FREE -> size c < a)
  | None, None => forall c, In c l -> status c = STATUS_FREE -> size c < a
  | _, _ => False
  end.
Proof.
  intros Hr Ha.
  pose proof (first_fit_spec a l) as Hf.
  pose proof (find_best_block_best_of a l Hr Ha) as Hb.
  destruct (FirstDraft.find_free_block a l) as [f |];
    destruct (find_best_block a l) as [b |]; simpl in Hb.
  - destruct Hf as (i & Hi & Hfit & Hbefore).
    destruct Hb as (j & Hj & Hbfit & Hmin).
    exists i, j. split; [exact Hi |]. split; [exact Hj |].
    split; [| split; [apply (Hmin i f Hi Hfit) |]].
    + destruct (Nat.le_gt_cases i j) as [Hle | Hgt]; [exact Hle |].
      exfalso. apply (Hbefore j b Hgt Hj Hbfit).
    + destruct Hfit as [H1 H2]. split; [exact H1 |]. split; [exact H2 |].
      intros k c Hk Hc Hst.
      destruct (Z.lt_ge_cases (size c) a) as [Hlt | Hge]; [exact Hlt |].
      exfalso. apply (Hbefore k c Hk Hc). split; [exact Hst | lia].
  - destruct Hf as (i & Hi & Hfit & _).
    apply (Hb f); [eapply nth_error_In; eassumption | exact Hfit].
  - destruct Hb as (j & Hj & Hbfit & _).
    apply (Hf b); [eapply nth_error_In; eassumption | exact Hbfit].
  - intros c Hin Hst.
    destruct (Z.lt_ge_cases (size c) a) as [Hlt | Hge]; [exact Hlt |].
    exfalso. apply (Hf c Hin). split; [exact Hst | lia].
Qed.

(** * Freeing *)

Lemma search_mid P x l1 b l2 :
  away x l1 -> addr b = x ->
  search_in P (x + META_BLOCK_SIZE P) (l1 ++ b :: l2) = Some b.
Proof.
  unfold search_in. intros Ha Hb. induction Ha as [| c l1 Hc _ IH]; simpl.
  - replace (addr b + META_BLOCK_SIZE P =? x + META_BLOCK_SIZE P) with true
      by (symmetry; apply Z.eqb_eq; lia). reflexivity.
  - replace (addr c + META_BLOCK_SIZE P =? x + META_BLOCK_SIZE P) with false
      by (symmetry; apply Z.eqb_neq; lia). exact IH.
Qed.

(** What a returning [os_free] has done. *)
Lemma os_free_inv P p s s' :
  os_free P p s = Returns tt s' ->
  s' = s
  \/ exists b, search_in P p (blocks s) = Some b
       /\ (status b = STATUS_ALLOC
           /\ s' = Allocator true (heap_prealloc_done s)
                     (set_status (addr b) STATUS_FREE (blocks s)) (os s)
           \/ status b = STATUS_MAPPED
              /\ s' = Allocator true (heap_prealloc_done s)
                        (list_remove_block (addr b) (blocks s))
                        (Kernel (brk (os s))
                           (Munmap (addr b) (wrap (size b + META_BLOCK_SIZE P))
                              :: calls (os s)))).
Proof.
  intros H1.
  destruct (Z.eq_dec p NULL) as [-> | Hp].
  { left. unfold os_free in H1. cbn in H1. unfold op_ret in H1. congruence. }
  destruct (head_init_done s) eqn:Hh.
  2:{ left. unfold os_free in H1. apply Z.eqb_neq in Hp. rewrite Hp in H1.
      cbn in H1. unfold op_bind, search_block_in_list in H1. rewrite Hh in H1.
      destruct (NULL + META_BLOCK_SIZE P =? p); [| discriminate].
      cbn in H1. unfold op_ret in H1. congruence. }
  destruct (search_in P p (blocks s)) as [b |] eqn:Hb.
  2:{ left. rewrite (os_free_not_found P p s Hh Hb) in H1. congruence. }
  destruct (status b) eqn:Hst.
  - left. rewrite (os_free_of_free P s p b Hh Hp Hb Hst) in H1. congruence.
  - right. exists b. split; [reflexivity |]. left. split; [exact Hst |].
    rewrite (os_free_of_allocated P s p b Hh Hp Hb Hst) in H1. congruence.
  - right. exists b. split; [reflexivity |]. right. split; [exact Hst |].
    rewrite (os_free_found P s p b Hh Hp Hb), Hst in H1.
    unfold delete_mapped_block in H1. cbn in H1. unfold op_bind, get_blocks in H1.
    rewrite (search_lookup _ _ _ _ Hb), Hst in H1. cbn in H1.
    unfold op_bind, put_blocks, munmap_or_die in H1. cbn in H1.
    destruct (munmap_refused P (os s) (addr b) (wrap (size b + META_BLOCK_SIZE P)));
      [discriminate |].
    rewrite Hh in H1. congruence.
Qed.

Lemma others_after_mark P p x st l :
  x + META_BLOCK_SIZE P = p ->
  filter (fun c => negb (addr c + META_BLOCK_SIZE P =? p)) (set_status x st l)
  = filter (fun c => negb (addr c + META_BLOCK_SIZE P =? p)) l.
Proof.
  intros Hx. unfold set_status. induction l as [| c l IH]; simpl; [reflexivity |].
  destruct (Z.eqb_spec (addr c) x) as [E | N]; simpl.
  - replace (addr c + META_BLOCK_SIZE P =? p) with true
      by (symmetry; apply Z.eqb_eq; lia). simpl. exact IH.
  - rewrite IH. reflexivity.
Qed.

Lemma others_after_remove P p x l :
  x + META_BLOCK_SIZE P = p ->
  filter (fun c => negb (addr c + META_BLOCK_SIZE P =? p)) (list_remove_block x l)
  = filter (fun c => negb (addr c + META_BLOCK_SIZE P =? p)) l.
Proof.
  intros Hx. unfold list_remove_block. induction l as [| c l IH]; simpl; [reflexivity |].
  destruct (Z.eqb_spec (addr c) x) as [E | N]; simpl.
  - replace (addr c + META_BLOCK_SIZE P =? p) with true
      by (symmetry; apply Z.eqb_eq; lia). simpl. exact IH.
  - rewrite IH. reflexivity.
Qed.

(** X10. [os_free] never touches a block other than the one whose payload
    starts at the pointer: whenever it returns, every other descriptor is
    in the list as before, in the same order, the program break has not
    moved and both flags are as they were.  A pointer into the middle of
    a payload, or one that was never handed out, changes nothing. *)
Theorem os_free_touches_one_block (P : platform) (p : Z) (s s' : allocator) :
  os_free P p s = Returns tt s' ->
  filter (fun c => negb (addr c + META_BLOCK_SIZE P =? p)) (blocks s')
  = filter (fun c => negb (addr c + META_BLOCK_SIZE P =? p)) (blocks s)
  /\ brk (os s') = brk (os s)
  /\ heap_prealloc_done s' = heap_prealloc_done s
  /\ (search_in P p (blocks s) = None -> s' = s).
Proof.
  intros H. destruct (os_free_inv P p s s' H) as [-> | (b & Hb & Hcase)].
  - auto.
  - pose proof (search_in_payload P p _ b Hb) as Hpay.
    destruct Hcase as [[Hst ->] | [Hst ->]]; simpl.
    + rewrite others_after_mark by exact Hpay. repeat split; auto.
      rewrite Hb. discriminate.
    + rewrite others_after_remove by exact Hpay. repeat split; auto.
      rewrite Hb. discriminate.
Qed.

(** * Mapped blocks *)

Lemma map_block_in_mem_run P sz s :
  map_block_in_mem P sz s =
    match mmap_answer P (os s) (wrap (META_BLOCK_SIZE P + sz)) with
    | Some x =>
        Returns (Some x)
          (Allocator (head_init_done s) (heap_prealloc_done s)
             (list_add_last (Block x sz STATUS_MAPPED) (blocks s))
             (Kernel (brk (os s)) (Mmap (wrap (META_BLOCK_SIZE P + sz)) :: calls (os s))))
    | None =>
        Returns None
          (Allocator (head_init_done s) (heap_prealloc_done s) (blocks s)
             (Kernel (brk (os s)) (Mmap (wrap (META_BLOCK_SIZE P + sz)) :: calls (os s))))
    end.
Proof.
  unfold map_block_in_mem, bind, ret, Monad_op, op_bind, mmap.
  destruct (mmap_answer P (os s) (wrap (META_BLOCK_SIZE P + sz))); reflexivity.
Qed.

Lemma os_malloc_mapped_run P sz s :
  0 < sz -> MMAP_THRESHOLD <= wrap (ALIGN sz + META_BLOCK_SIZE P) ->
  os_malloc P sz s =
    match map_block_in_mem P (ALIGN sz) (with_head s) with
    | Returns (Some x) s1 => Returns (x + META_BLOCK_SIZE P) s1
    | Returns None s1 => Returns NULL s1
    | Dies => Dies
    | Faults => Faults
    end.
Proof.
  intros Hpos Hbig. unfold os_malloc. cbv zeta.
  replace (sz <=? 0) with false by (symmetry; apply Z.leb_gt; exact Hpos).
  replace (wrap (ALIGN sz + META_BLOCK_SIZE P) <? MMAP_THRESHOLD) with false
    by (symmetry; apply Z.ltb_ge; exact Hbig).
  unfold bind at 1. unfold Monad_op at 1, op_bind at 1. rewrite ensure_head_run.
  unfold bind, ret, Monad_op, op_bind.
  destruct (map_block_in_mem P (ALIGN sz) (with_head s)) as [[x |] s1 | |]; reflexivity.
Qed.

(** X11. A request above the threshold and its release are a round trip:
    [os_malloc] maps [META + ALIGN(size)] bytes at the address the kernel
    chose and appends one mapped block, [os_free] of the pointer it
    returned unmaps exactly that region and unlinks the block, and the
    block list is again what it was; the program break never moves. *)
Theorem os_malloc_os_free_mapped_round_trip (P : platform) (s : allocator)
  (sz x : Z) :
  0 < sz ->
  MMAP_THRESHOLD <= wrap (ALIGN sz + META_BLOCK_SIZE P) ->
  mmap_answer P (os s) (wrap (META_BLOCK_SIZE P + ALIGN sz)) = Some x ->
  away x (blocks (with_head s)) ->
  x + META_BLOCK_SIZE P <> NULL ->
  munmap_refused P
    (Kernel (brk (os s)) (Mmap (wrap (META_BLOCK_SIZE P + ALIGN sz)) :: calls (os s)))
    x (wrap (META_BLOCK_SIZE P + ALIGN sz)) = false ->
  exists s1 s2,
    os_malloc P sz s = Returns (x + META_BLOCK_SIZE P) s1
    /\ blocks s1 = blocks (with_head s) ++ [Block x (ALIGN sz) STATUS_MAPPED]
    /\ os_free P (x + META_BLOCK_SIZE P) s1 = Returns tt s2
    /\ blocks s2 = blocks (with_head s)
    /\ brk (os s2) = brk (os s)
    /\ calls (os s2) =
         Munmap x (wrap (META_BLOCK_SIZE P + ALIGN sz))
           :: Mmap (wrap (META_BLOCK_SIZE P + ALIGN sz)) :: calls (os s).
Proof.
  intros Hpos Hbig Hmap Hfresh Hnn Hunmap.
  assert (Hos : os (with_head s) = os s)
    by (unfold with_head, after_head_init; destruct (head_init_done s); reflexivity).
  rewrite os_malloc_mapped_run by assumption.
  rewrite map_block_in_mem_run, Hos, Hmap.
  eexists _, _. split; [reflexivity |]. split; [reflexivity |].
  set (B := Block x (ALIGN sz) STATUS_MAPPED).
  set (s1 := Allocator _ _ _ _).
  assert (Hfound : search_in P (x + META_BLOCK_SIZE P) (blocks s1) = Some B)
    by (apply search_mid; [exact Hfresh | reflexivity]).
  assert (Hh : head_init_done s1 = true) by apply with_head_init.
  rewrite (os_free_of_mapped P s1 (x + META_BLOCK_SIZE P) B Hh Hnn Hfound eq_refl).
  - split; [reflexivity |]. simpl.
    replace (ALIGN sz + META_BLOCK_SIZE P) with (META_BLOCK_SIZE P + ALIGN sz) by lia.
    split; [| split; reflexivity].
    unfold list_add_last. rewrite remove_mid by (auto; constructor).
    apply app_nil_r.
  - simpl. replace (ALIGN sz + META_BLOCK_SIZE P) with (META_BLOCK_SIZE P + ALIGN sz) by lia.
    exact Hunmap.
Qed.

(** * What the placement hands out *)

Section PlacementRun.

Variable P : platform.

(** The outcome of [expand_last_block], system call by system call. *)
Lemma expand_last_block_run a t :
  expand_last_block P a t =
    match get_last_on_heap (blocks t) with
    | None => Returns None t
    | Some last_block =>
        let d := as_signed (wrap (a - size last_block)) in
        if sbrk_refused P (os t) d then
          Returns None
            (Allocator (head_init_done t) (heap_prealloc_done t) (blocks t)
               (Kernel (brk (os t)) (Sbrk d :: calls (os t))))
        else
          Returns (Some (addr last_block))
            (Allocator (head_init_done t) (heap_prealloc_done t)
               (set_size (addr last_block)
                  (wrap (size last_block + wrap (a - size last_block))) (blocks t))
               (Kernel (brk (os t) + d) (Sbrk d :: calls (os t))))
    end.
Proof.
  unfold expand_last_block, bind, ret, Monad_op, op_bind, get_blocks, sbrk, put_blocks.
  destruct (get_last_on_heap (blocks t)) as [last |]; [| reflexivity].
  cbv zeta. destruct (sbrk_refused P (os t) (as_signed (wrap (a - size last))));
    reflexivity.
Qed.

(** The outcome of the placement, case by case. *)
Lemma placement_run sz t :
  placement P sz t =
    let l := coalesce_attempt P (blocks t) in
    let t1 := Allocator (head_init_done t) (heap_prealloc_done t) l (os t) in
    match find_best_block (ALIGN sz) l with
    | Some best_block =>
        Returns (Some (addr best_block))
          (Allocator (head_init_done t) (heap_prealloc_done t)
             (split_block_attempt P (addr best_block) (ALIGN sz) l) (os t))
    | None =>
        if match get_last_on_heap l with
           | Some last_on_heap => status_eqb (status last_on_heap) STATUS_FREE
           | None => false
           end
        then expand_last_block P (ALIGN sz) t1
        else
          let d := as_signed (wrap (META_BLOCK_SIZE P + ALIGN sz)) in
          if sbrk_refused P (os t) d then
            Returns None
              (Allocator (head_init_done t) (heap_prealloc_done t) l
                 (Kernel (brk (os t)) (Sbrk d :: calls (os t))))
          else
            Returns (Some (brk (os t)))
              (Allocator (head_init_done t) (heap_prealloc_done t)
                 (list_add_last (Block (brk (os t)) (ALIGN sz) (stale_status P)) l)
                 (Kernel (brk (os t) + d) (Sbrk d :: calls (os t))))
    end.
Proof.
  unfold placement, coalesce_pass, bind, ret, Monad_op, op_bind, get_blocks, put_blocks.
  cbv zeta. cbn [blocks head_init_done heap_prealloc_done os].
  destruct (find_best_block (ALIGN sz) (coalesce_attempt P (blocks t))); [reflexivity |].
  destruct (match get_last_on_heap (coalesce_attempt P (blocks t)) with
            | Some last_on_heap => status_eqb (status last_on_heap) STATUS_FREE
            | None => false
            end); [reflexivity |].
  unfold sbrk. cbn [blocks head_init_done heap_prealloc_done os].
  destruct (sbrk_refused P (os t) (as_signed (wrap (META_BLOCK_SIZE P + ALIGN sz))));
    reflexivity.
Qed.

Lemma last_is_free_ends l :
  match get_last_on_heap l with
  | Some last_on_heap => status_eqb (status last_on_heap) STATUS_FREE
  | None => false
  end = ends_free false l.
Proof.
  destruct (get_last_on_heap l) as [b |] eqn:E.
  - apply get_last_on_heap_spec in E.
    destruct E as (pre & trailing & -> & Hm & Hb).
    rewrite ends_free_app. simpl.
    destruct (status b); try congruence; simpl; symmetry; apply naf_from_mapped, Hm.
  - unfold get_last_on_heap in E. apply last_on_heap_from_none in E.
    apply Forall_rev in E. rewrite rev_involutive in E.
    symmetry. apply naf_from_mapped, E.
Qed.

Lemma coalesce_attempt_keeps_end l :
  NoDup (map addr l) ->
  ends_free false (coalesce_attempt P l) = ends_free false l.
Proof.
  intros Hnd.
  apply (coalesce_attempt_merges P (fun l' => ends_free false l' = ends_free false l));
    [| exact Hnd | reflexivity].
  intros before anchor skipped it rest _ Ha Hm Hit <-.
  rewrite !ends_free_app. simpl. rewrite Ha. simpl.
  rewrite !ends_free_app. simpl. rewrite Hit.
  rewrite (proj2 (naf_from_mapped true skipped Hm)). reflexivity.
Qed.

Lemma coalesce_attempt_keeps_away x l :
  NoDup (map addr l) -> away x l -> away x (coalesce_attempt P l).
Proof.
  intros Hnd Ha.
  apply (coalesce_attempt_merges P (away x)); [| exact Hnd | exact Ha].
  intros before anchor skipped it rest _ _ _ _ H. unfold away in *.
  apply Forall_app in H. destruct H as [H1 H].
  apply Forall_cons_iff in H. destruct H as [H2 H].
  apply Forall_app in H. destruct H as [H3 H].
  apply Forall_cons_iff in H. destruct H as [_ H4].
  apply Forall_app. split; [exact H1 |]. constructor; [exact H2 |].
  apply Forall_app. split; assumption.
Qed.

Lemma coalesce_attempt_sizes l :
  NoDup (map addr l) -> sizes_nonneg l -> sizes_nonneg (coalesce_attempt P l).
Proof.
  intros Hnd Hs.
  apply (coalesce_attempt_merges P sizes_nonneg); [| exact Hnd | exact Hs].
  intros before anchor skipped it rest _ _ _ _ H. unfold sizes_nonneg in *.
  apply Forall_app in H. destruct H as [H1 H].
  apply Forall_cons_iff in H. destruct H as [H2 H].
  apply Forall_app in H. destruct H as [H3 H].
  apply Forall_cons_iff in H. destruct H as [_ H4].
  apply Forall_app. split; [exact H1 |].
  constructor; [simpl; apply wrap_range |].
  apply Forall_app. split; assumption.
Qed.

End PlacementRun.

Lemma wrap_add_sub a x : 0 <= a < 2 ^ 64 -> wrap (x + wrap (a - x)) = a.
Proof.
  intros Ha. unfold wrap. rewrite Z.add_mod_idemp_r by lia.
  replace (x + (a - x)) with a by lia. apply Z.mod_small, Ha.
Qed.

Lemma split_shape_sizes P l1 b l2 a :
  NoDup (map addr (l1 ++ b :: l2)) ->
  split_block_attempt P (addr b) a (l1 ++ b :: l2) = l1 ++ b :: l2
  \/ exists nb,
       split_block_attempt P (addr b) a (l1 ++ b :: l2)
       = l1 ++ Block (addr b) (ALIGN a) (status b) :: nb :: l2
       /\ status nb = STATUS_FREE.
Proof.
  intros Hnd. destruct (NoDup_mid _ _ _ Hnd) as (H1 & H2 & _).
  unfold split_block_attempt. rewrite lookup_mid by auto.
  destruct (size b =? ALIGN a); [left; reflexivity |].
  destruct (size b <=? wrap (wrap (ALIGN a + META_BLOCK_SIZE P) + 1));
    [left; reflexivity |].
  right. rewrite set_size_mid by auto. rewrite link_after_mid by auto.
  eexists. split; reflexivity.
Qed.

Section Ownership.

Variable P : platform.

Lemma owned_mid a l1 b l2 :
  away (addr b) l1 -> a <= size b ->
  owned P a (addr b) (l1 ++ b :: l2).
Proof.
  intros Ha Hs. exists (with_status STATUS_ALLOC b).
  split; [| simpl; auto].
  apply search_marked. apply search_mid; auto.
Qed.

Lemma placement_owned sz t :
  NoDup (map addr (blocks t)) ->
  (ends_free false (blocks t) = false -> away (brk (os t)) (blocks t)) ->
  exists r t', placement P sz t = Returns r t'
    /\ match r with
       | Some hb => owned P (ALIGN sz) hb (blocks t')
       | None => True
       end.
Proof.
  intros Hnd Hbrk. rewrite placement_run. cbv zeta.
  destruct (coalesce_attempt_sound P _ Hnd) as [_ Hnd'].
  pose proof (coalesce_attempt_keeps_end P _ Hnd) as Hend.
  set (l := coalesce_attempt P (blocks t)) in *.
  pose proof (ALIGN_range sz) as Hr.
  destruct (find_best_block (ALIGN sz) l) as [best |] eqn:Hbest.
  - eexists _, _. split; [reflexivity |]. cbn [blocks].
    pose proof (find_best_block_best_of (ALIGN sz) l Hr (ALIGN_mod8 sz)) as Hb.
    rewrite Hbest in Hb. destruct Hb as (i & Hi & [_ Hfit] & _).
    apply nth_error_In, in_split in Hi. destruct Hi as (l1 & l2 & Hl).
    rewrite Hl in *. destruct (NoDup_mid _ _ _ Hnd') as (A1 & _ & _).
    destruct (split_shape_sizes P l1 best l2 (ALIGN sz) Hnd') as [-> | (nb & -> & _)].
    + apply owned_mid; auto.
    + rewrite ALIGN_idem.
      apply (owned_mid (ALIGN sz) l1 (Block (addr best) (ALIGN sz) (status best)));
        [exact A1 | simpl; lia].
  - rewrite last_is_free_ends. destruct (ends_free false l) eqn:Hfree.
    + rewrite expand_last_block_run. cbn [blocks head_init_done heap_prealloc_done os].
      destruct (get_last_on_heap l) as [last |] eqn:Hlast.
      2:{ exfalso. pose proof (last_is_free_ends l) as E. rewrite Hlast, Hfree in E.
          discriminate. }
      cbv zeta.
      destruct (sbrk_refused P (os t) (as_signed (wrap (ALIGN sz - size last)))).
      * eexists _, _. split; [reflexivity | exact I].
      * eexists _, _. split; [reflexivity |]. cbn [blocks].
        apply get_last_on_heap_spec in Hlast.
        destruct Hlast as (pre & trailing & Hl & _ & _). rewrite Hl in *.
        destruct (NoDup_mid _ _ _ Hnd') as (A1 & A2 & _).
        rewrite set_size_mid by auto. rewrite wrap_add_sub by exact Hr.
        apply (owned_mid (ALIGN sz) pre (with_size (ALIGN sz) last));
          [exact A1 | simpl; lia].
    + destruct (sbrk_refused P (os t)
                  (as_signed (wrap (META_BLOCK_SIZE P + ALIGN sz)))).
      * eexists _, _. split; [reflexivity | exact I].
      * eexists _, _. split; [reflexivity |]. cbn [blocks]. unfold list_add_last.
        apply (owned_mid (ALIGN sz) l (Block (brk (os t)) (ALIGN sz) (stale_status P)));
          [| simpl; lia].
        apply coalesce_attempt_keeps_away; [exact Hnd |].
        apply Hbrk. symmetry. exact Hend.
Qed.

Lemma get_free_heap_block_owned sz s :
  NoDup (map addr (blocks s)) -> away (brk (os s)) (blocks s) ->
  exists r s', get_free_heap_block P sz s = Returns r s'
    /\ match r with
       | Some hb => owned P (ALIGN sz) hb (blocks s')
       | None => True
       end.
Proof.
  intros Hnd Hbrk. rewrite get_free_heap_block_unfold, prealloc_heap_attempt_cases.
  destruct (heap_prealloc_done s).
  - apply placement_owned; auto.
  - destruct (sbrk_refused P (os s) HEAP_PREALLOC_SIZE).
    + eexists _, _. split; [reflexivity | exact I].
    + apply placement_owned; cbn [blocks os brk]; unfold list_add_last.
      * rewrite map_app.
        apply (proj2 (NoDup_Add (Add_app (brk (os s)) (map addr (blocks s)) []))).
        rewrite app_nil_r. split; [exact Hnd |]. apply away_not_in, Hbrk.
      * rewrite ends_free_app. simpl. discriminate.
Qed.

End Ownership.

Lemma with_head_blocks (Q : list block_meta -> Prop) s :
  Q (blocks s) -> Q [] -> Q (blocks (with_head s)).
Proof.
  intros H1 H2. unfold with_head, after_head_init.
  destruct (head_init_done s); simpl; assumption.
Qed.

Lemma with_head_os s : os (with_head s) = os s.
Proof. unfold with_head, after_head_init. destruct (head_init_done s); reflexivity. Qed.

Lemma os_malloc_hands_out (P : platform) (s : allocator) (sz : Z) :
  0 < sz ->
  NoDup (map addr (blocks s)) ->
  away (brk (os s)) (blocks s) ->
  (forall x, mmap_answer P (os s) (wrap (META_BLOCK_SIZE P + ALIGN sz)) = Some x ->
             away x (blocks s)) ->
  exists p s',
    os_malloc P sz s = Returns p s'
    /\ (p = NULL
        \/ exists b,
             search_in P p (blocks s') = Some b
             /\ p = addr b + META_BLOCK_SIZE P
             /\ status b <> STATUS_FREE
             /\ ALIGN sz <= size b).
Proof.
  intros Hpos Hnd Hbrk Hmap.
  destruct (Z.ltb_spec (wrap (ALIGN sz + META_BLOCK_SIZE P)) MMAP_THRESHOLD)
    as [Hheap | Hbig].
  - unfold os_malloc. cbv zeta.
    replace (sz <=? 0) with false by (symmetry; apply Z.leb_gt; exact Hpos).
    replace (wrap (ALIGN sz + META_BLOCK_SIZE P) <? MMAP_THRESHOLD) with true
      by (symmetry; apply Z.ltb_lt; exact Hheap).
    unfold bind at 1. unfold Monad_op at 1, op_bind at 1. rewrite ensure_head_run.
    destruct (get_free_heap_block_owned P (ALIGN sz) (with_head s))
      as (r & s1 & Hrun & Hown).
    + apply (with_head_blocks (fun l => NoDup (map addr l))); [exact Hnd | constructor].
    + rewrite with_head_os.
      apply (with_head_blocks (away (brk (os s)))); [exact Hbrk | constructor].
    + unfold bind at 1. unfold Monad_op at 1, op_bind at 1. rewrite Hrun.
      destruct r as [hb |].
      * eexists _, _. split; [reflexivity |]. right.
        destruct Hown as (b & Hb & Ha & Hst & Hsz). rewrite ALIGN_idem in Hsz.
        exists b. cbn [blocks]. repeat split; auto; [lia | congruence].
      * eexists _, _. split; [reflexivity |]. left. reflexivity.
  - rewrite os_malloc_mapped_run by assumption.
    rewrite map_block_in_mem_run, with_head_os.
    destruct (mmap_answer P (os s) (wrap (META_BLOCK_SIZE P + ALIGN sz))) as [x |] eqn:Hx.
    + eexists _, _. split; [reflexivity |]. right.
      exists (Block x (ALIGN sz) STATUS_MAPPED). cbn [blocks]. unfold list_add_last.
      split; [| simpl; repeat split; [discriminate | lia]].
      apply search_mid; [| reflexivity].
      apply (with_head_blocks (away x)); [apply Hmap; reflexivity | constructor].
    + eexists _, _. split; [reflexivity |]. left. reflexivity.
Qed.


(** * The program break under requests of ordinary size *)

Lemma break_kept_refl s s' :
  os s' = os s -> break_kept s s'.
Proof. intros E. unfold break_kept. rewrite E. split; [lia |]. exists []. auto. Qed.

Lemma break_kept_step s s' c d :
  brk (os s') = brk (os s) + d -> 0 <= d ->
  calls (os s') = c :: calls (os s) -> sbrk_upward c ->
  break_kept s s'.
Proof.
  intros Hb Hd Hc Hu. split; [lia |]. exists [c]. split; [exact Hc | auto].
Qed.

Lemma break_kept_trans s1 s2 s3 :
  break_kept s1 s2 -> break_kept s2 s3 -> break_kept s1 s3.
Proof.
  intros [H1 (n1 & E1 & F1)] [H2 (n2 & E2 & F2)]. split; [lia |].
  exists (n2 ++ n1). split; [rewrite E2, E1, app_assoc; reflexivity |].
  apply Forall_app. auto.
Qed.

Section BreakKept.

Variable P : platform.

Lemma placement_break_kept sz t :
  NoDup (map addr (blocks t)) -> sizes_nonneg (blocks t) ->
  ALIGN sz + META_BLOCK_SIZE P < 2 ^ 63 ->
  exists r t', placement P sz t = Returns r t' /\ break_kept t t'.
Proof.
  intros Hnd Hs Hsmall. rewrite placement_run. cbv zeta.
  destruct (coalesce_attempt_sound P _ Hnd) as [_ Hnd'].
  pose proof (coalesce_attempt_sizes P _ Hnd Hs) as Hs'.
  set (l := coalesce_attempt P (blocks t)) in *.
  pose proof (ALIGN_range sz) as Hr. pose proof (META_range P) as HM.
  destruct (find_best_block (ALIGN sz) l) as [best |] eqn:Hbest.
  - eexists _, _. split; [reflexivity |]. apply break_kept_refl. reflexivity.
  - pose proof (find_best_block_best_of (ALIGN sz) l Hr (ALIGN_mod8 sz)) as Hnone.
    rewrite Hbest in Hnone. simpl in Hnone.
    destruct (get_last_on_heap l) as [last |] eqn:Hlast.
    + destruct (status_eqb (status last) STATUS_FREE) eqn:Hfree.
      * rewrite expand_last_block_run.
        cbn [blocks head_init_done heap_prealloc_done os]. rewrite Hlast. cbv zeta.
        apply status_eqb_eq in Hfree.
        assert (Hin : In last l).
        { apply get_last_on_heap_spec in Hlast.
          destruct Hlast as (pre & trailing & -> & _). apply in_or_app. right. left.
          reflexivity. }
        assert (Hlt : size last < ALIGN sz).
        { destruct (Z.lt_ge_cases (size last) (ALIGN sz)) as [H | H]; [exact H |].
          exfalso. apply (Hnone last Hin). split; [exact Hfree | lia]. }
        assert (H0 : 0 <= size last).
        { unfold sizes_nonneg in Hs'. rewrite Forall_forall in Hs'. apply Hs', Hin. }
        rewrite (wrap_small (ALIGN sz - size last)) by lia.
        rewrite as_signed_small by lia.
        destruct (sbrk_refused P (os t) (ALIGN sz - size last)).
        -- eexists _, _. split; [reflexivity |].
           apply (break_kept_step _ _ (Sbrk (ALIGN sz - size last)) 0);
             simpl; auto; lia.
        -- eexists _, _. split; [reflexivity |].
           apply (break_kept_step _ _ (Sbrk (ALIGN sz - size last))
                    (ALIGN sz - size last)); simpl; auto; lia.
      * rewrite (wrap_small (META_BLOCK_SIZE P + ALIGN sz)) by lia.
        rewrite as_signed_small by lia.
        destruct (sbrk_refused P (os t) (META_BLOCK_SIZE P + ALIGN sz)).
        -- eexists _, _. split; [reflexivity |].
           apply (break_kept_step _ _ (Sbrk (META_BLOCK_SIZE P + ALIGN sz)) 0);
             simpl; auto; lia.
        -- eexists _, _. split; [reflexivity |].
           apply (break_kept_step _ _ (Sbrk (META_BLOCK_SIZE P + ALIGN sz))
                    (META_BLOCK_SIZE P + ALIGN sz)); simpl; auto; lia.
    + rewrite (wrap_small (META_BLOCK_SIZE P + ALIGN sz)) by lia.
      rewrite as_signed_small by lia.
      destruct (sbrk_refused P (os t) (META_BLOCK_SIZE P + ALIGN sz)).
      * eexists _, _. split; [reflexivity |].
        apply (break_kept_step _ _ (Sbrk (META_BLOCK_SIZE P + ALIGN sz)) 0);
          simpl; auto; lia.
      * eexists _, _. split; [reflexivity |].
        apply (break_kept_step _ _ (Sbrk (META_BLOCK_SIZE P + ALIGN sz))
                 (META_BLOCK_SIZE P + ALIGN sz)); simpl; auto; lia.
Qed.

Lemma get_free_heap_block_break_kept sz s :
  NoDup (map addr (blocks s)) -> away (brk (os s)) (blocks s) ->
  sizes_nonneg (blocks s) ->
  ALIGN sz + META_BLOCK_SIZE P < 2 ^ 63 ->
  exists r s', get_free_heap_block P sz s = Returns r s' /\ break_kept s s'.
Proof.
  intros Hnd Hbrk Hs Hsmall.
  rewrite get_free_heap_block_unfold, prealloc_heap_attempt_cases.
  destruct (heap_prealloc_done s).
  - apply placement_break_kept; auto.
  - destruct (sbrk_refused P (os s) HEAP_PREALLOC_SIZE).
    + eexists _, _. split; [reflexivity |].
      apply (break_kept_step _ _ (Sbrk HEAP_PREALLOC_SIZE) 0); simpl; auto;
        unfold HEAP_PREALLOC_SIZE; lia.
    + match goal with
      | |- exists r s', placement P sz ?t = _ /\ _ =>
          destruct (placement_break_kept sz t) as (r & s' & Hrun & Hk)
      end.
      * cbn [blocks]. unfold list_add_last. rewrite map_app.
        apply (proj2 (NoDup_Add (Add_app (brk (os s)) (map addr (blocks s)) []))).
        rewrite app_nil_r. split; [exact Hnd |]. apply away_not_in, Hbrk.
      * cbn [blocks]. unfold list_add_last, sizes_nonneg.
        apply Forall_app. split; [exact Hs |]. constructor; [| constructor].
        simpl. apply wrap_range.
      * exact Hsmall.
      * exists r, s'. split; [exact Hrun |].
        eapply break_kept_trans; [| exact Hk].
        apply (break_kept_step _ _ (Sbrk HEAP_PREALLOC_SIZE) HEAP_PREALLOC_SIZE);
          simpl; auto; unfold HEAP_PREALLOC_SIZE; lia.
Qed.

End BreakKept.


(** * The heap blocks tile the break area *)

Lemma laid_out_within P l : forall from,
  sizes_nonneg l -> laid_out P from l ->
  forall c, In c l ->
    from <= addr c /\ addr c + META_BLOCK_SIZE P + size c <= end_of P from l.
Proof.
  pose proof (META_range P) as HM.
  induction l as [| b l IH]; intros from Hs Hl c Hc; [destruct Hc |].
  apply Forall_cons_iff in Hs. destruct Hs as [Hb Hs]. destruct Hl as [Ha Hl].
  simpl. pose proof (end_of_grows P l _ Hs Hl) as Hg.
  destruct Hc as [<- | Hc]; [lia |].
  destruct (IH _ Hs Hl c Hc) as [H1 H2]. lia.
Qed.

Section Tiles.

Variable P : platform.
Local Abbreviation META := (META_BLOCK_SIZE P).

Variables start limit : Z.
Hypothesis start_pos : 0 < start.
Hypothesis limit_small : limit < 2 ^ 63.
Hypothesis meta_pos : 0 < META.

Lemma heap_blocks_mid l1 b l2 :
  status b <> STATUS_MAPPED ->
  heap_blocks (l1 ++ b :: l2) = heap_blocks l1 ++ b :: heap_blocks l2.
Proof.
  intros Hb. rewrite heap_blocks_app. f_equal. unfold heap_blocks. simpl.
  destruct (status b); try reflexivity. contradiction.
Qed.

Lemma heap_blocks_mid_mapped l1 b l2 :
  status b = STATUS_MAPPED ->
  heap_blocks (l1 ++ b :: l2) = heap_blocks (l1 ++ l2).
Proof.
  intros Hb. rewrite !heap_blocks_app. f_equal. unfold heap_blocks. simpl.
  rewrite Hb. reflexivity.
Qed.

Lemma tiles_within top l c :
  tiles P start limit top l -> In c l -> status c <> STATUS_MAPPED ->
  start <= addr c /\ addr c + META + size c <= top.
Proof.
  intros (_ & Hs & Hl & He & _) Hc Hst. rewrite <- He.
  apply laid_out_within; [apply heap_blocks_sizes, Hs | exact Hl |].
  unfold heap_blocks. apply filter_In. split; [exact Hc |].
  destruct (status c); try reflexivity. contradiction.
Qed.

Lemma tiles_size top l c :
  tiles P start limit top l -> In c l -> 0 <= size c.
Proof.
  intros (_ & Hs & _) Hc. unfold sizes_nonneg in Hs. rewrite Forall_forall in Hs.
  apply Hs, Hc.
Qed.

Lemma tiles_away top l x :
  tiles P start limit top l -> top <= x <= limit -> away x l.
Proof.
  intros Ht Hx. unfold away. apply Forall_forall. intros c Hc.
  destruct (status_eqb (status c) STATUS_MAPPED) eqn:E.
  - apply status_eqb_eq in E. destruct Ht as (_ & _ & _ & _ & Hm).
    rewrite Forall_forall in Hm. specialize (Hm c Hc E). lia.
  - assert (Hst : status c <> STATUS_MAPPED).
    { intros H. rewrite H in E. discriminate. }
    destruct (tiles_within _ _ _ Ht Hc Hst) as [_ H].
    pose proof (tiles_size _ _ _ Ht Hc). lia.
Qed.

Lemma tiles_top top l : tiles P start limit top l -> start <= top.
Proof.
  intros (_ & Hs & Hl & He & _). rewrite <- He.
  apply end_of_grows; [apply heap_blocks_sizes, Hs | exact Hl].
Qed.

Lemma tiles_coalesce top l :
  tiles P start limit top l -> top <= limit ->
  tiles P start limit top (coalesce_attempt P l).
Proof.
  intros (Hnd & Hs & Hl & He & Hm) Htop.
  destruct (coalesce_attempt_layout P start l Hnd Hs start_pos Hl ltac:(lia))
    as (Hl' & He' & Hs').
  split; [apply coalesce_attempt_sound, Hnd |].
  split; [exact Hs' |]. split; [exact Hl' |]. split; [congruence |].
  apply (coalesce_attempt_merges P
           (Forall (fun b => status b = STATUS_MAPPED -> limit < addr b)));
    [| exact Hnd | exact Hm].
  intros before anchor skipped it rest _ _ _ _ H.
  apply Forall_app in H. destruct H as [H1 H].
  apply Forall_cons_iff in H. destruct H as [H2 H].
  apply Forall_app in H. destruct H as [H3 H].
  apply Forall_cons_iff in H. destruct H as [_ H4].
  apply Forall_app. split; [exact H1 |]. constructor; [exact H2 |].
  apply Forall_app. split; assumption.
Qed.

Lemma tiles_add_heap top l sz st :
  tiles P start limit top l -> top <= limit -> 0 <= sz -> st <> STATUS_MAPPED ->
  tiles P start limit (top + META + sz) (l ++ [Block top sz st]).
Proof.
  intros Ht Htop Hsz Hst. pose proof (tiles_away _ _ top Ht ltac:(lia)) as Ha.
  destruct Ht as (Hnd & Hs & Hl & He & Hm).
  split; [| split; [| split; [| split]]].
  - rewrite map_app.
    apply (proj2 (NoDup_Add (Add_app top (map addr l) []))).
    rewrite app_nil_r. split; [exact Hnd |]. apply away_not_in, Ha.
  - apply Forall_app. split; [exact Hs |]. constructor; [exact Hsz | constructor].
  - rewrite heap_blocks_mid by exact Hst. apply laid_out_app.
    split; [exact Hl |]. simpl. auto.
  - rewrite heap_blocks_mid by exact Hst. rewrite end_of_app. simpl. lia.
  - apply Forall_app. split; [exact Hm |]. constructor; [| constructor].
    simpl. intros H. contradiction.
Qed.

Lemma tiles_add_mapped top l x sz :
  tiles P start limit top l -> limit < x -> away x l -> 0 <= sz ->
  tiles P start limit top (l ++ [Block x sz STATUS_MAPPED]).
Proof.
  intros (Hnd & Hs & Hl & He & Hm) Hx Ha Hsz.
  split; [| split; [| split; [| split]]].
  - rewrite map_app.
    apply (proj2 (NoDup_Add (Add_app x (map addr l) []))).
    rewrite app_nil_r. split; [exact Hnd |]. apply away_not_in, Ha.
  - apply Forall_app. split; [exact Hs |]. constructor; [exact Hsz | constructor].
  - rewrite heap_blocks_mid_mapped by reflexivity. rewrite app_nil_r. exact Hl.
  - rewrite heap_blocks_mid_mapped by reflexivity. rewrite app_nil_r. exact He.
  - apply Forall_app. split; [exact Hm |]. constructor; [| constructor].
    simpl. intros _. exact Hx.
Qed.

Lemma tiles_status top l1 b l2 st :
  tiles P start limit top (l1 ++ b :: l2) ->
  status b <> STATUS_MAPPED -> st <> STATUS_MAPPED ->
  tiles P start limit top (l1 ++ with_status st b :: l2).
Proof.
  intros (Hnd & Hs & Hl & He & Hm) Hb Hst.
  rewrite heap_blocks_mid in Hl, He by exact Hb.
  split; [| split; [| split; [| split]]].
  - rewrite map_app in *. exact Hnd.
  - unfold sizes_nonneg in *. apply Forall_app in Hs. destruct Hs as [H1 H2].
    apply Forall_cons_iff in H2. destruct H2 as [H2 H3].
    apply Forall_app. split; [exact H1 |]. constructor; assumption.
  - rewrite heap_blocks_mid by exact Hst. apply laid_out_app in Hl.
    apply laid_out_app. exact Hl.
  - rewrite heap_blocks_mid by exact Hst. rewrite end_of_app in *. exact He.
  - apply Forall_app in Hm. destruct Hm as [H1 H2].
    apply Forall_cons_iff in H2. destruct H2 as [_ H3].
    apply Forall_app. split; [exact H1 |]. constructor; [| exact H3].
    simpl. intros H. contradiction.
Qed.

Lemma tiles_split top l1 b l2 a :
  tiles P start limit top (l1 ++ b :: l2) -> top <= limit ->
  status b <> STATUS_MAPPED -> 0 <= a -> a + META <= size b ->
  tiles P start limit top
    (l1 ++ Block (addr b) a (status b)
        :: Block (addr b + META + a) (size b - a - META) STATUS_FREE :: l2).
Proof.
  intros Ht Htop Hb Ha Hroom.
  assert (Hnew : away (addr b + META + a) (l1 ++ b :: l2)).
  { unfold away. apply Forall_forall. intros c Hc.
    destruct (status_eqb (status c) STATUS_MAPPED) eqn:E.
    - apply status_eqb_eq in E.
      assert (Hin : In b (l1 ++ b :: l2)) by (apply in_or_app; right; left; reflexivity).
      destruct (tiles_within _ _ _ Ht Hin Hb) as [_ H].
      destruct Ht as (_ & _ & _ & _ & Hm).
      rewrite Forall_forall in Hm. specialize (Hm c Hc E). lia.
    - assert (Hst : status c <> STATUS_MAPPED).
      { intros H. rewrite H in E. discriminate. }
      destruct Ht as (_ & Hs & Hl & He & _).
      rewrite heap_blocks_mid in Hl by exact Hb.
      pose proof (heap_blocks_sizes _ Hs) as Hhs.
      rewrite heap_blocks_mid in Hhs by exact Hb.
      unfold sizes_nonneg in Hhs. apply Forall_app in Hhs. destruct Hhs as [Hs1 Hs2].
      apply Forall_cons_iff in Hs2. destruct Hs2 as [Hsb Hs2].
      apply laid_out_app in Hl. destruct Hl as [Hl1 Hl2].
      simpl in Hl2. destruct Hl2 as [Eb Hl2].
      assert (Hch : In c (heap_blocks (l1 ++ b :: l2))).
      { unfold heap_blocks. apply filter_In. split; [exact Hc |].
        destruct (status c); try reflexivity. contradiction. }
      rewrite heap_blocks_mid in Hch by exact Hb.
      apply in_app_or in Hch. destruct Hch as [Hc1 | [<- | Hc2]].
      + destruct (laid_out_within P _ _ Hs1 Hl1 c Hc1) as [_ H].
        apply Forall_forall with (x := c) in Hs1; [| exact Hc1]. lia.
      + lia.
      + destruct (laid_out_within P _ _ Hs2 Hl2 c Hc2) as [H _]. lia. }
  destruct Ht as (Hnd & Hs & Hl & He & Hm).
  rewrite heap_blocks_mid in Hl, He by exact Hb.
  assert (Hh : heap_blocks
                 (l1 ++ Block (addr b) a (status b)
                     :: Block (addr b + META + a) (size b - a - META) STATUS_FREE :: l2)
               = heap_blocks l1 ++ Block (addr b) a (status b)
                   :: Block (addr b + META + a) (size b - a - META) STATUS_FREE
                   :: heap_blocks l2).
  { rewrite heap_blocks_mid by exact Hb.
    pose proof (heap_blocks_mid []
                  (Block (addr b + META + a) (size b - a - META) STATUS_FREE) l2
                  ltac:(simpl; discriminate)) as E.
    cbn [app] in E. rewrite E. reflexivity. }
  split; [| split; [| split; [| split]]].
  - apply (NoDup_link l1 b); [exact Hnd | exact Hnew | reflexivity].
  - unfold sizes_nonneg in *. apply Forall_app in Hs. destruct Hs as [H1 H2].
    apply Forall_cons_iff in H2. destruct H2 as [H2 H3].
    apply Forall_app. split; [exact H1 |].
    constructor; [exact Ha |]. constructor; [simpl; lia | exact H3].
  - rewrite Hh. apply laid_out_app in Hl. destruct Hl as [Hl1 Hl2].
    simpl in Hl2. destruct Hl2 as [Eb Hl2].
    apply laid_out_app. split; [exact Hl1 |]. simpl.
    split; [exact Eb |]. split; [reflexivity |].
    replace (addr b + META + a + META + (size b - a - META))
      with (addr b + META + size b) by lia.
    exact Hl2.
  - rewrite Hh. rewrite end_of_app in *. simpl in *.
    replace (addr b + META + a + META + (size b - a - META))
      with (addr b + META + size b) by lia.
    exact He.
  - apply Forall_app in Hm. destruct Hm as [H1 H2].
    apply Forall_cons_iff in H2. destruct H2 as [H2 H3].
    apply Forall_app. split; [exact H1 |].
    constructor; [exact H2 |]. constructor; [simpl; discriminate | exact H3].
Qed.

Lemma tiles_grow_last top pre b trailing a :
  tiles P start limit top (pre ++ b :: trailing) ->
  Forall (fun m => status m = STATUS_MAPPED) trailing ->
  status b <> STATUS_MAPPED -> 0 <= a ->
  tiles P start limit (top + (a - size b)) (pre ++ with_size a b :: trailing).
Proof.
  intros (Hnd & Hs & Hl & He & Hm) Htr Hb Ha.
  rewrite heap_blocks_mid in Hl, He by exact Hb.
  rewrite (heap_blocks_mapped _ Htr) in Hl, He.
  split; [| split; [| split; [| split]]].
  - rewrite map_app in *. exact Hnd.
  - unfold sizes_nonneg in *. apply Forall_app in Hs. destruct Hs as [H1 H2].
    apply Forall_cons_iff in H2. destruct H2 as [H2 H3].
    apply Forall_app. split; [exact H1 |]. constructor; assumption.
  - rewrite heap_blocks_mid by exact Hb. rewrite (heap_blocks_mapped _ Htr).
    apply laid_out_app in Hl. destruct Hl as [Hl1 Hl2].
    apply laid_out_app. split; [exact Hl1 |]. simpl in *. tauto.
  - rewrite heap_blocks_mid by exact Hb. rewrite (heap_blocks_mapped _ Htr).
    rewrite end_of_app in *. simpl in *. lia.
  - apply Forall_app in Hm. destruct Hm as [H1 H2].
    apply Forall_cons_iff in H2. destruct H2 as [H2 H3].
    apply Forall_app. split; [exact H1 |]. constructor; assumption.
Qed.

Lemma tiles_remove_mapped top l1 b l2 :
  tiles P start limit top (l1 ++ b :: l2) -> status b = STATUS_MAPPED ->
  tiles P start limit top (l1 ++ l2).
Proof.
  intros (Hnd & Hs & Hl & He & Hm) Hb.
  rewrite heap_blocks_mid_mapped in Hl, He by exact Hb.
  split; [| split; [| split; [| split]]]; try assumption.
  - apply (NoDup_mid _ _ _ Hnd).
  - unfold sizes_nonneg in *. apply Forall_app in Hs. destruct Hs as [H1 H2].
    apply Forall_cons_iff in H2. destruct H2 as [_ H3].
    apply Forall_app. split; assumption.
  - apply Forall_app in Hm. destruct Hm as [H1 H2].
    apply Forall_cons_iff in H2. destruct H2 as [_ H3].
    apply Forall_app. split; assumption.
Qed.

End Tiles.

Section TiledCalls.

Variable P : platform.
Local Abbreviation META := (META_BLOCK_SIZE P).

Variables start limit : Z.
Hypothesis start_pos : 0 < start.
Hypothesis limit_small : limit < 2 ^ 63.
Hypothesis meta_pos : 0 < META.

Lemma placement_tiled sz t :
  tiles P start limit (brk (os t)) (blocks t) ->
  brk (os t) + META + ALIGN sz <= limit ->
  exists r t', placement P sz t = Returns r t'
    /\ head_init_done t' = head_init_done t
    /\ brk (os t') <= limit
    /\ tiles P start limit (brk (os t')) (claimed r (blocks t')).
Proof.
  intros Ht Hroom. rewrite placement_run. cbv zeta.
  pose proof (ALIGN_range sz) as Hr.
  assert (Htop : start <= brk (os t)) by (apply (tiles_top P start limit _ _ Ht)).
  assert (Hbrk : brk (os t) <= limit) by lia.
  assert (Hc : tiles P start limit (brk (os t)) (coalesce_attempt P (blocks t)))
    by (apply (tiles_coalesce P start limit); assumption).
  set (l := coalesce_attempt P (blocks t)) in *.
  pose proof (find_best_block_best_of (ALIGN sz) l Hr (ALIGN_mod8 sz)) as Hbest.
  destruct (find_best_block (ALIGN sz) l) as [best |].
  - destruct Hbest as (i & Hi & [Hfree Hfit] & _).
    apply nth_error_In in Hi. pose proof Hi as Hin.
    apply in_split in Hi. destruct Hi as (l1 & l2 & Hl).
    eexists _, _. split; [reflexivity |].
    cbn [head_init_done os blocks claimed]. split; [reflexivity |].
    split; [exact Hbrk |].
    assert (Hheap : status best <> STATUS_MAPPED) by (rewrite Hfree; discriminate).
    assert (Hw : start <= addr best /\ addr best + META + size best <= brk (os t))
      by (apply (tiles_within P start limit) with (l := l); assumption).
    destruct Hw as [Hlo Hhi].
    assert (H0 : 0 <= size best)
      by (apply (tiles_size P start limit) with (top := brk (os t)) (l := l);
          assumption).
    rewrite Hl in *. pose proof Hc as (Hnd & _).
    destruct (NoDup_mid _ _ _ Hnd) as (A1 & A2 & _).
    destruct (Z_le_gt_dec (size best) (ALIGN sz + META + 1)) as [Hsmall | Hbig].
    + rewrite split_declined; try assumption; try lia; [| apply ALIGN_mod8].
      rewrite set_status_mid by auto.
      apply tiles_status; [exact Hc | exact Hheap | discriminate].
    + rewrite split_performed; try assumption; try lia; [| apply ALIGN_mod8].
      rewrite (set_status_mid (addr best) STATUS_ALLOC l1
                 (Block (addr best) (ALIGN sz) (status best))); auto.
      2:{ constructor; [simpl; lia | exact A2]. }
      apply (tiles_status P start limit _ l1
               (Block (addr best) (ALIGN sz) (status best))).
      * apply tiles_split; auto; lia.
      * exact Hheap.
      * discriminate.
  - simpl in Hbest.
    assert (Hnew :
      exists r t',
        (let d := as_signed (wrap (META + ALIGN sz)) in
         if sbrk_refused P (os t) d then
           Returns None
             (Allocator (head_init_done t) (heap_prealloc_done t) l
                (Kernel (brk (os t)) (Sbrk d :: calls (os t))))
         else
           Returns (Some (brk (os t)))
             (Allocator (head_init_done t) (heap_prealloc_done t)
                (list_add_last (Block (brk (os t)) (ALIGN sz) (stale_status P)) l)
                (Kernel (brk (os t) + d) (Sbrk d :: calls (os t))))) = Returns r t'
        /\ head_init_done t' = head_init_done t
        /\ brk (os t') <= limit
        /\ tiles P start limit (brk (os t')) (claimed r (blocks t'))).
    { cbv zeta. rewrite (wrap_small (META + ALIGN sz)) by lia.
      rewrite as_signed_small by lia.
      destruct (sbrk_refused P (os t) (META + ALIGN sz)).
      - eexists _, _. split; [reflexivity |]. cbn [head_init_done os blocks brk claimed].
        auto.
      - eexists _, _. split; [reflexivity |]. cbn [head_init_done os blocks brk claimed].
        split; [reflexivity |]. split; [lia |].
        unfold list_add_last.
        rewrite (set_status_mid (brk (os t)) STATUS_ALLOC l
                   (Block (brk (os t)) (ALIGN sz) (stale_status P)) []);
          [| apply (tiles_away P start limit) with (top := brk (os t));
             [assumption | exact Hc | lia]
           | constructor | reflexivity].
        replace (brk (os t) + (META + ALIGN sz))
          with (brk (os t) + META + ALIGN sz) by lia.
        apply (tiles_add_heap P start limit); try assumption;
          [simpl; lia | discriminate]. }
    destruct (get_last_on_heap l) as [last |] eqn:Hlast; [| exact Hnew].
    destruct (status_eqb (status last) STATUS_FREE) eqn:Hfree; [| exact Hnew].
    clear Hnew. apply status_eqb_eq in Hfree.
    rewrite expand_last_block_run.
    cbn [blocks head_init_done heap_prealloc_done os]. rewrite Hlast. cbv zeta.
    apply get_last_on_heap_spec in Hlast.
    destruct Hlast as (pre & trailing & Hl & Htr & Hheap).
    assert (Hin : In last l).
    { rewrite Hl. apply in_or_app. right. left. reflexivity. }
    assert (Hlt : size last < ALIGN sz).
    { destruct (Z.lt_ge_cases (size last) (ALIGN sz)) as [H | H]; [exact H |].
      exfalso. apply (Hbest last Hin). split; [exact Hfree | lia]. }
    assert (H0 : 0 <= size last)
      by (apply (tiles_size P start limit) with (top := brk (os t)) (l := l);
          assumption).
    rewrite wrap_add_sub by exact Hr.
    rewrite (wrap_small (ALIGN sz - size last)) by lia.
    rewrite as_signed_small by lia.
    destruct (sbrk_refused P (os t) (ALIGN sz - size last)).
    + eexists _, _. split; [reflexivity |]. cbn [head_init_done os blocks brk claimed].
      auto.
    + eexists _, _. split; [reflexivity |]. cbn [head_init_done os blocks brk claimed].
      split; [reflexivity |]. split; [lia |].
      rewrite Hl in *. pose proof Hc as (Hnd & _).
      destruct (NoDup_mid _ _ _ Hnd) as (A1 & A2 & _).
      rewrite set_size_mid by auto.
      rewrite (set_status_mid (addr last) STATUS_ALLOC pre (with_size (ALIGN sz) last))
        by auto.
      apply (tiles_status P start limit _ pre (with_size (ALIGN sz) last));
        [| exact Hheap | discriminate].
      apply tiles_grow_last; auto; lia.
Qed.

Hypothesis meta_small : META <= HEAP_PREALLOC_SIZE.

Lemma get_free_heap_block_tiled sz s :
  tiles P start limit (brk (os s)) (blocks s) ->
  brk (os s) + HEAP_PREALLOC_SIZE + META + ALIGN sz <= limit ->
  exists r s', get_free_heap_block P sz s = Returns r s'
    /\ head_init_done s' = head_init_done s
    /\ brk (os s') <= limit
    /\ tiles P start limit (brk (os s')) (claimed r (blocks s')).
Proof.
  intros Ht Hroom. pose proof (ALIGN_range sz) as Hr.
  assert (Htop : start <= brk (os s)) by (apply (tiles_top P start limit _ _ Ht)).
  unfold HEAP_PREALLOC_SIZE in *.
  rewrite get_free_heap_block_unfold, prealloc_heap_attempt_cases.
  destruct (heap_prealloc_done s).
  - apply placement_tiled; [exact Ht | lia].
  - destruct (sbrk_refused P (os s) HEAP_PREALLOC_SIZE).
    + eexists _, _. split; [reflexivity |]. cbn [head_init_done os blocks brk claimed].
      split; [reflexivity |]. split; [lia | exact Ht].
    + match goal with
      | |- exists r s', placement P sz ?t = _ /\ _ =>
          destruct (placement_tiled sz t) as (r & s' & Hrun & Hh & Hb & Hk)
      end.
      * cbn [blocks os brk]. unfold list_add_last, HEAP_PREALLOC_SIZE.
        rewrite (wrap_small (128 * 1024 - META)) by lia.
        replace (brk (os s) + 128 * 1024)
          with (brk (os s) + META + (128 * 1024 - META)) by lia.
        apply tiles_add_heap; auto; try lia. discriminate.
      * cbn [blocks os brk]. unfold HEAP_PREALLOC_SIZE. lia.
      * exists r, s'. split; [exact Hrun |]. auto.
Qed.

(** The block handed out is the requested size, or a free block that was
    too small to split. *)
Lemma placement_bounded sz t hb t' b :
  tiles P start limit (brk (os t)) (blocks t) ->
  brk (os t) + META + ALIGN sz <= limit ->
  placement P sz t = Returns (Some hb) t' ->
  lookup hb (set_status hb STATUS_ALLOC (blocks t')) = Some b ->
  size b <= ALIGN sz + META + 1.
Proof.
  intros Ht Hroom. rewrite placement_run. cbv zeta.
  pose proof (ALIGN_range sz) as Hr.
  assert (Htop : start <= brk (os t)) by (apply (tiles_top P start limit _ _ Ht)).
  assert (Hbrk : brk (os t) <= limit) by lia.
  assert (Hc : tiles P start limit (brk (os t)) (coalesce_attempt P (blocks t)))
    by (apply (tiles_coalesce P start limit); assumption).
  set (l := coalesce_attempt P (blocks t)) in *.
  pose proof (find_best_block_best_of (ALIGN sz) l Hr (ALIGN_mod8 sz)) as Hbest.
  destruct (find_best_block (ALIGN sz) l) as [best |].
  - destruct Hbest as (i & Hi & [Hfree Hfit] & _).
    apply nth_error_In in Hi. pose proof Hi as Hin.
    apply in_split in Hi. destruct Hi as (l1 & l2 & Hl).
    intros H. inversion H; subst hb t'. clear H. cbn [blocks].
    assert (Hheap : status best <> STATUS_MAPPED) by (rewrite Hfree; discriminate).
    assert (Hw : start <= addr best /\ addr best + META + size best <= brk (os t))
      by (apply (tiles_within P start limit) with (l := l); assumption).
    destruct Hw as [Hlo Hhi].
    assert (H0 : 0 <= size best)
      by (apply (tiles_size P start limit) with (top := brk (os t)) (l := l);
          assumption).
    rewrite Hl in *. pose proof Hc as (Hnd & _).
    destruct (NoDup_mid _ _ _ Hnd) as (A1 & A2 & _).
    destruct (Z_le_gt_dec (size best) (ALIGN sz + META + 1)) as [Hsmall | Hbig].
    + rewrite split_declined; try assumption; try lia; [| apply ALIGN_mod8].
      rewrite set_status_mid by auto.
      rewrite (lookup_mid (addr best) l1 (with_status STATUS_ALLOC best)) by auto.
      intros E. inversion E; subst b. simpl. exact Hsmall.
    + rewrite split_performed; try assumption; try lia; [| apply ALIGN_mod8].
      rewrite (set_status_mid (addr best) STATUS_ALLOC l1
                 (Block (addr best) (ALIGN sz) (status best))); auto.
      2:{ constructor; [simpl; lia | exact A2]. }
      rewrite (lookup_mid (addr best) l1) by auto.
      intros E. inversion E; subst b. simpl. lia.
  - simpl in Hbest.
    assert (Hnew :
        (let d := as_signed (wrap (META + ALIGN sz)) in
         if sbrk_refused P (os t) d then
           Returns None
             (Allocator (head_init_done t) (heap_prealloc_done t) l
                (Kernel (brk (os t)) (Sbrk d :: calls (os t))))
         else
           Returns (Some (brk (os t)))
             (Allocator (head_init_done t) (heap_prealloc_done t)
                (list_add_last (Block (brk (os t)) (ALIGN sz) (stale_status P)) l)
                (Kernel (brk (os t) + d) (Sbrk d :: calls (os t))))) = Returns (Some hb) t' ->
        lookup hb (set_status hb STATUS_ALLOC (blocks t')) = Some b ->
        size b <= ALIGN sz + META + 1).
    { cbv zeta.
      destruct (sbrk_refused P (os t) (as_signed (wrap (META + ALIGN sz))));
        intros H; inversion H; subst hb t'. clear H. cbn [blocks].
      unfold list_add_last.
      assert (Ha : away (brk (os t)) l)
        by (apply (tiles_away P start limit) with (top := brk (os t));
            [assumption | exact Hc | lia]).
      rewrite (set_status_mid (brk (os t)) STATUS_ALLOC l
                 (Block (brk (os t)) (ALIGN sz) (stale_status P)) []);
        [| exact Ha | constructor | reflexivity].
      rewrite (lookup_mid (brk (os t)) l) by (auto; reflexivity).
      intros E. inversion E; subst b. simpl. lia. }
    destruct (get_last_on_heap l) as [last |] eqn:Hlast; [| exact Hnew].
    destruct (status_eqb (status last) STATUS_FREE) eqn:Hfree; [| exact Hnew].
    clear Hnew. rewrite expand_last_block_run.
    cbn [blocks head_init_done heap_prealloc_done os]. rewrite Hlast. cbv zeta.
    apply get_last_on_heap_spec in Hlast.
    destruct Hlast as (pre & trailing & Hl & Htr & Hheap).
    rewrite wrap_add_sub by exact Hr.
    destruct (sbrk_refused P (os t) (as_signed (wrap (ALIGN sz - size last))));
      intros H; inversion H; subst hb t'. clear H. cbn [blocks].
    rewrite Hl in *. pose proof Hc as (Hnd & _).
    destruct (NoDup_mid _ _ _ Hnd) as (A1 & A2 & _).
    rewrite set_size_mid by auto.
    rewrite (set_status_mid (addr last) STATUS_ALLOC pre (with_size (ALIGN sz) last))
      by auto.
    rewrite (lookup_mid (addr last) pre) by auto.
    intros E. inversion E; subst b. simpl. lia.
Qed.

Lemma get_free_heap_block_bounded sz s hb s' b :
  tiles P start limit (brk (os s)) (blocks s) ->
  brk (os s) + HEAP_PREALLOC_SIZE + META + ALIGN sz <= limit ->
  get_free_heap_block P sz s = Returns (Some hb) s' ->
  lookup hb (set_status hb STATUS_ALLOC (blocks s')) = Some b ->
  size b <= ALIGN sz + META + 1.
Proof.
  intros Ht Hroom. pose proof (ALIGN_range sz) as Hr.
  assert (Htop : start <= brk (os s)) by (apply (tiles_top P start limit _ _ Ht)).
  unfold HEAP_PREALLOC_SIZE in *.
  rewrite get_free_heap_block_unfold, prealloc_heap_attempt_cases.
  destruct (heap_prealloc_done s).
  - apply placement_bounded; [exact Ht | lia].
  - destruct (sbrk_refused P (os s) HEAP_PREALLOC_SIZE).
    + intros H. inversion H.
    + apply placement_bounded.
      * cbn [blocks os brk]. unfold list_add_last, HEAP_PREALLOC_SIZE.
        rewrite (wrap_small (128 * 1024 - META)) by lia.
        replace (brk (os s) + 128 * 1024)
          with (brk (os s) + META + (128 * 1024 - META)) by lia.
        apply tiles_add_heap; auto; try lia. discriminate.
      * cbn [blocks os brk]. unfold HEAP_PREALLOC_SIZE. lia.
Qed.

Lemma serve_from_heap_tiled sz s :
  tiled P start limit s -> head_init_done s = true ->
  brk (os s) + HEAP_PREALLOC_SIZE + META + ALIGN sz <= limit ->
  exists p s',
    (heap_block <- get_free_heap_block P sz ;;
     match heap_block with
     | None => ret NULL
     | Some hb => mark hb STATUS_ALLOC ;; ret (hb + META)
     end) s = Returns p s'
    /\ tiled P start limit s'.
Proof.
  intros (_ & _ & _ & Ht) Hhead Hroom.
  destruct (get_free_heap_block_tiled sz s Ht Hroom) as (r & s1 & Hrun & Hh & Hb & Hk).
  unfold bind at 1. unfold Monad_op, op_bind. rewrite Hrun.
  destruct r as [hb |]; eexists _, _; (split; [reflexivity |]);
    unfold tiled; cbn [claimed blocks os head_init_done] in *;
    (split; [exact start_pos |]); (split; [lia |]);
    (split; [congruence | exact Hk]).
Qed.

Lemma serve_by_mapping_tiled a s :
  tiled P start limit s -> head_init_done s = true -> 0 <= a ->
  (forall x, mmap_answer P (os s) (wrap (META + a)) = Some x ->
     limit < x /\ away x (blocks s)) ->
  exists p s',
    (block <- map_block_in_mem P a ;;
     match block with
     | None => ret NULL
     | Some b => ret (b + META)
     end) s = Returns p s'
    /\ tiled P start limit s'.
Proof.
  intros (_ & Hb & _ & Ht) Hhead Ha Hmap.
  unfold bind at 1. unfold Monad_op, op_bind. rewrite map_block_in_mem_run.
  destruct (mmap_answer P (os s) (wrap (META + a))) as [x |] eqn:Hx.
  - destruct (Hmap x eq_refl) as [Hlim Haway].
    eexists _, _. split; [reflexivity |].
    unfold tiled. cbn [blocks os head_init_done brk].
    split; [exact start_pos |]. split; [exact Hb |]. split; [congruence |].
    unfold list_add_last. apply tiles_add_mapped; auto.
  - eexists _, _. split; [reflexivity |].
    unfold tiled. cbn [blocks os head_init_done brk].
    split; [exact start_pos |]. split; [exact Hb |]. split; [congruence | exact Ht].
Qed.

Lemma with_head_tiled s : tiled P start limit s -> tiled P start limit (with_head s).
Proof.
  intros (H1 & H2 & H3 & H4). unfold with_head.
  destruct (head_init_done s) eqn:E.
  - unfold tiled. rewrite E.
    split; [exact H1 | split; [exact H2 | split; [discriminate | exact H4]]].
  - unfold tiled, after_head_init. cbn [blocks os head_init_done].
    rewrite (H3 eq_refl) in H4.
    split; [exact H1 | split; [exact H2 | split; [discriminate | exact H4]]].
Qed.

Lemma with_head_ready s : head_init_done (with_head s) = true.
Proof. unfold with_head. destruct (head_init_done s) eqn:E; [exact E | reflexivity]. Qed.

End TiledCalls.

Lemma os_malloc_tiled (P : platform) (start limit : Z)
  (s : allocator) (sz : Z) :
  0 < META_BLOCK_SIZE P <= HEAP_PREALLOC_SIZE ->
  tiled P start limit s ->
  ALIGN sz + META_BLOCK_SIZE P < 2 ^ 64 ->
  brk (os s) + HEAP_PREALLOC_SIZE + MMAP_THRESHOLD <= limit ->
  (forall x, mmap_answer P (os s) (wrap (META_BLOCK_SIZE P + ALIGN sz)) = Some x ->
     limit < x /\ away x (blocks s)) ->
  exists p s', os_malloc P sz s = Returns p s' /\ tiled P start limit s'.
Proof.
  intros [Hm1 Hm2] Ht Hnowrap Hroom Hmap.
  pose proof (ALIGN_range sz) as Hr.
  pose proof Ht as (Hstart & Hlim & _).
  unfold os_malloc. cbv zeta.
  destruct (sz <=? 0).
  { exists NULL, s. split; [reflexivity | exact Ht]. }
  unfold bind at 1. unfold Monad_op at 1, op_bind at 1. rewrite ensure_head_run.
  assert (Ht' : tiled P start limit (with_head s)) by (apply with_head_tiled, Ht).
  rewrite wrap_small by lia.
  destruct (Z.ltb_spec (ALIGN sz + META_BLOCK_SIZE P) MMAP_THRESHOLD) as [Hheap | Hbig].
  - apply (serve_from_heap_tiled P start limit); try assumption; try lia.
    + apply with_head_ready.
    + rewrite with_head_os, ALIGN_idem. unfold MMAP_THRESHOLD in *. lia.
  - apply (serve_by_mapping_tiled P start limit); try assumption; try lia.
    + apply with_head_ready.
    + intros x Hx. rewrite with_head_os in Hx. destruct (Hmap x Hx) as [H1 H2].
      split; [exact H1 |].
      apply (with_head_blocks (away x)); [exact H2 | constructor].
Qed.

(** X14. [os_malloc] keeps the heap tiled.  If the heap blocks of the list
    lie one after the other from [start] to the program break (and the
    mappings above [limit], which the break has not passed), they still
    do after the call, whatever path it took: pre-allocation, split of
    the best block, growth of the last block, a new block at the break,
    a mapping, or a refusal of the kernel.  The threshold sum must not
    wrap around, the break area must have room for the largest heap
    request below [limit], and the kernel must place a new mapping
    above [limit], at an address that is not in use. *)
Theorem os_malloc_keeps_heap_tiled (P : platform) (start limit : Z)
  (s : allocator) (sz : Z) :
  0 < META_BLOCK_SIZE P <= HEAP_PREALLOC_SIZE ->
  tiled P start limit s ->
  ALIGN sz + META_BLOCK_SIZE P < 2 ^ 64 ->
  brk (os s) + HEAP_PREALLOC_SIZE + MMAP_THRESHOLD <= limit ->
  (forall x, mmap_answer P (os s) (wrap (META_BLOCK_SIZE P + ALIGN sz)) = Some x ->
     limit < x /\ away x (blocks s)) ->
  exists p s', os_malloc P sz s = Returns p s' /\ tiled P start limit s'.
Proof. apply os_malloc_tiled. Qed.

(** X15. [os_calloc] keeps the heap tiled as well, on each of its paths
    (zero operand, rejected product, heap, mapping), as long as the sum
    [ALIGN(nmemb * size) + META_BLOCK_SIZE] stays below [2^63], where the
    signed comparison with the page size reads it as it is. *)
Theorem os_calloc_keeps_heap_tiled (P : platform) (start limit : Z)
  (s : allocator) (nmemb sz : Z) :
  0 < META_BLOCK_SIZE P <= HEAP_PREALLOC_SIZE ->
  tiled P start limit s ->
  ALIGN (wrap (sz * nmemb)) + META_BLOCK_SIZE P < 2 ^ 63 ->
  brk (os s) + HEAP_PREALLOC_SIZE + getpagesize P <= limit ->
  (forall x,
     mmap_answer P (os s) (wrap (META_BLOCK_SIZE P + ALIGN (wrap (sz * nmemb)))) = Some x ->
     limit < x /\ away x (blocks s)) ->
  exists p s', os_calloc P nmemb sz s = Returns p s' /\ tiled P start limit s'.
Proof.
  intros [Hm1 Hm2] Ht Hnowrap Hroom Hmap.
  pose proof (ALIGN_range (wrap (sz * nmemb))) as Hr.
  pose proof Ht as (Hstart & Hlim & _).
  unfold os_calloc. cbv zeta.
  destruct ((nmemb =? 0) || (sz =? 0)).
  { exists NULL, s. split; [reflexivity | exact Ht]. }
  unfold bind at 1. unfold Monad_op at 1, op_bind at 1. rewrite ensure_head_run.
  assert (Ht' : tiled P start limit (with_head s)) by (apply with_head_tiled, Ht).
  destruct ((ALIGN (wrap (sz * nmemb)) <? sz) || (ALIGN (wrap (sz * nmemb)) <? nmemb)).
  { exists NULL, (with_head s). split; [reflexivity | exact Ht']. }
  rewrite wrap_small by lia. rewrite as_signed_small by lia.
  destruct (Z.ltb_spec (ALIGN (wrap (sz * nmemb)) + META_BLOCK_SIZE P) (getpagesize P))
    as [Hheap | Hbig].
  - apply (serve_from_heap_tiled P start limit); try assumption; try lia.
    + apply with_head_ready.
    + rewrite with_head_os, ALIGN_idem. lia.
  - apply (serve_by_mapping_tiled P start limit); try assumption; try lia.
    + apply with_head_ready.
    + intros x Hx. rewrite with_head_os in Hx. destruct (Hmap x Hx) as [H1 H2].
      split; [exact H1 |].
      apply (with_head_blocks (away x)); [exact H2 | constructor].
Qed.

Lemma os_free_tiled (P : platform) (start limit : Z)
  (s : allocator) (p : Z) :
  tiled P start limit s ->
  head_init_done s = true ->
  (forall b, search_in P p (blocks s) = Some b -> status b = STATUS_MAPPED ->
     munmap_refused P (os s) (addr b) (wrap (size b + META_BLOCK_SIZE P)) = false) ->
  exists s', os_free P p s = Returns tt s' /\ tiled P start limit s'.
Proof.
  intros Ht Hhead Hunmap.
  destruct (Z.eq_dec p NULL) as [-> | Hp].
  { exists s. split; [reflexivity | exact Ht]. }
  destruct (search_in P p (blocks s)) as [b |] eqn:Hb.
  2:{ exists s. split; [apply os_free_not_found; assumption | exact Ht]. }
  pose proof (search_lookup _ _ _ _ Hb) as Hl. unfold lookup in Hl.
  apply find_some in Hl. destruct Hl as [Hin _].
  apply in_split in Hin. destruct Hin as (l1 & l2 & Hl).
  destruct Ht as (Hstart & Hlim & Hempty & Ht).
  pose proof Ht as (Hnd & _). rewrite Hl in Hnd.
  destruct (NoDup_mid _ _ _ Hnd) as (A1 & A2 & _).
  destruct (status b) eqn:Hst.
  - exists s. split; [apply (os_free_of_free P s p b); assumption |].
    split; [exact Hstart |]. split; [exact Hlim |]. split; assumption.
  - eexists. split; [apply (os_free_of_allocated P s p b); assumption |].
    unfold tiled. cbn [blocks os head_init_done].
    split; [exact Hstart |]. split; [exact Hlim |]. split; [discriminate |].
    rewrite Hl in *. rewrite set_status_mid by auto.
    apply tiles_status; [exact Ht | rewrite Hst; discriminate | discriminate].
  - eexists. split.
    + apply (os_free_of_mapped P s p b); try assumption. apply Hunmap; auto.
    + unfold tiled. cbn [blocks os head_init_done brk].
      split; [exact Hstart |]. split; [exact Hlim |]. split; [discriminate |].
      rewrite Hl in *. rewrite remove_mid by auto.
      apply (tiles_remove_mapped P start limit _ l1 b l2); assumption.
Qed.

(** X16. [os_free] keeps the heap tiled.  Once the sentinel is initialised
    and unless the kernel refuses to unmap the block, the call returns,
    and the heap blocks still lie one after the other from [start] to
    the break: freeing a heap block changes its status only, freeing a
    mapping removes a block that was not part of the heap. *)
Theorem os_free_keeps_heap_tiled (P : platform) (start limit : Z)
  (s : allocator) (p : Z) :
  tiled P start limit s ->
  head_init_done s = true ->
  (forall b, search_in P p (blocks s) = Some b -> status b = STATUS_MAPPED ->
     munmap_refused P (os s) (addr b) (wrap (size b + META_BLOCK_SIZE P)) = false) ->
  exists s', os_free P p s = Returns tt s' /\ tiled P start limit s'.
Proof. apply os_free_tiled. Qed.

(** * [os_realloc] on a tiled heap *)

Lemma NoDup_addr_inj l b c :
  NoDup (map addr l) -> In b l -> In c l -> addr b = addr c -> b = c.
Proof.
  intros Hnd Hb Hc E. apply in_split in Hb. destruct Hb as (l1 & l2 & ->).
  destruct (NoDup_mid _ _ _ Hnd) as (A1 & A2 & _).
  apply in_app_or in Hc. destruct Hc as [Hc | [Hc | Hc]].
  - unfold away in A1. rewrite Forall_forall in A1. specialize (A1 c Hc). congruence.
  - exact Hc.
  - unfold away in A2. rewrite Forall_forall in A2. specialize (A2 c Hc). congruence.
Qed.

Lemma mark_run x st s :
  mark x st s =
    Returns tt
      (Allocator (head_init_done s) (heap_prealloc_done s)
         (set_status x st (blocks s)) (os s)).
Proof. reflexivity. Qed.

Section ReallocTiles.

Variable P : platform.
Local Abbreviation META := (META_BLOCK_SIZE P).

Variables start limit : Z.
Hypothesis start_pos : 0 < start.
Hypothesis limit_small : limit < 2 ^ 63.
Hypothesis meta_pos : 0 < META.

Lemma tiles_merge top before anchor skipped it rest :
  tiles P start limit top (before ++ anchor :: skipped ++ it :: rest) ->
  top <= limit ->
  Forall (fun m => status m = STATUS_MAPPED) skipped ->
  status anchor <> STATUS_MAPPED -> status it <> STATUS_MAPPED ->
  tiles P start limit top
    (before ++ with_size (wrap (size anchor + wrap (META + size it))) anchor
       :: skipped ++ rest).
Proof.
  intros Ht Htop Hm Ha Hi.
  assert (Hin : In it (before ++ anchor :: skipped ++ it :: rest)).
  { apply in_or_app. right. right. apply in_or_app. right. left. reflexivity. }
  assert (Hina : In anchor (before ++ anchor :: skipped ++ it :: rest)).
  { apply in_or_app. right. left. reflexivity. }
  assert (Hwi : start <= addr it /\ addr it + META + size it <= top)
    by (apply (tiles_within P start limit) with (l := before ++ anchor :: skipped ++ it :: rest);
        assumption).
  assert (Hwa : start <= addr anchor /\ addr anchor + META + size anchor <= top)
    by (apply (tiles_within P start limit) with (l := before ++ anchor :: skipped ++ it :: rest);
        assumption).
  assert (H0i : 0 <= size it)
    by (apply (tiles_size P start limit) with (top := top)
          (l := before ++ anchor :: skipped ++ it :: rest); assumption).
  assert (H0a : 0 <= size anchor)
    by (apply (tiles_size P start limit) with (top := top)
          (l := before ++ anchor :: skipped ++ it :: rest); assumption).
  destruct Ht as (Hnd & Hs & Hl & He & Hmap).
  assert (Hhb : forall x y, status x <> STATUS_MAPPED ->
             heap_blocks (before ++ x :: skipped ++ y) =
             heap_blocks before ++ x :: heap_blocks y).
  { intros x y Hx. rewrite (heap_blocks_mid before x (skipped ++ y) Hx).
    rewrite heap_blocks_app, (heap_blocks_mapped skipped Hm). reflexivity. }
  assert (Hhi : heap_blocks (it :: rest) = it :: heap_blocks rest)
    by (apply (heap_blocks_mid [] it rest Hi)).
  rewrite Hhb, Hhi in Hl, He by exact Ha.
  apply laid_out_app in Hl. destruct Hl as [Hlb Hl].
  simpl in Hl. destruct Hl as (Eanchor & Eit & Hlr).
  rewrite end_of_app in He. simpl in He.
  assert (Hw : wrap (size anchor + wrap (META + size it))
               = size anchor + META + size it).
  { rewrite (wrap_small (META + size it)) by lia. rewrite wrap_small by lia. lia. }
  rewrite Hw.
  split; [| split; [| split; [| split]]].
  - replace (before ++ anchor :: skipped ++ it :: rest)
      with ((before ++ anchor :: skipped) ++ it :: rest) in Hnd
      by (rewrite <- app_assoc; reflexivity).
    destruct (NoDup_mid _ _ _ Hnd) as (_ & _ & Hnd').
    rewrite <- app_assoc in Hnd'. simpl in Hnd'.
    rewrite map_app in *. simpl in *. exact Hnd'.
  - unfold sizes_nonneg in *.
    apply Forall_app in Hs. destruct Hs as [Hsb Hs].
    apply Forall_cons_iff in Hs. destruct Hs as [Hsa Hs].
    apply Forall_app in Hs. destruct Hs as [Hss Hs].
    apply Forall_cons_iff in Hs. destruct Hs as [Hsi Hsr].
    apply Forall_app. split; [exact Hsb |]. constructor; [simpl; lia |].
    apply Forall_app. split; assumption.
  - rewrite Hhb by (simpl; exact Ha). apply laid_out_app. split; [exact Hlb |].
    simpl. split; [exact Eanchor |].
    replace (addr anchor + META + (size anchor + META + size it))
      with (addr it + META + size it) by lia.
    exact Hlr.
  - rewrite Hhb by (simpl; exact Ha). rewrite end_of_app. simpl.
    replace (addr anchor + META + (size anchor + META + size it))
      with (addr it + META + size it) by lia.
    exact He.
  - apply Forall_app in Hmap. destruct Hmap as [H1 H].
    apply Forall_cons_iff in H. destruct H as [H2 H].
    apply Forall_app in H. destruct H as [H3 H].
    apply Forall_cons_iff in H. destruct H as [_ H4].
    apply Forall_app. split; [exact H1 |]. constructor; [exact H2 |].
    apply Forall_app. split; assumption.
Qed.

Lemma coalesce_to_size_walk_tiled top sz : forall todo l1 b skipped,
  tiles P start limit top (l1 ++ b :: skipped ++ todo) -> top <= limit ->
  Forall (fun m => status m = STATUS_MAPPED) skipped ->
  status b <> STATUS_MAPPED ->
  tiles P start limit top
    (coalesce_to_size_walk P todo (addr b) sz (l1 ++ b :: skipped ++ todo)).
Proof.
  induction todo as [| it rest IH]; intros l1 b skipped Ht Htop Hm Hb; simpl.
  - exact Ht.
  - destruct (status it) eqn:Hst.
    + pose proof Ht as (Hnd & _).
      rewrite (coalesce_blocks_mid P l1 b skipped it rest Hnd).
      set (grown := with_size (wrap (size b + wrap (META + size it))) b).
      assert (Ht' : tiles P start limit top (l1 ++ grown :: skipped ++ rest)).
      { apply tiles_merge; auto. rewrite Hst. discriminate. }
      pose proof Ht' as (Hnd' & _).
      destruct (NoDup_mid _ _ _ Hnd') as (A1 & _ & _).
      rewrite (lookup_mid (addr b) l1 grown) by (auto; reflexivity).
      destruct (sz <=? size grown); [exact Ht' |].
      change (addr b) with (addr grown). apply IH; auto.
    + exact Ht.
    + replace (l1 ++ b :: skipped ++ it :: rest)
        with (l1 ++ b :: (skipped ++ [it]) ++ rest) in *
        by (rewrite <- app_assoc; reflexivity).
      apply IH; auto. apply Forall_app. split; [exact Hm | constructor; auto].
Qed.

Lemma block_coalesce_to_size_tiled top sz l b :
  tiles P start limit top l -> top <= limit -> In b l ->
  status b <> STATUS_MAPPED ->
  tiles P start limit top (block_coalesce_to_size P (addr b) sz l).
Proof.
  intros Ht Htop Hin Hb. apply in_split in Hin. destruct Hin as (l1 & l2 & ->).
  pose proof Ht as (Hnd & _). destruct (NoDup_mid _ _ _ Hnd) as (A1 & _ & _).
  unfold block_coalesce_to_size. rewrite successors_mid by auto.
  apply (coalesce_to_size_walk_tiled top sz l2 l1 b []); auto.
Qed.

(** Below [limit] an address can only be that of a heap block. *)
Lemma tiles_mark top l x st :
  tiles P start limit top l -> x <= limit -> st <> STATUS_MAPPED ->
  tiles P start limit top (set_status x st l).
Proof.
  intros Ht Hx Hst.
  destruct (lookup x l) as [b |] eqn:Hl.
  - unfold lookup in Hl. apply find_some in Hl. destruct Hl as [Hin Hb].
    apply Z.eqb_eq in Hb. apply in_split in Hin. destruct Hin as (l1 & l2 & ->).
    pose proof Ht as (Hnd & _ & _ & _ & Hmap).
    destruct (NoDup_mid _ _ _ Hnd) as (A1 & A2 & _). rewrite <- Hb in *.
    rewrite set_status_mid by auto.
    apply tiles_status; [exact Ht | | exact Hst].
    intros Hmapped. apply Forall_app in Hmap. destruct Hmap as [_ Hmap].
    apply Forall_cons_iff in Hmap. destruct Hmap as [Hmap _].
    specialize (Hmap Hmapped). lia.
  - rewrite set_status_away; [exact Ht |].
    unfold away. apply Forall_forall. intros c Hc E.
    unfold lookup in Hl. apply (find_none _ _ Hl) in Hc.
    apply Z.eqb_neq in Hc. contradiction.
Qed.

Lemma split_block_attempt_tiled top l x a :
  tiles P start limit top l -> top <= limit -> x <= limit ->
  0 <= a < 2 ^ 64 -> a mod 8 = 0 ->
  (forall b, lookup x l = Some b -> a <= size b) ->
  tiles P start limit top (split_block_attempt P x a l).
Proof.
  intros Ht Htop Hx Ha Ha8 Hfit.
  destruct (lookup x l) as [b |] eqn:Hl.
  2:{ unfold split_block_attempt. rewrite Hl. exact Ht. }
  specialize (Hfit b eq_refl).
  unfold lookup in Hl. apply find_some in Hl. destruct Hl as [Hin Hb].
  apply Z.eqb_eq in Hb.
  assert (Hheap : status b <> STATUS_MAPPED).
  { intros Hmapped. destruct Ht as (_ & _ & _ & _ & Hmap).
    rewrite Forall_forall in Hmap. specialize (Hmap b Hin Hmapped). lia. }
  assert (Hw : start <= addr b /\ addr b + META + size b <= top)
    by (apply (tiles_within P start limit) with (l := l); assumption).
  assert (H0 : 0 <= size b)
    by (apply (tiles_size P start limit) with (top := top) (l := l); assumption).
  apply in_split in Hin. destruct Hin as (l1 & l2 & ->).
  pose proof Ht as (Hnd & _). rewrite <- Hb.
  destruct (Z_le_gt_dec (size b) (a + META + 1)) as [Hsmall | Hbig].
  - rewrite split_declined; try assumption; try lia.
  - rewrite split_performed; try assumption; try lia.
    apply tiles_split; auto; lia.
Qed.

Lemma merge_size_exact top before anchor skipped it rest :
  tiles P start limit top (before ++ anchor :: skipped ++ it :: rest) ->
  top <= limit ->
  status anchor <> STATUS_MAPPED -> status it <> STATUS_MAPPED ->
  wrap (size anchor + wrap (META + size it)) = size anchor + META + size it
  /\ 0 <= size it.
Proof.
  intros Ht Htop Ha Hi.
  assert (Hin : In it (before ++ anchor :: skipped ++ it :: rest)).
  { apply in_or_app. right. right. apply in_or_app. right. left. reflexivity. }
  assert (Hina : In anchor (before ++ anchor :: skipped ++ it :: rest)).
  { apply in_or_app. right. left. reflexivity. }
  assert (Hwi : start <= addr it /\ addr it + META + size it <= top)
    by (apply (tiles_within P start limit) with (l := before ++ anchor :: skipped ++ it :: rest);
        assumption).
  assert (Hwa : start <= addr anchor /\ addr anchor + META + size anchor <= top)
    by (apply (tiles_within P start limit) with (l := before ++ anchor :: skipped ++ it :: rest);
        assumption).
  assert (H0i : 0 <= size it)
    by (apply (tiles_size P start limit) with (top := top)
          (l := before ++ anchor :: skipped ++ it :: rest); assumption).
  assert (H0a : 0 <= size anchor)
    by (apply (tiles_size P start limit) with (top := top)
          (l := before ++ anchor :: skipped ++ it :: rest); assumption).
  split; [| exact H0i].
  rewrite (wrap_small (META + size it)) by lia. rewrite wrap_small by lia. lia.
Qed.

Lemma coalesce_to_size_walk_shape top sz : forall todo l1 b skipped,
  tiles P start limit top (l1 ++ b :: skipped ++ todo) -> top <= limit ->
  Forall (fun m => status m = STATUS_MAPPED) skipped ->
  status b <> STATUS_MAPPED ->
  exists b' rest',
    coalesce_to_size_walk P todo (addr b) sz (l1 ++ b :: skipped ++ todo)
    = l1 ++ b' :: rest'
    /\ addr b' = addr b /\ status b' = status b /\ size b <= size b'.
Proof.
  induction todo as [| it rest IH]; intros l1 b skipped Ht Htop Hm Hb; simpl.
  - exists b, (skipped ++ []). repeat split; auto. lia.
  - destruct (status it) eqn:Hst.
    + pose proof Ht as (Hnd & _).
      rewrite (coalesce_blocks_mid P l1 b skipped it rest Hnd).
      assert (Hit : status it <> STATUS_MAPPED) by (rewrite Hst; discriminate).
      destruct (merge_size_exact _ _ _ _ _ _ Ht Htop Hb Hit) as [Hw H0].
      set (grown := with_size (wrap (size b + wrap (META + size it))) b).
      assert (Ht' : tiles P start limit top (l1 ++ grown :: skipped ++ rest)).
      { apply tiles_merge; auto. }
      assert (Hsize : size b <= size grown) by (unfold grown; simpl; lia).
      pose proof Ht' as (Hnd' & _).
      destruct (NoDup_mid _ _ _ Hnd') as (A1 & _ & _).
      rewrite (lookup_mid (addr b) l1 grown) by (auto; reflexivity).
      destruct (sz <=? size grown).
      * exists grown, (skipped ++ rest). repeat split; auto.
      * change (addr b) with (addr grown).
        destruct (IH l1 grown skipped Ht' Htop Hm Hb) as (b' & rest' & E & H1 & H2 & H3).
        exists b', rest'. repeat split; auto. lia.
    + exists b, (skipped ++ it :: rest). repeat split; auto. lia.
    + replace (l1 ++ b :: skipped ++ it :: rest)
        with (l1 ++ b :: (skipped ++ [it]) ++ rest) in *
        by (rewrite <- app_assoc; reflexivity).
      apply IH; auto. apply Forall_app. split; [exact Hm | constructor; auto].
Qed.

Lemma block_coalesce_to_size_shape top sz l1 b l2 :
  tiles P start limit top (l1 ++ b :: l2) -> top <= limit ->
  status b <> STATUS_MAPPED ->
  exists b' rest',
    block_coalesce_to_size P (addr b) sz (l1 ++ b :: l2) = l1 ++ b' :: rest'
    /\ addr b' = addr b /\ status b' = status b /\ size b <= size b'.
Proof.
  intros Ht Htop Hb.
  pose proof Ht as (Hnd & _). destruct (NoDup_mid _ _ _ Hnd) as (A1 & _ & _).
  unfold block_coalesce_to_size. rewrite successors_mid by auto.
  apply (coalesce_to_size_walk_shape top sz l2 l1 b []); auto.
Qed.


End ReallocTiles.

(** * Following a block through a call *)

Lemma search_other_marked P p y st l :
  y + META_BLOCK_SIZE P <> p ->
  search_in P p (set_status y st l) = search_in P p l.
Proof.
  intros Hy. unfold search_in, set_status. induction l as [| c l IH]; [reflexivity |].
  simpl. destruct (addr c =? y) eqn:E.
  - apply Z.eqb_eq in E. simpl.
    replace (addr c + META_BLOCK_SIZE P =? p) with false
      by (symmetry; apply Z.eqb_neq; lia).
    exact IH.
  - destruct (addr c + META_BLOCK_SIZE P =? p); [reflexivity | exact IH].
Qed.

Lemma search_other_removed P p y l :
  y + META_BLOCK_SIZE P <> p ->
  search_in P p (list_remove_block y l) = search_in P p l.
Proof.
  intros Hy. unfold search_in, list_remove_block.
  induction l as [| c l IH]; [reflexivity |].
  simpl. destruct (addr c =? y) eqn:E; simpl.
  - apply Z.eqb_eq in E.
    replace (addr c + META_BLOCK_SIZE P =? p) with false
      by (symmetry; apply Z.eqb_neq; lia).
    exact IH.
  - destruct (addr c + META_BLOCK_SIZE P =? p); [reflexivity | exact IH].
Qed.

Lemma search_of_member P l c :
  NoDup (map addr l) -> In c l ->
  search_in P (addr c + META_BLOCK_SIZE P) l = Some c.
Proof.
  intros Hnd Hc. apply in_split in Hc. destruct Hc as (l1 & l2 & ->).
  destruct (NoDup_mid _ _ _ Hnd) as (A1 & _ & _).
  apply search_mid; [exact A1 | reflexivity].
Qed.

Lemma set_status_keeps_others x st l c :
  In c l -> addr c <> x -> In c (set_status x st l).
Proof.
  intros Hc Hx. unfold set_status. apply in_map_iff. exists c.
  apply Z.eqb_neq in Hx. rewrite Hx. auto.
Qed.

Lemma set_size_keeps_others x v l c :
  In c l -> addr c <> x -> In c (set_size x v l).
Proof.
  intros Hc Hx. unfold set_size. apply in_map_iff. exists c.
  apply Z.eqb_neq in Hx. rewrite Hx. auto.
Qed.

Lemma link_after_keeps x nb l c : In c l -> In c (link_after x nb l).
Proof.
  induction l as [| d l IH]; [auto |]. simpl.
  destruct (addr d =? x); intros [<- | Hc]; simpl; auto.
Qed.

Lemma split_keeps_others P x a l c :
  In c l -> addr c <> x -> In c (split_block_attempt P x a l).
Proof.
  intros Hc Hx. unfold split_block_attempt.
  destruct (lookup x l) as [b |]; [| exact Hc].
  destruct (size b =? ALIGN a); [exact Hc |].
  destruct (size b <=? wrap (wrap (ALIGN a + META_BLOCK_SIZE P) + 1)); [exact Hc |].
  apply link_after_keeps, set_size_keeps_others; assumption.
Qed.

Lemma coalesce_attempt_keeps_in_use P l c :
  NoDup (map addr l) -> In c l -> status c <> STATUS_FREE ->
  In c (coalesce_attempt P l).
Proof.
  intros Hnd Hc Hst.
  apply (coalesce_attempt_merges P (fun l' => In c l')); [| exact Hnd | exact Hc].
  intros before anchor skipped it rest _ Ha _ Hit H.
  apply in_app_or in H. apply in_or_app.
  destruct H as [H | [H | H]]; [left; exact H | congruence |].
  right. right. apply in_app_or in H. apply in_or_app.
  destruct H as [H | [H | H]]; [left; exact H | congruence | right; exact H].
Qed.

Section InUse.

Variable P : platform.

(** The placement leaves the blocks in use alone, and hands out none of
    them. *)
Lemma placement_keeps_in_use sz t c r t' :
  NoDup (map addr (blocks t)) ->
  (ends_free false (blocks t) = false -> away (brk (os t)) (blocks t)) ->
  In c (blocks t) -> status c <> STATUS_FREE ->
  placement P sz t = Returns r t' ->
  In c (claimed r (blocks t'))
  /\ forall hb, r = Some hb -> hb <> addr c.
Proof.
  intros Hnd Hbrk Hc Hst. rewrite placement_run. cbv zeta.
  destruct (coalesce_attempt_sound P _ Hnd) as [_ Hnd'].
  pose proof (coalesce_attempt_keeps_end P _ Hnd) as Hend.
  pose proof (coalesce_attempt_keeps_in_use P _ c Hnd Hc Hst) as Hc'.
  set (l := coalesce_attempt P (blocks t)) in *.
  assert (Hfree : forall f, In f l -> status f = STATUS_FREE -> addr f <> addr c).
  { intros f Hf Hff E. apply (NoDup_addr_inj l f c Hnd' Hf Hc') in E. congruence. }
  destruct (find_best_block (ALIGN sz) l) as [best |] eqn:Hbest.
  - apply find_best_block_member in Hbest. destruct Hbest as [Hin Hbf].
    pose proof (Hfree best Hin Hbf) as Hne.
    intros H. inversion H; subst r t'. clear H. cbn [claimed blocks]. split.
    + apply set_status_keeps_others; [| congruence].
      apply split_keeps_others; [exact Hc' | congruence].
    + intros hb E. inversion E; subst hb. exact Hne.
  - rewrite last_is_free_ends. destruct (ends_free false l) eqn:Hef.
    + rewrite expand_last_block_run.
      cbn [blocks head_init_done heap_prealloc_done os].
      destruct (get_last_on_heap l) as [last |] eqn:Hlast.
      2:{ exfalso. pose proof (last_is_free_ends l) as E. rewrite Hlast, Hef in E.
          discriminate. }
      pose proof (last_is_free_ends l) as E. rewrite Hlast, Hef in E.
      apply status_eqb_eq in E.
      apply get_last_on_heap_spec in Hlast.
      destruct Hlast as (pre & trailing & Hl & _ & _).
      assert (Hin : In last l) by (rewrite Hl; apply in_or_app; right; left; reflexivity).
      pose proof (Hfree last Hin E) as Hne.
      cbv zeta.
      destruct (sbrk_refused P (os t) (as_signed (wrap (ALIGN sz - size last)))).
      * intros H. inversion H; subst r t'. cbn [claimed blocks].
        split; [exact Hc' | discriminate].
      * intros H. inversion H; subst r t'. clear H. cbn [claimed blocks]. split.
        -- apply set_status_keeps_others; [| congruence].
           apply set_size_keeps_others; [exact Hc' | congruence].
        -- intros hb E'. inversion E'; subst hb. exact Hne.
    + assert (Haway : away (brk (os t)) l).
      { apply coalesce_attempt_keeps_away; [exact Hnd |]. apply Hbrk.
        symmetry. exact Hend. }
      assert (Hne : addr c <> brk (os t)).
      { unfold away in Haway. rewrite Forall_forall in Haway. apply Haway, Hc'. }
      destruct (sbrk_refused P (os t) (as_signed (wrap (META_BLOCK_SIZE P + ALIGN sz)))).
      * intros H. inversion H; subst r t'. cbn [claimed blocks].
        split; [exact Hc' | discriminate].
      * intros H. inversion H; subst r t'. clear H. cbn [claimed blocks]. split.
        -- apply set_status_keeps_others; [| exact Hne].
           unfold list_add_last. apply in_or_app. left. exact Hc'.
        -- intros hb E'. inversion E'; subst hb. congruence.
Qed.

Lemma get_free_heap_block_keeps_in_use sz s c r s' :
  NoDup (map addr (blocks s)) -> away (brk (os s)) (blocks s) ->
  In c (blocks s) -> status c <> STATUS_FREE ->
  get_free_heap_block P sz s = Returns r s' ->
  In c (claimed r (blocks s'))
  /\ forall hb, r = Some hb -> hb <> addr c.
Proof.
  intros Hnd Hbrk Hc Hst.
  rewrite get_free_heap_block_unfold, prealloc_heap_attempt_cases.
  destruct (heap_prealloc_done s).
  - apply placement_keeps_in_use; auto.
  - destruct (sbrk_refused P (os s) HEAP_PREALLOC_SIZE).
    + intros H. inversion H; subst r s'. cbn [claimed blocks].
      split; [exact Hc | discriminate].
    + apply placement_keeps_in_use; cbn [blocks os brk]; unfold list_add_last.
      * rewrite map_app.
        apply (proj2 (NoDup_Add (Add_app (brk (os s)) (map addr (blocks s)) []))).
        rewrite app_nil_r. split; [exact Hnd |]. apply away_not_in, Hbrk.
      * rewrite ends_free_app. simpl. discriminate.
      * apply in_or_app. left. exact Hc.
      * exact Hst.
Qed.

End InUse.

Lemma delete_mapped_block_run P x s :
  delete_mapped_block P x s =
    match lookup x (blocks s) with
    | None => Returns tt s
    | Some b =>
        if negb (status_eqb (status b) STATUS_MAPPED) then Returns tt s
        else if munmap_refused P (os s) x (wrap (size b + META_BLOCK_SIZE P)) then Dies
        else
          Returns tt
            (Allocator (head_init_done s) (heap_prealloc_done s)
               (list_remove_block x (blocks s))
               (Kernel (brk (os s))
                  (Munmap x (wrap (size b + META_BLOCK_SIZE P)) :: calls (os s))))
    end.
Proof.
  unfold delete_mapped_block, bind, ret, Monad_op, op_bind, op_ret, get_blocks,
    put_blocks, munmap_or_die.
  destruct (lookup x (blocks s)) as [b |]; [| reflexivity].
  destruct (negb (status_eqb (status b) STATUS_MAPPED)); [reflexivity |].
  cbn [blocks head_init_done heap_prealloc_done os].
  destruct (munmap_refused P (os s) x (wrap (size b + META_BLOCK_SIZE P))); reflexivity.
Qed.

Lemma size_at_mid x l1 b l2 :
  away x l1 -> addr b = x -> size_at x (l1 ++ b :: l2) = size b.
Proof.
  intros Ha Hb. unfold size_at. rewrite (lookup_mid x l1 b l2) by assumption.
  reflexivity.
Qed.

Lemma copy_block_run dest src n s :
  n <= size_at dest (blocks s) -> n <= size_at src (blocks s) ->
  copy_block dest src n s = Returns tt s.
Proof.
  intros H1 H2. unfold copy_block.
  apply Z.leb_le in H1. apply Z.leb_le in H2. rewrite H1, H2. reflexivity.
Qed.

Section ReallocTiled.

Variable P : platform.
Local Abbreviation META := (META_BLOCK_SIZE P).

Variables start limit : Z.
Hypothesis meta_pos : 0 < META.
Hypothesis meta_small : META <= HEAP_PREALLOC_SIZE.
Hypothesis munmap_granted : forall k base len, munmap_refused P k base len = false.

Local Abbreviation ready s := (tiled P start limit s /\ head_init_done s = true).

Lemma mark_tiled x st s :
  ready s -> x <= limit -> st <> STATUS_MAPPED ->
  ready (Allocator (head_init_done s) (heap_prealloc_done s)
           (set_status x st (blocks s)) (os s)).
Proof.
  intros [(Hstart & Hlim & Hempty & Ht) Hhead] Hx Hst.
  split; [| exact Hhead].
  unfold tiled. cbn [blocks os head_init_done].
  split; [exact Hstart |]. split; [exact Hlim |]. split; [congruence |].
  apply tiles_mark; auto.
Qed.

Lemma claim_then_tiled a s :
  ready s ->
  brk (os s) + HEAP_PREALLOC_SIZE + META + ALIGN a <= limit ->
  exists r s', get_free_heap_block P a s = Returns r s'
    /\ ready (Allocator (head_init_done s') (heap_prealloc_done s')
                (claimed r (blocks s')) (os s')).
Proof.
  intros [(Hstart & Hlim & Hempty & Ht) Hhead] Hroom.
  destruct (get_free_heap_block_tiled P start limit Hstart (proj2 Hlim) meta_pos
              meta_small a s Ht Hroom) as (r & s1 & Hrun & Hh & Hb & Hk).
  exists r, s1. split; [exact Hrun |]. split; [| cbn; congruence].
  unfold tiled. cbn [blocks os head_init_done].
  split; [exact Hstart |]. split; [lia |]. split; [congruence | exact Hk].
Qed.

Lemma ready_nodup s : ready s -> NoDup (map addr (blocks s)).
Proof. intros [(_ & _ & _ & Hnd & _) _]. exact Hnd. Qed.

Lemma ready_away s : ready s -> away (brk (os s)) (blocks s).
Proof.
  intros [(_ & Hlim & _ & Ht) _].
  apply (tiles_away P start limit) with (top := brk (os s)); auto; lia.
Qed.

Lemma mapped_ready x a k s :
  ready s -> 0 <= a -> limit < x -> away x (blocks s) -> brk k = brk (os s) ->
  ready (Allocator (head_init_done s) (heap_prealloc_done s)
           (list_add_last (Block x a STATUS_MAPPED) (blocks s)) k).
Proof.
  intros [(Hstart & Hlim & Hempty & Ht) Hhead] Ha Hx Haway Hk.
  split; [| exact Hhead].
  unfold tiled. cbn [blocks os head_init_done]. rewrite Hk.
  split; [exact Hstart |]. split; [exact Hlim |]. split; [congruence |].
  unfold list_add_last. apply tiles_add_mapped; auto.
Qed.

Lemma unmapped_ready x k s :
  ready s -> brk k = brk (os s) ->
  (forall b, lookup x (blocks s) = Some b -> status b = STATUS_MAPPED) ->
  ready (Allocator (head_init_done s) (heap_prealloc_done s)
           (list_remove_block x (blocks s)) k).
Proof.
  intros [(Hstart & Hlim & Hempty & Ht) Hhead] Hk Hmapped.
  split; [| exact Hhead].
  unfold tiled. cbn [blocks os head_init_done]. rewrite Hk.
  split; [exact Hstart |]. split; [exact Hlim |]. split; [congruence |].
  destruct (lookup x (blocks s)) as [b |] eqn:Hl.
  - specialize (Hmapped b eq_refl).
    unfold lookup in Hl. apply find_some in Hl. destruct Hl as [Hin Hb].
    apply Z.eqb_eq in Hb. apply in_split in Hin. destruct Hin as (l1 & l2 & Hl).
    pose proof Ht as (Hnd & _). rewrite Hl in Hnd.
    destruct (NoDup_mid _ _ _ Hnd) as (A1 & A2 & _).
    rewrite Hl in *. rewrite <- Hb. rewrite remove_mid by auto.
    apply (tiles_remove_mapped P start limit _ l1 b l2); assumption.
  - rewrite remove_away; [exact Ht |].
    unfold away. apply Forall_forall. intros c Hc E.
    unfold lookup in Hl. apply (find_none _ _ Hl) in Hc.
    apply Z.eqb_neq in Hc. contradiction.
Qed.

(** The placement with the block in use [c] followed through it. *)
Lemma claim_then_tracked a s c :
  ready s ->
  brk (os s) + HEAP_PREALLOC_SIZE + META + ALIGN a <= limit ->
  In c (blocks s) -> status c <> STATUS_FREE ->
  exists r s', get_free_heap_block P a s = Returns r s'
    /\ ready (Allocator (head_init_done s') (heap_prealloc_done s')
                (claimed r (blocks s')) (os s'))
    /\ search_in P (addr c + META) (claimed r (blocks s')) = Some c
    /\ match r with
       | Some hb =>
           hb <> addr c /\ owned P (ALIGN a) hb (blocks s')
           /\ forall o, lookup hb (set_status hb STATUS_ALLOC (blocks s')) = Some o ->
                size o <= ALIGN a + META + 1
       | None => True
       end.
Proof.
  intros Hs Hroom Hc Hst.
  destruct (claim_then_tiled a s Hs Hroom) as (r & s1 & Hrun & Hr).
  exists r, s1. split; [exact Hrun |]. split; [exact Hr |].
  destruct (get_free_heap_block_keeps_in_use P a s c r s1
              (ready_nodup _ Hs) (ready_away _ Hs) Hc Hst Hrun) as [Hin Hne].
  split.
  { apply search_of_member; [| exact Hin]. apply (ready_nodup _ Hr). }
  destruct r as [hb |]; [| exact I]. split; [apply Hne; reflexivity |].
  split.
  - destruct (get_free_heap_block_owned P a s (ready_nodup _ Hs) (ready_away _ Hs))
      as (r' & s1' & Hrun' & Ho).
    rewrite Hrun in Hrun'. inversion Hrun'; subst r' s1'. exact Ho.
  - intros o Ho. destruct Hs as [(Hstart & Hlim & _ & Ht) _].
    apply (get_free_heap_block_bounded P start limit) with (s := s) (hb := hb) (s' := s1);
      try assumption; lia.
Qed.

Variables (req : block_meta) (a : Z) (s : allocator) (l1 l2 : list block_meta).
Hypothesis s_ready : ready s.
Hypothesis shape : blocks s = l1 ++ req :: l2.
Hypothesis in_use : status req <> STATUS_FREE.
Hypothesis a_range : 0 <= a < 2 ^ 64.
Hypothesis a_aligned : a mod 8 = 0.
Hypothesis room : brk (os s) + HEAP_PREALLOC_SIZE + MMAP_THRESHOLD + META <= limit.
Hypothesis mapping_fresh :
  forall x, mmap_answer P (os s) (wrap (META + a)) = Some x ->
    limit < x /\ away x (blocks s).
Hypothesis enough_left :
  status req = STATUS_MAPPED -> a < size req -> a < MMAP_THRESHOLD ->
  a + META < size req.

Local Abbreviation p := (addr req + META).
Local Abbreviation outcome r s' := (ready s' /\ realloc_outcome P req a r (blocks s')).

Lemma owner_in : In req (blocks s).
Proof. rewrite shape. apply in_or_app. right. left. reflexivity. Qed.

Lemma owner_found : search_in P p (blocks s) = Some req.
Proof. apply search_of_member; [apply ready_nodup, s_ready | apply owner_in]. Qed.

Lemma owner_low : status req <> STATUS_MAPPED -> addr req <= limit.
Proof.
  intros Hheap. destruct s_ready as [(Hstart & Hlim & _ & Ht) _].
  assert (Hw : start <= addr req /\ addr req + META + size req <= brk (os s))
    by (apply (tiles_within P start limit) with (l := blocks s);
        auto using owner_in).
  assert (H0 : 0 <= size req)
    by (apply (tiles_size P start limit) with (top := brk (os s)) (l := blocks s);
        auto using owner_in).
  lia.
Qed.

Lemma held_here k :
  brk k = brk (os s) ->
  outcome NULL (Allocator (head_init_done s) (heap_prealloc_done s) (blocks s) k).
Proof.
  intros E. split.
  - destruct s_ready as [(Hstart & Hlim & Hempty & Ht) Hhead].
    split; [| exact Hhead]. unfold tiled. cbn [blocks os head_init_done]. rewrite E.
    split; [exact Hstart |]. split; [exact Hlim |]. split; [exact Hempty | exact Ht].
  - left. split; [reflexivity |]. exists req. cbn [blocks].
    split; [exact owner_found |]. split; [reflexivity |]. split; [reflexivity | lia].
Qed.

(** The block moves to a new mapping and its old mapping is returned. *)
Lemma mapped_tail x n :
  status req = STATUS_MAPPED ->
  limit < x -> away x (blocks s) -> n <= a -> n <= size req ->
  exists s',
    (copy_block x (addr req) n ;;
     delete_mapped_block P (addr req) ;;
     ret (x + META))
      (Allocator (head_init_done s) (heap_prealloc_done s)
         (list_add_last (Block x a STATUS_MAPPED) (blocks s))
         (Kernel (brk (os s)) (Mmap (wrap (META + a)) :: calls (os s))))
    = Returns (x + META) s'
    /\ outcome (x + META) s'.
Proof.
  intros Hmapped Hlim Haway Hna Hnr.
  set (nb := Block x a STATUS_MAPPED).
  set (s1 := Allocator _ _ _ _).
  assert (Hr1 : ready s1)
    by (apply mapped_ready; [exact s_ready | lia | exact Hlim | exact Haway | reflexivity]).
  pose proof (ready_nodup _ s_ready) as Hnd. rewrite shape in Hnd.
  destruct (NoDup_mid _ _ _ Hnd) as (A1 & _ & _).
  assert (Hfound1 : search_in P p (blocks s1) = Some req).
  { cbn [blocks s1]. unfold list_add_last. rewrite shape, <- app_assoc. simpl.
    apply search_mid; [exact A1 | reflexivity]. }
  assert (Hne : addr req <> x).
  { unfold away in Haway. rewrite Forall_forall in Haway. apply Haway, owner_in. }
  assert (Hdest : size_at x (blocks s1) = a).
  { cbn [blocks s1]. unfold list_add_last.
    apply (size_at_mid x (blocks s) nb []); [exact Haway | reflexivity]. }
  assert (Hsrc : size_at (addr req) (blocks s1) = size req).
  { cbn [blocks s1]. unfold list_add_last. rewrite shape, <- app_assoc. simpl.
    apply size_at_mid; [exact A1 | reflexivity]. }
  unfold bind at 1. unfold Monad_op at 1, op_bind at 1.
  rewrite copy_block_run by lia.
  unfold bind, ret, Monad_op, op_bind, op_ret.
  rewrite delete_mapped_block_run.
  rewrite (search_lookup _ _ _ _ Hfound1), Hmapped. simpl negb. cbv iota.
  rewrite munmap_granted.
  eexists. split; [reflexivity |]. split.
  - apply unmapped_ready; [exact Hr1 | reflexivity |].
    intros b Hb. rewrite (search_lookup _ _ _ _ Hfound1) in Hb.
    inversion Hb; subst b. exact Hmapped.
  - right. cbn [blocks]. split.
    + exists nb. split; [| simpl; repeat split; [discriminate | lia]].
      rewrite search_other_removed by lia.
      cbn [blocks s1]. unfold list_add_last.
      apply search_mid; [exact Haway | reflexivity].
    + right. left. apply search_removed. reflexivity.
Qed.

Lemma move_to_mapping :
  status req = STATUS_MAPPED -> size req <= a ->
  exists r s',
    (new_map_block <- map_block_in_mem P a ;;
     match new_map_block with
     | None => ret NULL
     | Some nb =>
         copy_block nb (addr req) (size req) ;;
         delete_mapped_block P (addr req) ;;
         ret (nb + META)
     end) s = Returns r s'
    /\ outcome r s'.
Proof.
  intros Hmapped Hgrow.
  unfold bind at 1. unfold Monad_op at 1, op_bind at 1. rewrite map_block_in_mem_run.
  destruct (mmap_answer P (os s) (wrap (META + a))) as [x |] eqn:Hx.
  2:{ eexists _, _. split; [reflexivity |]. apply held_here. reflexivity. }
  destruct (mapping_fresh x eq_refl) as [Hlim Haway].
  destruct (mapped_tail x (size req) Hmapped Hlim Haway Hgrow ltac:(lia))
    as (s' & Hrun & Hout).
  exists (x + META), s'. split; [exact Hrun | exact Hout].
Qed.

Lemma move_to_smaller_mapping :
  status req = STATUS_MAPPED -> a <= size req ->
  exists r s',
    (new_map_block <- map_block_in_mem P a ;;
     match new_map_block with
     | None => ret NULL
     | Some nb =>
         l <- get_blocks ;;
         copy_block nb (addr req) (size_at nb l) ;;
         delete_mapped_block P (addr req) ;;
         ret (nb + META)
     end) s = Returns r s'
    /\ outcome r s'.
Proof.
  intros Hmapped Hshrink.
  unfold bind at 1. unfold Monad_op at 1, op_bind at 1. rewrite map_block_in_mem_run.
  destruct (mmap_answer P (os s) (wrap (META + a))) as [x |] eqn:Hx.
  2:{ eexists _, _. split; [reflexivity |]. apply held_here. reflexivity. }
  destruct (mapping_fresh x eq_refl) as [Hlim Haway].
  destruct (mapped_tail x a Hmapped Hlim Haway ltac:(lia) Hshrink)
    as (s' & Hrun & Hout).
  exists (x + META), s'. split; [| exact Hout].
  unfold bind at 1. unfold Monad_op at 1, op_bind at 1. unfold get_blocks at 1.
  cbn [blocks]. unfold list_add_last at 1.
  rewrite (size_at_mid x (blocks s) (Block x a STATUS_MAPPED) [])
    by (auto; reflexivity).
  exact Hrun.
Qed.

(** The block moves to the heap; [rest] copies it and disposes of the old
    block. *)
Lemma move_to_heap (rest : Z -> op Z) :
  a < MMAP_THRESHOLD ->
  forall t b,
    ready t -> os t = os s -> In b (blocks t) ->
    addr b = addr req -> status b = status req -> size req <= size b ->
    (forall hb u o,
       ready u -> search_in P p (blocks u) = Some b -> hb <> addr req ->
       lookup hb (blocks u) = Some o -> a <= size o <= a + META + 1 ->
       exists u', rest hb u = Returns (hb + META) u' /\ ready u'
         /\ released P p (blocks u')
         /\ forall q, q <> p -> search_in P q (blocks u') = search_in P q (blocks u)) ->
    exists r s',
      (heap_block <- get_free_heap_block P a ;;
       match heap_block with
       | None => ret NULL
       | Some hb => mark hb STATUS_ALLOC ;; rest hb
       end) t = Returns r s'
      /\ outcome r s'.
Proof.
  intros Hheap t b Ht Hos Hb Eaddr Est Esize Hrest.
  destruct (claim_then_tracked a t b Ht) as (r & s1 & Hrun & Hr & Hfound & Hcase).
  { rewrite Hos, ALIGN_aligned by assumption.
    unfold HEAP_PREALLOC_SIZE, MMAP_THRESHOLD in *. lia. }
  { exact Hb. }
  { rewrite Est. exact in_use. }
  rewrite Eaddr in Hfound.
  unfold bind at 1. unfold Monad_op at 1, op_bind at 1. rewrite Hrun.
  destruct r as [hb |].
  - destruct Hcase as (Hne & (o & Ho & Eo & Hso & Hsz) & Hbound).
    cbn [claimed blocks] in *.
    rewrite ALIGN_aligned in Hsz, Hbound by assumption.
    pose proof (search_lookup _ _ _ _ Ho) as Hlo. rewrite Eo in Hlo.
    destruct (Hrest hb _ o Hr Hfound ltac:(congruence) Hlo
                (conj Hsz (Hbound o Hlo)))
      as (s2 & Hrun2 & Hr2 & Hrel & Hother).
    cbn [blocks] in *.
    exists (hb + META), s2. split.
    { unfold bind, Monad_op, op_bind. rewrite mark_run. exact Hrun2. }
    split; [exact Hr2 |]. right. split.
    + exists o. rewrite Hother by lia. split; [exact Ho |].
      split; [lia |]. split; [rewrite Hso; discriminate | exact Hsz].
    + right. exact Hrel.
  - exists NULL, s1. split; [reflexivity |]. cbn [claimed] in *. split.
    + destruct s1; exact Hr.
    + left. split; [reflexivity |]. exists b. auto.
Qed.

Lemma split_outcome t m1 b m2 :
  ready t -> blocks t = m1 ++ b :: m2 ->
  addr b = addr req -> status b = status req -> a <= size b ->
  status req <> STATUS_MAPPED ->
  outcome p
    (Allocator (head_init_done t) (heap_prealloc_done t)
       (split_block_attempt P (addr req) a (blocks t)) (os t)).
Proof.
  intros Ht Hshape Eaddr Est Hfit Hheap.
  pose proof (ready_nodup _ Ht) as Hnd. rewrite Hshape in Hnd.
  destruct (NoDup_mid _ _ _ Hnd) as (A1 & _ & _).
  split.
  - destruct Ht as [(Hstart & Hlim & Hempty & Htiles) Hhead].
    split; [| exact Hhead]. unfold tiled. cbn [blocks os head_init_done].
    split; [exact Hstart |]. split; [exact Hlim |]. split; [congruence |].
    apply split_block_attempt_tiled; auto; try lia.
    + rewrite <- Eaddr.
      assert (Hin : In b (blocks t)).
      { rewrite Hshape. apply in_or_app. right. left. reflexivity. }
      assert (Hw : start <= addr b /\ addr b + META + size b <= brk (os t))
        by (apply (tiles_within P start limit) with (l := blocks t);
            try assumption; congruence).
      assert (H0 : 0 <= size b)
        by (apply (tiles_size P start limit) with (top := brk (os t)) (l := blocks t);
            assumption).
      lia.
    + intros c Hc. rewrite Hshape, <- Eaddr in Hc.
      rewrite lookup_mid in Hc by auto. inversion Hc; subst c. exact Hfit.
  - right. cbn [blocks]. split; [| left; reflexivity].
    rewrite Hshape, <- Eaddr.
    destruct (split_shape_sizes P m1 b m2 a Hnd) as [-> | (nb & -> & _)].
    + exists b. split; [apply search_mid; auto |].
      split; [reflexivity |]. split; [rewrite Est; exact in_use | exact Hfit].
    + exists (Block (addr b) (ALIGN a) (status b)).
      split; [apply search_mid; auto |].
      split; [reflexivity |]. split; [simpl; rewrite Est; exact in_use |].
      simpl. rewrite ALIGN_aligned by assumption. lia.
Qed.

Lemma mark_free_after b :
  addr b = addr req -> status req <> STATUS_MAPPED ->
  forall u, ready u -> search_in P p (blocks u) = Some b ->
    exists u', mark (addr req) STATUS_FREE u = Returns tt u' /\ ready u'
      /\ released P p (blocks u')
      /\ forall q, q <> p -> search_in P q (blocks u') = search_in P q (blocks u).
Proof.
  intros Eaddr Hheap u Hu Hfound. eexists. split; [apply mark_run |].
  split; [apply mark_tiled; [exact Hu | apply owner_low, Hheap | discriminate] |].
  cbn [blocks]. split.
  - right. exists (with_status STATUS_FREE b). split; [| reflexivity].
    rewrite <- Eaddr in Hfound |- *. apply search_marked. exact Hfound.
  - intros q Hq. apply search_other_marked. lia.
Qed.

Lemma unmap_after b :
  addr b = addr req -> status b = STATUS_MAPPED ->
  forall u, ready u -> search_in P p (blocks u) = Some b ->
    exists u', delete_mapped_block P (addr req) u = Returns tt u' /\ ready u'
      /\ released P p (blocks u')
      /\ forall q, q <> p -> search_in P q (blocks u') = search_in P q (blocks u).
Proof.
  intros Eaddr Hmapped u Hu Hfound.
  pose proof (search_lookup _ _ _ _ Hfound) as Hl. rewrite Eaddr in Hl.
  rewrite delete_mapped_block_run, Hl, Hmapped. simpl negb. cbv iota.
  rewrite munmap_granted. eexists. split; [reflexivity |].
  split.
  { apply unmapped_ready; [exact Hu | reflexivity |].
    intros c Hc. rewrite Hl in Hc. inversion Hc; subst c. exact Hmapped. }
  cbn [blocks]. split.
  - left. apply search_removed. reflexivity.
  - intros q Hq. apply search_other_removed. lia.
Qed.

Lemma copy_then_free b :
  addr b = addr req -> status req <> STATUS_MAPPED ->
  size req <= size b -> size req <= a ->
  forall hb u o,
    ready u -> search_in P p (blocks u) = Some b -> hb <> addr req ->
    lookup hb (blocks u) = Some o -> a <= size o <= a + META + 1 ->
    exists u',
      (copy_block hb (addr req) (size req) ;;
       mark (addr req) STATUS_FREE ;;
       ret (hb + META)) u = Returns (hb + META) u'
      /\ ready u' /\ released P p (blocks u')
      /\ forall q, q <> p -> search_in P q (blocks u') = search_in P q (blocks u).
Proof.
  intros Eaddr Hheap Esize Hfit hb u o Hu Hfound Hne Hlo Hso.
  pose proof (search_lookup _ _ _ _ Hfound) as Hlb. rewrite Eaddr in Hlb.
  destruct (mark_free_after b Eaddr Hheap u Hu Hfound) as (u' & Hm & Hrest).
  exists u'. split; [| exact Hrest].
  unfold bind at 1. unfold Monad_op at 1, op_bind at 1.
  rewrite copy_block_run by (unfold size_at; rewrite ?Hlo, ?Hlb; lia).
  unfold bind, ret, Monad_op, op_bind, op_ret. rewrite Hm. reflexivity.
Qed.

Lemma copy_then_unmap :
  status req = STATUS_MAPPED -> a < size req -> a < MMAP_THRESHOLD ->
  forall hb u o,
    ready u -> search_in P p (blocks u) = Some req -> hb <> addr req ->
    lookup hb (blocks u) = Some o -> a <= size o <= a + META + 1 ->
    exists u',
      (l <- get_blocks ;;
       copy_block hb (addr req) (size_at hb l) ;;
       delete_mapped_block P (addr req) ;;
       ret (hb + META)) u = Returns (hb + META) u'
      /\ ready u' /\ released P p (blocks u')
      /\ forall q, q <> p -> search_in P q (blocks u') = search_in P q (blocks u).
Proof.
  intros Hmapped Hshrink Hheap hb u o Hu Hfound Hne Hlo Hso.
  pose proof (enough_left Hmapped Hshrink Hheap) as Hleft.
  pose proof (search_lookup _ _ _ _ Hfound) as Hlb.
  destruct (unmap_after req eq_refl Hmapped u Hu Hfound) as (u' & Hm & Hrest).
  exists u'. split; [| exact Hrest].
  unfold bind at 1. unfold Monad_op at 1, op_bind at 1. unfold get_blocks at 1.
  unfold bind at 1. unfold Monad_op at 1, op_bind at 1.
  rewrite copy_block_run by (unfold size_at; rewrite ?Hlo, ?Hlb; lia).
  unfold bind, ret, Monad_op, op_bind, op_ret. rewrite Hm. reflexivity.
Qed.

Lemma extend_realloc_outcome :
  size req < a ->
  exists r s', extend_realloc P req a s = Returns r s' /\ outcome r s'.
Proof.
  intros Hgrow. unfold extend_realloc.
  destruct (status_eqb (status req) STATUS_MAPPED) eqn:Hst.
  { apply move_to_mapping; [apply status_eqb_eq, Hst | lia]. }
  assert (Hheap : status req <> STATUS_MAPPED).
  { intros H. rewrite H in Hst. discriminate. }
  pose proof (owner_low Hheap) as Hlow.
  pose proof (ready_nodup _ s_ready) as Hnd.
  pose proof Hnd as Hnd0. rewrite shape in Hnd0.
  destruct (NoDup_mid _ _ _ Hnd0) as (A1 & A2 & _).
  destruct (MMAP_THRESHOLD <=? a) eqn:Hbig.
  { unfold bind at 1. unfold Monad_op at 1, op_bind at 1. rewrite map_block_in_mem_run.
    destruct (mmap_answer P (os s) (wrap (META + a))) as [x |] eqn:Hx.
    2:{ eexists _, _. split; [reflexivity |]. apply held_here. reflexivity. }
    destruct (mapping_fresh x eq_refl) as [Hlim Haway].
    unfold bind at 1. unfold Monad_op at 1, op_bind at 1.
    rewrite copy_block_run.
    2:{ cbn [blocks]. unfold list_add_last.
        rewrite (size_at_mid x (blocks s) (Block x a STATUS_MAPPED) [])
          by (auto; reflexivity).
        simpl. lia. }
    2:{ cbn [blocks]. unfold list_add_last. rewrite shape, <- app_assoc. simpl.
        rewrite size_at_mid by auto. lia. }
    eexists _, _. split; [reflexivity |].
    assert (Hne : addr req <> x).
    { unfold away in Haway. rewrite Forall_forall in Haway. apply Haway, owner_in. }
    split.
    - apply mark_tiled; [| exact Hlow | discriminate].
      apply mapped_ready; [exact s_ready | lia | exact Hlim | exact Haway | reflexivity].
    - right. cbn [blocks]. unfold list_add_last. split.
      + exists (Block x a STATUS_MAPPED).
        split; [| simpl; repeat split; [discriminate | lia]].
        rewrite search_other_marked by lia.
        apply search_mid; [exact Haway | reflexivity].
      + right. right. exists (with_status STATUS_FREE req). split; [| reflexivity].
        apply search_marked. rewrite shape, <- app_assoc. simpl.
        apply search_mid; [exact A1 | reflexivity]. }
  apply Z.leb_gt in Hbig.
  unfold bind at 1. unfold Monad_op at 1, op_bind at 1. unfold get_blocks at 1.
  pose proof s_ready as [(Hstart & Hlim & Hempty & Ht) Hhead].
  pose proof (tiles_size P start limit _ _ _ Ht owner_in) as H0.
  destruct (is_block (addr req) (get_last_on_heap (blocks s))) eqn:Hlast.
  - unfold is_block in Hlast.
    destruct (get_last_on_heap (blocks s)) as [last |] eqn:Hl; [| discriminate].
    apply Z.eqb_eq in Hlast.
    pose proof (proj1 (get_last_on_heap_spec _ _) Hl) as (pre & trailing & Hb & Htr & _).
    assert (last = req).
    { apply (NoDup_addr_inj (blocks s)); auto using owner_in.
      rewrite Hb. apply in_or_app. right. left. reflexivity. }
    subst last.
    unfold bind at 1. unfold Monad_op at 1, op_bind at 1.
    rewrite expand_last_block_run, Hl. cbv zeta.
    rewrite wrap_add_sub by exact a_range.
    unfold MMAP_THRESHOLD in Hbig.
    rewrite (wrap_small (a - size req)) by lia.
    rewrite as_signed_small by lia.
    destruct (sbrk_refused P (os s) (a - size req)).
    + eexists _, _. split; [reflexivity |]. apply held_here. reflexivity.
    + eexists _, _. split; [reflexivity |].
      rewrite Hb in *.
      destruct (NoDup_mid _ _ _ Hnd) as (B1 & B2 & _).
      cbn [blocks]. rewrite set_size_mid by auto. split.
      * split; [| exact Hhead].
        unfold tiled. cbn [blocks os head_init_done brk].
        unfold HEAP_PREALLOC_SIZE, MMAP_THRESHOLD in *.
        split; [exact Hstart |]. split; [lia |]. split; [congruence |].
        apply tiles_grow_last; auto; lia.
      * right. split; [| left; reflexivity].
        exists (with_size a req). split; [apply search_mid; auto |].
        simpl. repeat split; auto. lia.
  - cbv zeta.
    destruct (block_coalesce_to_size_shape P start limit Hstart (proj2 Hlim) meta_pos
                (brk (os s)) a l1 req l2) as (b & rest & Hshape & Eaddr & Est & Esize);
      [rewrite <- shape; exact Ht | lia | exact Hheap |].
    rewrite <- shape in Hshape.
    set (lc := block_coalesce_to_size P (addr req) a (blocks s)) in *.
    assert (Ht1 : tiles P start limit (brk (os s)) lc).
    { apply block_coalesce_to_size_tiled; auto using owner_in; lia. }
    unfold bind at 1. unfold Monad_op at 1, op_bind at 1. unfold put_blocks at 1.
    set (t1 := Allocator (head_init_done s) (heap_prealloc_done s) lc (os s)).
    assert (Hr1 : ready t1).
    { split; [| exact Hhead]. unfold tiled. cbn [blocks os head_init_done t1].
      split; [exact Hstart |]. split; [exact Hlim |]. split; [congruence | exact Ht1]. }
    pose proof (ready_nodup _ Hr1) as Hndc. cbn [blocks t1] in Hndc.
    rewrite Hshape in Hndc. destruct (NoDup_mid _ _ _ Hndc) as (C1 & _ & _).
    assert (Hlook : lookup (addr req) lc = Some b).
    { rewrite Hshape. apply lookup_mid; auto. }
    rewrite Hlook.
    destruct (a <=? size b) eqn:Hgrown.
    + apply Z.leb_le in Hgrown.
      eexists _, _. split; [reflexivity |].
      apply (split_outcome t1 l1 b rest); auto.
    + apply (move_to_heap
               (fun hb =>
                  copy_block hb (addr req) (size req) ;;
                  mark (addr req) STATUS_FREE ;;
                  ret (hb + META))
               Hbig t1 b); auto.
      * cbn [blocks t1]. rewrite Hshape. apply in_or_app. right. left. reflexivity.
      * apply copy_then_free; auto. lia.
Qed.

Lemma shrink_realloc_outcome :
  a < size req ->
  exists r s', shrink_realloc P req a s = Returns r s' /\ outcome r s'.
Proof.
  intros Hshrink. unfold shrink_realloc.
  destruct (status_eqb (status req) STATUS_MAPPED) eqn:Hst.
  - apply status_eqb_eq in Hst.
    destruct (MMAP_THRESHOLD <=? a) eqn:Hbig.
    + apply move_to_smaller_mapping; [exact Hst | lia].
    + apply Z.leb_gt in Hbig.
      apply (move_to_heap
               (fun hb =>
                  l <- get_blocks ;;
                  copy_block hb (addr req) (size_at hb l) ;;
                  delete_mapped_block P (addr req) ;;
                  ret (hb + META))
               Hbig s req);
        auto using owner_in; try lia.
      apply copy_then_unmap; auto.
  - assert (Hheap : status req <> STATUS_MAPPED).
    { intros H. rewrite H in Hst. discriminate. }
    unfold bind at 1. unfold Monad_op at 1, op_bind at 1. unfold get_blocks at 1.
    eexists _, _. split; [reflexivity |].
    apply (split_outcome s l1 req l2); auto. lia.
Qed.

End ReallocTiled.

Lemma os_realloc_found (P : platform) (start limit : Z) (s : allocator)
  (p sz : Z) (req : block_meta) :
  0 < META_BLOCK_SIZE P <= HEAP_PREALLOC_SIZE ->
  (forall k base len, munmap_refused P k base len = false) ->
  tiled P start limit s ->
  head_init_done s = true ->
  p <> NULL -> sz <> 0 ->
  search_in P p (blocks s) = Some req ->
  status req <> STATUS_FREE ->
  brk (os s) + HEAP_PREALLOC_SIZE + MMAP_THRESHOLD + META_BLOCK_SIZE P <= limit ->
  (forall x, mmap_answer P (os s) (wrap (META_BLOCK_SIZE P + ALIGN sz)) = Some x ->
     limit < x /\ away x (blocks s)) ->
  (status req = STATUS_MAPPED -> ALIGN sz < size req -> ALIGN sz < MMAP_THRESHOLD ->
   ALIGN sz + META_BLOCK_SIZE P < size req) ->
  exists r s',
    os_realloc P p sz s = Returns r s'
    /\ tiled P start limit s'
    /\ realloc_outcome P req (ALIGN sz) r (blocks s').
Proof.
  intros [Hm1 Hm2] Hunmap Ht Hhead Hp Hsz Hfound Hst Hroom Hmap Hleft.
  pose proof (ALIGN_range sz) as Hr.
  pose proof (search_in_payload _ _ _ _ Hfound) as Hpay.
  pose proof (search_lookup _ _ _ _ Hfound) as Hl. unfold lookup in Hl.
  apply find_some in Hl. destruct Hl as [Hin _].
  apply in_split in Hin. destruct Hin as (l1 & l2 & Hshape).
  unfold os_realloc.
  replace (p =? NULL) with false by (symmetry; apply Z.eqb_neq; exact Hp).
  replace (sz =? 0) with false by (symmetry; apply Z.eqb_neq; exact Hsz).
  unfold bind at 1. unfold Monad_op at 1, op_bind at 1.
  unfold search_block_in_list. rewrite Hhead, Hfound.
  replace (status_eqb (status req) STATUS_FREE) with false
    by (destruct (status req); try reflexivity; contradiction).
  cbv zeta.
  destruct (Z.eqb_spec (ALIGN sz) (size req)) as [Esame | Hdiff].
  { exists (addr req + META_BLOCK_SIZE P), s. split; [reflexivity |].
    split; [exact Ht |]. right. split; [| left; reflexivity].
    exists req. rewrite Hpay. repeat split; auto. lia. }
  destruct (Z.ltb_spec (size req) (ALIGN sz)) as [Hgrow | Hnot].
  { destruct (extend_realloc_outcome P start limit Hm1 Hm2 Hunmap req (ALIGN sz) s l1 l2)
      as (r & s' & Hrun & [Ht' _] & Hout); auto using ALIGN_mod8.
    exists r, s'. auto. }
  destruct (Z.ltb_spec (ALIGN sz) (size req)) as [Hshrink | Hnot']; [| lia].
  destruct (shrink_realloc_outcome P start limit Hm1 Hm2 Hunmap req (ALIGN sz) s l1 l2)
    as (r & s' & Hrun & [Ht' _] & Hout); auto using ALIGN_mod8.
  exists r, s'. auto.
Qed.

(** The move that the two statements below leave out.  The mapping
    holds 4064 bytes and shrinks to 4040; the free block of the heap
    holds 4072, too few to be split; [shrink_realloc] copies
    [heap_block->size] bytes, 8 more than the mapping has. *)
Lemma shrink_realloc_reads_past_mapping :
  os_realloc linux64 (1099511627776 + 32) 4040
    (Allocator true true
       [Block 4096 4072 STATUS_FREE; Block 1099511627776 4064 STATUS_MAPPED]
       (Kernel 8200 [Mmap 4096; Sbrk 4104]))
  = Faults.
Proof. vm_compute. reflexivity. Qed.



(** * What a tiled heap gives the caller *)

Lemma tiles_disjoint P start limit top l b c :
  tiles P start limit top l -> In b l -> In c l -> b <> c ->
  status b <> STATUS_MAPPED -> status c <> STATUS_MAPPED ->
  addr c + META_BLOCK_SIZE P + size c <= addr b
  \/ addr b + META_BLOCK_SIZE P + size b <= addr c.
Proof.
  intros (Hnd & Hs & Hl & He & _) Hb Hc Hne Hhb Hhc.
  apply in_split in Hb. destruct Hb as (l1 & l2 & ->).
  pose proof (heap_blocks_sizes _ Hs) as Hhs.
  rewrite heap_blocks_mid in Hl, Hhs by exact Hhb.
  unfold sizes_nonneg in Hhs. apply Forall_app in Hhs. destruct Hhs as [Hs1 Hs2].
  apply Forall_cons_iff in Hs2. destruct Hs2 as [_ Hs2].
  apply laid_out_app in Hl. destruct Hl as [Hl1 [Eb Hl2]].
  assert (Hheap : forall l', In c l' -> In c (heap_blocks l')).
  { intros l' H. unfold heap_blocks. apply filter_In. split; [exact H |].
    destruct (status c); try reflexivity. contradiction. }
  apply in_app_or in Hc. destruct Hc as [Hc | [Hc | Hc]].
  - left. destruct (laid_out_within P _ _ Hs1 Hl1 c (Hheap _ Hc)) as [_ H]. lia.
  - congruence.
  - right. destruct (laid_out_within P _ _ Hs2 Hl2 c (Hheap _ Hc)) as [H _]. lia.
Qed.



(** * [os_calloc] and the product of its operands *)

Lemma ALIGN_ge x : 0 <= x <= 2 ^ 64 - 8 -> x <= ALIGN x.
Proof.
  intros Hx. rewrite ALIGN_eq, wrap_small by lia.
  pose proof (Z.div_mod (x + 7) 8 ltac:(lia)) as Hd.
  pose proof (Z.mod_pos_bound (x + 7) 8 ltac:(lia)) as Hm. lia.
Qed.

Lemma os_calloc_run P n sz s :
  n <> 0 -> sz <> 0 ->
  ALIGN (wrap (sz * n)) >= sz -> ALIGN (wrap (sz * n)) >= n ->
  os_calloc P n sz s =
    if as_signed (wrap (ALIGN (wrap (sz * n)) + META_BLOCK_SIZE P)) <? getpagesize P then
      (heap_block <- get_free_heap_block P (ALIGN (wrap (sz * n))) ;;
       match heap_block with
       | None => ret NULL
       | Some hb => mark hb STATUS_ALLOC ;; ret (hb + META_BLOCK_SIZE P)
       end) (with_head s)
    else
      (block <- map_block_in_mem P (ALIGN (wrap (sz * n))) ;;
       match block with
       | None => ret NULL
       | Some b => ret (b + META_BLOCK_SIZE P)
       end) (with_head s).
Proof.
  intros Hn Hsz H1 H2. unfold os_calloc. cbv zeta.
  replace ((n =? 0) || (sz =? 0)) with false
    by (symmetry; apply orb_false_iff; split; apply Z.eqb_neq; assumption).
  unfold bind at 1. unfold Monad_op at 1, op_bind at 1. rewrite ensure_head_run.
  replace ((ALIGN (wrap (sz * n)) <? sz) || (ALIGN (wrap (sz * n)) <? n)) with false
    by (symmetry; apply orb_false_iff; split; apply Z.ltb_ge; lia).
  destruct (as_signed (wrap (ALIGN (wrap (sz * n)) + META_BLOCK_SIZE P)) <? getpagesize P);
    reflexivity.
Qed.


(** X22. The overflow test of [os_calloc] lets wrapped products through.
    When [nmemb * size] does not fit in a [size_t] but the wrapped product,
    rounded up, is still at least as large as each operand, the request
    is not rejected: for a size that goes to [mmap], the call returns a
    fresh mapping whose payload holds the wrapped product rounded up,
    which is fewer bytes than [nmemb * size]. *)
Theorem os_calloc_accepts_wrapped_products (P : platform) (s : allocator)
  (n sz x : Z) :
  0 < n -> 0 < sz ->
  2 ^ 64 <= sz * n ->
  n <= ALIGN (wrap (sz * n)) -> sz <= ALIGN (wrap (sz * n)) ->
  getpagesize P <= as_signed (wrap (ALIGN (wrap (sz * n)) + META_BLOCK_SIZE P)) ->
  mmap_answer P (os s) (wrap (META_BLOCK_SIZE P + ALIGN (wrap (sz * n)))) = Some x ->
  away x (blocks (with_head s)) ->
  exists s',
    os_calloc P n sz s = Returns (x + META_BLOCK_SIZE P) s'
    /\ search_in P (x + META_BLOCK_SIZE P) (blocks s')
       = Some (Block x (ALIGN (wrap (sz * n))) STATUS_MAPPED)
    /\ ALIGN (wrap (sz * n)) < sz * n.
Proof.
  intros Hn Hsz Hwraps H1 H2 Hmapped Hx Haway.
  pose proof (ALIGN_range (wrap (sz * n))) as Hr.
  rewrite os_calloc_run by lia.
  replace (as_signed (wrap (ALIGN (wrap (sz * n)) + META_BLOCK_SIZE P)) <? getpagesize P)
    with false by (symmetry; apply Z.ltb_ge; exact Hmapped).
  unfold bind at 1. unfold Monad_op at 1, op_bind at 1.
  rewrite map_block_in_mem_run, with_head_os, Hx.
  eexists. split; [reflexivity |]. cbn [blocks]. unfold list_add_last.
  split; [apply search_mid; [exact Haway | reflexivity] | lia].
Qed.

(** * The further statements at work on concrete inputs *)

Lemma coalesce_attempt_no_adjacent_free_witness :
  NoDup (map addr sample_list)
  /\ no_adjacent_free (coalesce_attempt linux64 sample_list) = true
  /\ NoDup (map addr (coalesce_attempt linux64 sample_list)).
Proof.
  assert (H : NoDup (map addr sample_list)) by (unfold sample_list; distinct_addresses).
  split; [exact H |].
  apply (coalesce_attempt_no_adjacent_free linux64 sample_list H).
Defined.

Lemma coalesce_attempt_fixed_point_witness :
  NoDup (map addr sample_list)
  /\ (coalesce_attempt linux64 sample_list = sample_list
      <-> no_adjacent_free sample_list = true)
  /\ coalesce_attempt linux64 (coalesce_attempt linux64 sample_list)
     = coalesce_attempt linux64 sample_list.
Proof.
  assert (H : NoDup (map addr sample_list)) by (unfold sample_list; distinct_addresses).
  split; [exact H |].
  apply (coalesce_attempt_fixed_point linux64 sample_list H).
Defined.

Lemma coalesce_attempt_conserves_witness :
  footprint linux64 sample_list < 2 ^ 64
  /\ live_blocks (coalesce_attempt linux64 sample_list) = live_blocks sample_list
  /\ footprint linux64 (coalesce_attempt linux64 sample_list)
     = footprint linux64 sample_list
  /\ sizes_nonneg (coalesce_attempt linux64 sample_list).
Proof.
  split; [reflexivity |].
  apply (coalesce_attempt_conserves linux64 sample_list).
  - unfold sample_list. distinct_addresses.
  - unfold sample_list. repeat (constructor; [simpl; lia |]). constructor.
  - reflexivity.
Defined.

Lemma coalesce_attempt_keeps_layout_witness :
  laid_out linux64 4096 (heap_blocks sample_list)
  /\ laid_out linux64 4096 (heap_blocks (coalesce_attempt linux64 sample_list))
  /\ end_of linux64 4096 (heap_blocks (coalesce_attempt linux64 sample_list))
     = end_of linux64 4096 (heap_blocks sample_list)
  /\ sizes_nonneg (coalesce_attempt linux64 sample_list).
Proof.
  assert (H : laid_out linux64 4096 (heap_blocks sample_list))
    by (vm_compute; repeat split).
  split; [exact H |].
  apply (coalesce_attempt_keeps_layout linux64 4096 sample_list).
  - unfold sample_list. distinct_addresses.
  - unfold sample_list. repeat (constructor; [simpl; lia |]). constructor.
  - lia.
  - exact H.
  - vm_compute. discriminate.
Defined.

Lemma list_add_last_builds_ring_witness :
  NoDup [1000; 4096; 4192; 4256] /\ Links.ring sample_ring 1000 [4096; 4192; 4256].
Proof.
  assert (H : NoDup [1000; 4096; 4192; 4256])
    by (repeat (constructor; [simpl; intuition discriminate |]); constructor).
  split; [exact H |].
  apply (list_add_last_builds_ring 1000 (fun _ => Links.Links 0 0) [4096; 4192; 4256] H).
Defined.

Lemma list_remove_block_unlinks_witness :
  Links.ring sample_ring 1000 ([4096] ++ 4192 :: [4256])
  /\ Links.ring (Links.list_remove_block 4192 sample_ring) 1000 ([4096] ++ [4256])
  /\ Links.list_remove_block 4192 sample_ring 4192 = sample_ring 4192
  /\ Links.next (sample_ring 4192) = hd 1000 [4256]
  /\ Links.prev (sample_ring 4192) = last [4096] 1000.
Proof.
  assert (H : Links.ring sample_ring 1000 ([4096] ++ 4192 :: [4256])).
  { split; [repeat (constructor; [simpl; intuition discriminate |]); constructor
           | vm_compute; repeat split]. }
  split; [exact H |].
  apply (list_remove_block_unlinks sample_ring 1000 4192 [4096] [4256] H).
Defined.

Lemma list_remove_block_undoes_add_last_witness :
  Links.ring sample_ring 1000 [4096; 4192; 4256]
  /\ Links.list_remove_block 5000 (Links.list_add_last 1000 5000 sample_ring) 4256
     = sample_ring 4256.
Proof.
  assert (H : Links.ring sample_ring 1000 [4096; 4192; 4256]).
  { split; [repeat (constructor; [simpl; intuition discriminate |]); constructor
           | vm_compute; repeat split]. }
  split; [exact H |].
  apply (list_remove_block_undoes_add_last sample_ring 1000 5000 [4096; 4192; 4256] H).
  - simpl. intuition discriminate.
  - discriminate.
Defined.

Lemma first_fit_versus_best_fit_witness :
  (0 <= 16 < 2 ^ 64 /\ 16 mod 8 = 0)
  /\ match FirstDraft.find_free_block 16 sample_list, find_best_block 16 sample_list with
     | Some f, Some b =>
         exists i j, nth_error sample_list i = Some f /\ nth_error sample_list j = Some b
           /\ (i <= j)%nat /\ size b <= size f
           /\ status f = STATUS_FREE /\ 16 <= size f
           /\ (forall k c, (k < i)%nat -> nth_error sample_list k = Some c ->
                 status c = STATUS_FREE -> size c < 16)
     | None, None => forall c, In c sample_list -> status c = STATUS_FREE -> size c < 16
     | _, _ => False
     end.
Proof.
  split; [split; [lia | reflexivity] |].
  apply (first_fit_versus_best_fit 16 sample_list); [lia | reflexivity].
Defined.

Lemma os_free_touches_one_block_witness :
  os_free linux64 (4096 + 32) sample_state =
    Returns tt
      (Allocator true true
         [ Block 4096 64 STATUS_FREE; Block 1099511627776 200000 STATUS_MAPPED;
           Block 4192 130944 STATUS_FREE ]
         (Kernel 135168 [Mmap 200032; Sbrk 131072]))
  /\ filter (fun c => negb (addr c + META_BLOCK_SIZE linux64 =? 4096 + 32))
       [ Block 4096 64 STATUS_FREE; Block 1099511627776 200000 STATUS_MAPPED;
         Block 4192 130944 STATUS_FREE ]
     = filter (fun c => negb (addr c + META_BLOCK_SIZE linux64 =? 4096 + 32))
         (blocks sample_state).
Proof.
  assert (H : os_free linux64 (4096 + 32) sample_state =
    Returns tt
      (Allocator true true
         [ Block 4096 64 STATUS_FREE; Block 1099511627776 200000 STATUS_MAPPED;
           Block 4192 130944 STATUS_FREE ]
         (Kernel 135168 [Mmap 200032; Sbrk 131072]))) by reflexivity.
  split; [exact H |].
  apply (proj1 (os_free_touches_one_block linux64 (4096 + 32) sample_state _ H)).
Defined.

Lemma os_malloc_os_free_mapped_round_trip_witness :
  MMAP_THRESHOLD <= wrap (ALIGN 200000 + META_BLOCK_SIZE linux64)
  /\ exists s1 s2,
       os_malloc linux64 200000 (fresh 4096)
         = Returns (1099511627776 + META_BLOCK_SIZE linux64) s1
       /\ blocks s1 = blocks (with_head (fresh 4096))
                        ++ [Block 1099511627776 (ALIGN 200000) STATUS_MAPPED]
       /\ os_free linux64 (1099511627776 + META_BLOCK_SIZE linux64) s1 = Returns tt s2
       /\ blocks s2 = blocks (with_head (fresh 4096))
       /\ brk (os s2) = brk (os (fresh 4096))
       /\ calls (os s2) =
            Munmap 1099511627776 (wrap (META_BLOCK_SIZE linux64 + ALIGN 200000))
              :: Mmap (wrap (META_BLOCK_SIZE linux64 + ALIGN 200000))
              :: calls (os (fresh 4096)).
Proof.
  assert (H : MMAP_THRESHOLD <= wrap (ALIGN 200000 + META_BLOCK_SIZE linux64))
    by (vm_compute; discriminate).
  split; [exact H |].
  apply (os_malloc_os_free_mapped_round_trip linux64 (fresh 4096) 200000 1099511627776);
    [lia | exact H | reflexivity | constructor | vm_compute; discriminate | reflexivity].
Defined.



Lemma os_malloc_keeps_heap_tiled_witness :
  tiled linux64 4096 (2 ^ 30) sample_state
  /\ exists p s', os_malloc linux64 100 sample_state = Returns p s'
       /\ tiled linux64 4096 (2 ^ 30) s'.
Proof.
  assert (H : tiled linux64 4096 (2 ^ 30) sample_state) by literal_tiled.
  split; [exact H |].
  apply (os_malloc_keeps_heap_tiled linux64 4096 (2 ^ 30) sample_state 100);
    [vm_compute; split; [reflexivity | discriminate] | exact H | reflexivity
    | vm_compute; discriminate | kernel_places_above].
Defined.

Lemma os_calloc_keeps_heap_tiled_witness :
  tiled linux64 4096 (2 ^ 30) (fresh 4096)
  /\ exists p s', os_calloc linux64 10 8 (fresh 4096) = Returns p s'
       /\ tiled linux64 4096 (2 ^ 30) s'.
Proof.
  assert (H : tiled linux64 4096 (2 ^ 30) (fresh 4096)) by literal_tiled.
  split; [exact H |].
  apply (os_calloc_keeps_heap_tiled linux64 4096 (2 ^ 30) (fresh 4096) 10 8);
    [vm_compute; split; [reflexivity | discriminate] | exact H | reflexivity
    | vm_compute; discriminate | kernel_places_above].
Defined.

Lemma os_free_keeps_heap_tiled_witness :
  tiled linux64 4096 (2 ^ 30) sample_state
  /\ exists s', os_free linux64 (1099511627776 + 32) sample_state = Returns tt s'
       /\ tiled linux64 4096 (2 ^ 30) s'.
Proof.
  assert (H : tiled linux64 4096 (2 ^ 30) sample_state) by literal_tiled.
  split; [exact H |].
  apply (os_free_keeps_heap_tiled linux64 4096 (2 ^ 30) sample_state
           (1099511627776 + 32) H eq_refl).
  intros b _ _. reflexivity.
Defined.






Lemma os_calloc_accepts_wrapped_products_witness :
  (2 ^ 64 <= 4294967297 * 4294967297
   /\ 4294967297 <= ALIGN (wrap (4294967297 * 4294967297)))
  /\ exists s',
       os_calloc linux64 4294967297 4294967297 (fresh 4096)
         = Returns (1099511627776 + META_BLOCK_SIZE linux64) s'
       /\ search_in linux64 (1099511627776 + META_BLOCK_SIZE linux64) (blocks s')
          = Some (Block 1099511627776 (ALIGN (wrap (4294967297 * 4294967297)))
                    STATUS_MAPPED)
       /\ ALIGN (wrap (4294967297 * 4294967297)) < 4294967297 * 4294967297.
Proof.
  assert (H : 2 ^ 64 <= 4294967297 * 4294967297
              /\ 4294967297 <= ALIGN (wrap (4294967297 * 4294967297)))
    by (split; vm_compute; discriminate).
  split; [exact H |].
  apply (os_calloc_accepts_wrapped_products linux64 (fresh 4096)
           4294967297 4294967297 1099511627776);
    [lia | lia | apply H | apply H | apply H | vm_compute; discriminate
    | reflexivity | apply Forall_nil].
Defined.
